(** * YACReader::ConcurrentQueue — an interleaving model of the job pool

    The class of [concurrent_queue.h] is embedded as a transition system.
    Every thread has a program counter named after the source line it is
    about to execute; one atomic step is one lock acquisition, one
    critical-section body together with the scope exit that releases its
    lock, one condition-variable operation, or one call of a job body.
    The two mutexes are explicit (their owner is part of the state), so
    the lock discipline is a theorem and not an assumption.

    Conventions.
    - [jobsLeft] is a C++ [int]: it is a [Z], and the one place where it
      can leave the range of [int] ([++jobsLeft] at [INT_MAX], undefined
      behaviour in C++) yields the outcome [Undefined].
    - [assert] is compiled in: a failing assertion yields [AssertFailed].
    - A job is an opaque [std::function<void(void)>]: its body is a
      function on an environment [Env] outside of the pool, returning
      [None] when an exception escapes it.  An exception that leaves
      [nextJob] leaves the thread function, for which C++ calls
      [std::terminate]: the outcome [Terminated].
    - The shared total of the test suite is a [std::atomic<int>]: a [Z]
      that [to_int] keeps in the range of [int] (the addition wraps
      around modulo 2^32); the functions of the test that compute an
      [int] return an [Expected], where signed overflow is undefined
      behaviour.
    - Progress is stated over runs without end ([is_run]) under strong
      fairness ([fair]); its proof is classical.
    - Fields after [env] are ghost history, read by no step. *)

From Stdlib Require Import ZArith List Lia Bool Permutation Classical.
From stdpp Require Import base list.

#[local] Open Scope Z_scope.

Definition INT_MAX : Z := 2147483647.

Section Pool.

Context {Env : Type}.

(** [std::function<void(void)>]; [ticket] is a ghost serial number given
    to each call of [enqueue], so that two submissions of the same
    callable are two jobs. *)
Record Job := mkJob { ticket : nat; body : Env -> option Env }.

(** Who called [finalizeJobs]: the worker loop (line 113) or
    [cancelPending] (line 64), which then returns [size]. *)
Inductive caller :=
| FromWorker
| FromCancel (size : nat).

(** Program counters: [Xnn] is "about to execute line nn of the header". *)
Inductive pc :=
(* a user thread between two calls; [r] is what [cancelPending] returned
   if that was the last call *)
| Idle (r : option nat)
(* enqueue *)
| Enq37 (job : Job)          (* lock_guard lock(jobsLeftMutex) *)
| Enq38 (job : Job)          (* ++jobsLeft; } *)
| Enq42 (job : Job)          (* lock_guard lock(queueMutex) *)
| Enq43 (job : Job)          (* _queue.emplace(job); } *)
| Enq46                      (* jobAvailableVar.notify_one() *)
(* cancelPending *)
| Can55                      (* oldQueue is empty; lock_guard lock(queueMutex) *)
| Can58                      (* _queue.swap(oldQueue); } *)
| Can61 (oldQueue : list Job) (* size = oldQueue.size(); assert; if; return *)
(* waitAll *)
| Wait70                     (* unique_lock lock(jobsLeftMutex) *)
| Wait71                     (* if (jobsLeft > 0) *)
| Wait72                     (* the predicate of _waitVar.wait, lock held *)
| Wait72_blocked             (* inside _waitVar.wait, lock released *)
| Wait72_woken               (* notified: re-acquire jobsLeftMutex *)
(* nextJob *)
| Next94                     (* unique_lock lock(queueMutex) *)
| Next96                     (* if (bailout) return *)
| Next100                    (* the predicate of jobAvailableVar.wait, lock held *)
| Next100_blocked            (* inside jobAvailableVar.wait, lock released *)
| Next100_woken              (* notified: re-acquire queueMutex *)
| Next104                    (* if (bailout) return *)
| Next108                    (* job = _queue.front(); _queue.pop(); } *)
| Next112 (job : Job)        (* job() *)
(* finalizeJobs *)
| Fin119 (count : Z) (k : caller)      (* assert(count > 0) *)
| Fin123 (count : Z) (k : caller)      (* lock_guard lock(jobsLeftMutex) *)
| Fin124 (count : Z) (k : caller)      (* assert; jobsLeft -= count; remainingJobs = jobsLeft; } *)
| Fin129 (remainingJobs : Z) (k : caller) (* assert; if (== 0) _waitVar.notify_all() *)
(* joinAll *)
| Join137                    (* lock_guard lock(queueMutex) *)
| Join139                    (* if (bailout) return; bailout = true; } *)
| Join146                    (* jobAvailableVar.notify_all() *)
| Join148 (index : nat)      (* for (auto &x : threads) if (x.joinable()) x.join() *)
(* the thread function nextJob has returned *)
| Exited.

Record State := mkState {
  threads : list bool;            (* std::vector<std::thread>: joinable() of each *)
  _queue : list Job;              (* std::queue: front is the head of the list *)
  jobsLeft : Z;
  bailout : bool;
  jobsLeftMutex : option nat;     (* owner, if locked *)
  queueMutex : option nat;
  pcs : list pc;                  (* thread i is at [pcs !! i]; workers come first *)
  env : Env;                      (* what the job bodies act on *)
  (* ghost history *)
  tickets : nat;                  (* number of enqueue calls so far *)
  appended : list Job;            (* every job ever emplaced, in order *)
  taken : list Job;               (* every job that left _queue, in order *)
  executed : list Job;            (* every job whose body has returned, in order *)
  drained : list Job              (* every job swapped out by cancelPending *)
}.

Inductive Outcome :=
| Ok (s : State)
| Disabled          (* the thread cannot take this step now *)
| AssertFailed      (* an assert of the source fails *)
| Undefined         (* signed overflow, or front() of an empty queue *)
| Terminated.       (* an exception left a thread function *)

(** The public operations; [Destroy] is the destructor, whose body is
    [joinAll()]. *)
Inductive Op :=
| Enqueue (b : Env -> option Env)
| CancelPending
| WaitAll
| Destroy.

(** Scheduler choices.  [Signal t w]: the [notify_one] of thread [t]
    wakes the blocked worker [w]; [Run t] at a [notify_one] is the case
    where no worker is blocked.  [Spurious t]: a blocked [wait] of [t]
    wakes without notification, as C++ allows. *)
Inductive Action :=
| Call (t : nat) (o : Op)
| Run (t : nat)
| Signal (t w : nat)
| Spurious (t : nat).

(** Field updates ([s.x = v] in the source). *)
Definition set_threads (v : list bool) (s : State) : State :=
  mkState v (_queue s) (jobsLeft s) (bailout s) (jobsLeftMutex s) (queueMutex s) (pcs s) (env s) (tickets s) (appended s) (taken s) (executed s) (drained s).

Definition set_queue (v : list Job) (s : State) : State :=
  mkState (threads s) v (jobsLeft s) (bailout s) (jobsLeftMutex s) (queueMutex s) (pcs s) (env s) (tickets s) (appended s) (taken s) (executed s) (drained s).

Definition set_jobsLeft (v : Z) (s : State) : State :=
  mkState (threads s) (_queue s) v (bailout s) (jobsLeftMutex s) (queueMutex s) (pcs s) (env s) (tickets s) (appended s) (taken s) (executed s) (drained s).

Definition set_bailout (v : bool) (s : State) : State :=
  mkState (threads s) (_queue s) (jobsLeft s) v (jobsLeftMutex s) (queueMutex s) (pcs s) (env s) (tickets s) (appended s) (taken s) (executed s) (drained s).

Definition set_jobsLeftMutex (v : option nat) (s : State) : State :=
  mkState (threads s) (_queue s) (jobsLeft s) (bailout s) v (queueMutex s) (pcs s) (env s) (tickets s) (appended s) (taken s) (executed s) (drained s).

Definition set_queueMutex (v : option nat) (s : State) : State :=
  mkState (threads s) (_queue s) (jobsLeft s) (bailout s) (jobsLeftMutex s) v (pcs s) (env s) (tickets s) (appended s) (taken s) (executed s) (drained s).

Definition set_pcs (v : list pc) (s : State) : State :=
  mkState (threads s) (_queue s) (jobsLeft s) (bailout s) (jobsLeftMutex s) (queueMutex s) v (env s) (tickets s) (appended s) (taken s) (executed s) (drained s).

Definition set_env (v : Env) (s : State) : State :=
  mkState (threads s) (_queue s) (jobsLeft s) (bailout s) (jobsLeftMutex s) (queueMutex s) (pcs s) v (tickets s) (appended s) (taken s) (executed s) (drained s).

Definition set_tickets (v : nat) (s : State) : State :=
  mkState (threads s) (_queue s) (jobsLeft s) (bailout s) (jobsLeftMutex s) (queueMutex s) (pcs s) (env s) v (appended s) (taken s) (executed s) (drained s).

Definition set_appended (v : list Job) (s : State) : State :=
  mkState (threads s) (_queue s) (jobsLeft s) (bailout s) (jobsLeftMutex s) (queueMutex s) (pcs s) (env s) (tickets s) v (taken s) (executed s) (drained s).

Definition set_taken (v : list Job) (s : State) : State :=
  mkState (threads s) (_queue s) (jobsLeft s) (bailout s) (jobsLeftMutex s) (queueMutex s) (pcs s) (env s) (tickets s) (appended s) v (executed s) (drained s).

Definition set_executed (v : list Job) (s : State) : State :=
  mkState (threads s) (_queue s) (jobsLeft s) (bailout s) (jobsLeftMutex s) (queueMutex s) (pcs s) (env s) (tickets s) (appended s) (taken s) v (drained s).

Definition set_drained (v : list Job) (s : State) : State :=
  mkState (threads s) (_queue s) (jobsLeft s) (bailout s) (jobsLeftMutex s) (queueMutex s) (pcs s) (env s) (tickets s) (appended s) (taken s) (executed s) v.


Notation "s ▷ f" := (f s) (at level 45, left associativity, only parsing).

(** Thread [t] continues at [p]. *)
Definition goto (t : nat) (p : pc) (s : State) : State :=
  set_pcs (<[t := p]> (pcs s)) s.

(** [std::mutex]: [lock] succeeds only on a free mutex; the guards of the
    source unlock at the end of their scope. *)
Definition lock_jobsLeftMutex (t : nat) (p : pc) (s : State) : Outcome :=
  match jobsLeftMutex s with
  | None => Ok (s ▷ set_jobsLeftMutex (Some t) ▷ goto t p)
  | Some _ => Disabled
  end.

Definition lock_queueMutex (t : nat) (p : pc) (s : State) : Outcome :=
  match queueMutex s with
  | None => Ok (s ▷ set_queueMutex (Some t) ▷ goto t p)
  | Some _ => Disabled
  end.

Definition unlock_jobsLeftMutex : State -> State := set_jobsLeftMutex None.
Definition unlock_queueMutex : State -> State := set_queueMutex None.

(** [std::condition_variable]: the threads waiting on [jobAvailableVar]
    are those at [Next100_blocked], the ones on [_waitVar] those at
    [Wait72_blocked]. *)
Definition wake_worker (p : pc) : pc :=
  match p with Next100_blocked => Next100_woken | _ => p end.

Definition wake_waiter (p : pc) : pc :=
  match p with Wait72_blocked => Wait72_woken | _ => p end.

Definition is_blocked_worker (p : pc) : bool :=
  match p with Next100_blocked => true | _ => false end.

Definition jobAvailableVar_notify_all (s : State) : State :=
  set_pcs (map wake_worker (pcs s)) s.

Definition waitVar_notify_all (s : State) : State :=
  set_pcs (map wake_waiter (pcs s)) s.

(** [void enqueue(std::function<void(void)> job)], lines 34-47. *)
Definition enqueue (t : nat) (p : pc) (s : State) : Outcome :=
  match p with
  | Enq37 job => lock_jobsLeftMutex t (Enq38 job) s
  | Enq38 job =>
      if jobsLeft s =? INT_MAX then Undefined
      else Ok (s ▷ set_jobsLeft (jobsLeft s + 1) ▷ unlock_jobsLeftMutex
                 ▷ goto t (Enq42 job))
  | Enq42 job => lock_queueMutex t (Enq43 job) s
  | Enq43 job =>
      Ok (s ▷ set_queue (_queue s ++ [job]) ▷ set_appended (appended s ++ [job])
            ▷ unlock_queueMutex ▷ goto t Enq46)
  | Enq46 =>
      (* notify_one with nobody waiting; see [signal] for the other case *)
      if existsb is_blocked_worker (pcs s) then Disabled
      else Ok (s ▷ goto t (Idle None))
  | _ => Disabled
  end.

(** [jobAvailableVar.notify_one()] of line 46 waking worker [w]. *)
Definition signal (t w : nat) (s : State) : Outcome :=
  match pcs s !! t, pcs s !! w with
  | Some Enq46, Some Next100_blocked =>
      Ok (s ▷ goto w Next100_woken ▷ goto t (Idle None))
  | _, _ => Disabled
  end.

(** [std::size_t cancelPending()], lines 51-66. *)
Definition cancelPending (t : nat) (p : pc) (s : State) : Outcome :=
  match p with
  | Can55 => lock_queueMutex t Can58 s
  | Can58 =>
      (* _queue.swap(oldQueue) with oldQueue empty *)
      Ok (s ▷ set_queue [] ▷ set_taken (taken s ++ _queue s)
            ▷ set_drained (drained s ++ _queue s)
            ▷ unlock_queueMutex ▷ goto t (Can61 (_queue s)))
  | Can61 oldQueue =>
      let size := length oldQueue in
      if INT_MAX <? Z.of_nat size then AssertFailed
      else if negb (size =? 0)%nat
           then Ok (s ▷ goto t (Fin119 (Z.of_nat size) (FromCancel size)))
           else Ok (s ▷ goto t (Idle (Some size)))
  | _ => Disabled
  end.

(** [void waitAll()], lines 68-76. *)
Definition waitAll (t : nat) (p : pc) (s : State) : Outcome :=
  match p with
  | Wait70 => lock_jobsLeftMutex t Wait71 s
  | Wait71 =>
      if jobsLeft s >? 0 then Ok (s ▷ goto t Wait72)
      else Ok (s ▷ unlock_jobsLeftMutex ▷ goto t (Idle None))
  | Wait72 =>
      if jobsLeft s =? 0 then Ok (s ▷ unlock_jobsLeftMutex ▷ goto t (Idle None))
      else Ok (s ▷ unlock_jobsLeftMutex ▷ goto t Wait72_blocked)
  | Wait72_woken => lock_jobsLeftMutex t Wait72 s
  | _ => Disabled
  end.

(** [void finalizeJobs(int count)], lines 117-132, and the return to its
    caller. *)
Definition finalizeJobs_return (k : caller) : pc :=
  match k with
  | FromWorker => Next94
  | FromCancel size => Idle (Some size)
  end.

Definition finalizeJobs (t : nat) (p : pc) (s : State) : Outcome :=
  match p with
  | Fin119 count k =>
      if count >? 0 then Ok (s ▷ goto t (Fin123 count k)) else AssertFailed
  | Fin123 count k => lock_jobsLeftMutex t (Fin124 count k) s
  | Fin124 count k =>
      if jobsLeft s >=? count
      then Ok (s ▷ set_jobsLeft (jobsLeft s - count) ▷ unlock_jobsLeftMutex
                 ▷ goto t (Fin129 (jobsLeft s - count) k))
      else AssertFailed
  | Fin129 remainingJobs k =>
      if remainingJobs >=? 0
      then if remainingJobs =? 0
           then Ok (s ▷ waitVar_notify_all ▷ goto t (finalizeJobs_return k))
           else Ok (s ▷ goto t (finalizeJobs_return k))
      else AssertFailed
  | _ => Disabled
  end.

(** [void nextJob()], lines 88-115. *)
Definition nextJob (t : nat) (p : pc) (s : State) : Outcome :=
  match p with
  | Next94 => lock_queueMutex t Next96 s
  | Next96 =>
      if bailout s then Ok (s ▷ unlock_queueMutex ▷ goto t Exited)
      else Ok (s ▷ goto t Next100)
  | Next100 =>
      if (0 <? length (_queue s))%nat || bailout s then Ok (s ▷ goto t Next104)
      else Ok (s ▷ unlock_queueMutex ▷ goto t Next100_blocked)
  | Next100_woken => lock_queueMutex t Next100 s
  | Next104 =>
      if bailout s then Ok (s ▷ unlock_queueMutex ▷ goto t Exited)
      else Ok (s ▷ goto t Next108)
  | Next108 =>
      match _queue s with
      | [] => Undefined
      | job :: rest =>
          Ok (s ▷ set_queue rest ▷ set_taken (taken s ++ [job])
                ▷ unlock_queueMutex ▷ goto t (Next112 job))
      end
  | Next112 job =>
      match body job (env s) with
      | Some e =>
          Ok (s ▷ set_env e ▷ set_executed (executed s ++ [job])
                ▷ goto t (Fin119 1 FromWorker))
      | None => Terminated
      end
  | _ => Disabled
  end.

(** [void joinAll()], lines 134-153. *)
Definition joinAll (t : nat) (p : pc) (s : State) : Outcome :=
  match p with
  | Join137 => lock_queueMutex t Join139 s
  | Join139 =>
      if bailout s then Ok (s ▷ unlock_queueMutex ▷ goto t (Idle None))
      else Ok (s ▷ set_bailout true ▷ unlock_queueMutex ▷ goto t Join146)
  | Join146 => Ok (s ▷ jobAvailableVar_notify_all ▷ goto t (Join148 0))
  | Join148 index =>
      match threads s !! index with
      | None => Ok (s ▷ goto t (Idle None))
      | Some true =>
          (* x.join() returns once thread [index] has finished *)
          match pcs s !! index with
          | Some Exited =>
              Ok (s ▷ set_threads (<[index := false]> (threads s))
                    ▷ goto t (Join148 (S index)))
          | _ => Disabled
          end
      | Some false => Ok (s ▷ goto t (Join148 (S index)))
      end
  | _ => Disabled
  end.


(** A user thread that is between two calls enters a public operation.
    [enqueue] receives the callable; the model stamps it with the next
    ticket. *)
Definition call (t : nat) (o : Op) (s : State) : Outcome :=
  match pcs s !! t with
  | Some (Idle _) =>
      match o with
      | Enqueue b =>
          Ok (s ▷ set_tickets (S (tickets s)) ▷ goto t (Enq37 (mkJob (tickets s) b)))
      | CancelPending => Ok (s ▷ goto t Can55)
      | WaitAll => Ok (s ▷ goto t Wait70)
      | Destroy => Ok (s ▷ goto t Join137)
      end
  | _ => Disabled
  end.

(** The next atomic step of thread [t]. *)
Definition run (t : nat) (s : State) : Outcome :=
  match pcs s !! t with
  | None => Disabled
  | Some p =>
      match p with
      | Enq37 _ | Enq38 _ | Enq42 _ | Enq43 _ | Enq46 => enqueue t p s
      | Can55 | Can58 | Can61 _ => cancelPending t p s
      | Wait70 | Wait71 | Wait72 | Wait72_woken => waitAll t p s
      | Next94 | Next96 | Next100 | Next100_woken | Next104 | Next108
      | Next112 _ => nextJob t p s
      | Fin119 _ _ | Fin123 _ _ | Fin124 _ _ | Fin129 _ _ => finalizeJobs t p s
      | Join137 | Join139 | Join146 | Join148 _ => joinAll t p s
      | Idle _ | Wait72_blocked | Next100_blocked | Exited => Disabled
      end
  end.

(** A wait that ends without a notification. *)
Definition spurious (t : nat) (s : State) : Outcome :=
  match pcs s !! t with
  | Some Next100_blocked => Ok (s ▷ goto t Next100_woken)
  | Some Wait72_blocked => Ok (s ▷ goto t Wait72_woken)
  | _ => Disabled
  end.

Definition step (s : State) (a : Action) : Outcome :=
  match a with
  | Call t o => call t o s
  | Run t => run t s
  | Signal t w => signal t w s
  | Spurious t => spurious t s
  end.

(** A schedule, executed from left to right; it stops at the first step
    that does not produce a state. *)
Fixpoint exec (s : State) (l : list Action) : Outcome :=
  match l with
  | [] => Ok s
  | a :: l' =>
      match step s a with
      | Ok s' => exec s' l'
      | o => o
      end
  end.

(** [explicit ConcurrentQueue(int threadCount)], lines 17-27: the workers
    are threads [0 .. threadCount-1], each about to enter [nextJob];
    [users] further threads share the pool. *)
Definition init (threadCount users : nat) (e : Env) : State :=
  {| threads := replicate threadCount true;
     _queue := [];
     jobsLeft := 0;
     bailout := false;
     jobsLeftMutex := None;
     queueMutex := None;
     pcs := replicate threadCount Next94 ++ replicate users (Idle None);
     env := e;
     tickets := 0;
     appended := [];
     taken := [];
     executed := [];
     drained := [] |}.

Definition reachable (threadCount users : nat) (e : Env) (s : State) : Prop :=
  exists l : list Action, exec (init threadCount users e) l = Ok s.

End Pool.

Arguments Job : clear implicits.
Arguments pc : clear implicits.
Arguments State : clear implicits.
Arguments Outcome : clear implicits.
Arguments Op : clear implicits.
Arguments Action : clear implicits.

(** ** Invariants *)

Section Invariants.

Context {Env : Type}.

(** The program counters inside a critical section of each mutex. *)
Definition holds_queueMutex (p : pc Env) : bool :=
  match p with
  | Enq43 _ | Can58 | Next96 | Next100 | Next104 | Next108 | Join139 => true
  | _ => false
  end.

Definition holds_jobsLeftMutex (p : pc Env) : bool :=
  match p with
  | Enq38 _ | Wait71 | Wait72 | Fin124 _ _ => true
  | _ => false
  end.

(** A mutex is owned by [t] exactly when [t] is inside one of its
    critical sections. *)
Definition lock_inv (s : State Env) : Prop :=
  (forall t p, pcs s !! t = Some p -> holds_queueMutex p = true ->
               queueMutex s = Some t) /\
  (forall t p, pcs s !! t = Some p -> holds_jobsLeftMutex p = true ->
               jobsLeftMutex s = Some t) /\
  (forall t, queueMutex s = Some t ->
             exists p, pcs s !! t = Some p /\ holds_queueMutex p = true) /\
  (forall t, jobsLeftMutex s = Some t ->
             exists p, pcs s !! t = Some p /\ holds_jobsLeftMutex p = true).

(** What a worker knows between the second bailout test and the pop. *)
Definition worker_inv (s : State Env) : Prop :=
  (forall t, pcs s !! t = Some Next104 -> bailout s = true \/ _queue s <> []) /\
  (forall t, pcs s !! t = Some Next108 -> bailout s = false /\ _queue s <> []).

(** The part of [jobsLeft] a thread accounts for: a job counted but not
    yet emplaced, a job popped and not yet finalized, a batch swapped out
    and not yet charged. *)
Definition owed (p : pc Env) : Z :=
  match p with
  | Enq42 _ | Enq43 _ => 1
  | Can61 oldQueue => Z.of_nat (length oldQueue)
  | Next112 _ => 1
  | Fin119 count _ | Fin123 count _ | Fin124 count _ => count
  | _ => 0
  end.

Definition owed_total (l : list (pc Env)) : Z :=
  foldr (fun p acc => owed p + acc) 0 l.

(** The arguments of a pending [finalizeJobs]. *)
Definition pc_wf (p : pc Env) : Prop :=
  match p with
  | Fin119 count k | Fin123 count k | Fin124 count k =>
      match k with
      | FromWorker => count = 1
      | FromCancel size => count = Z.of_nat size /\ 0 < count
      end
  | Fin129 remainingJobs _ => 0 <= remainingJobs
  | _ => True
  end.

Definition counter_inv (s : State Env) : Prop :=
  jobsLeft s = Z.of_nat (length (_queue s)) + owed_total (pcs s) /\
  jobsLeft s <= INT_MAX /\
  Forall pc_wf (pcs s).

(** The job a worker is running, and the job an [enqueue] is carrying. *)
Definition running (p : pc Env) : list (Job Env) :=
  match p with Next112 job => [job] | _ => [] end.

Definition submitting (p : pc Env) : list (Job Env) :=
  match p with
  | Enq37 job | Enq38 job | Enq42 job | Enq43 job => [job]
  | _ => []
  end.

(** The queue is first-in first-out, every job that left it is accounted
    for exactly once, and tickets are unique. *)
Definition ledger_inv (s : State Env) : Prop :=
  appended s = taken s ++ _queue s /\
  taken s ≡ₚ flat_map running (pcs s) ++ executed s ++ drained s /\
  NoDup (map ticket (appended s ++ flat_map submitting (pcs s))) /\
  Forall (fun j => (ticket j < tickets s)%nat)
         (appended s ++ flat_map submitting (pcs s)).

(** Running the bodies of [js] one after the other. *)
Fixpoint replay (js : list (Job Env)) (e : Env) : option Env :=
  match js with
  | [] => Some e
  | j :: js' =>
      match body j e with
      | Some e' => replay js' e'
      | None => None
      end
  end.

Definition env_inv (e0 : Env) (s : State Env) : Prop :=
  replay (executed s) e0 = Some (env s).

(** No lost wake-up: while a thread is blocked in [waitAll] either the
    counter is positive or a [notify_all] of [_waitVar] is still to come. *)
Definition wakeup_inv (s : State Env) : Prop :=
  (exists t, pcs s !! t = Some Wait72_blocked) ->
  0 < jobsLeft s \/ exists t' k, pcs s !! t' = Some (Fin129 0 k).

(** Threads [0 .. threadCount-1] are the workers; the others are users. *)
Definition worker_pc (p : pc Env) : bool :=
  match p with
  | Next94 | Next96 | Next100 | Next100_blocked | Next100_woken | Next104
  | Next108 | Next112 _ | Exited => true
  | Fin119 _ FromWorker | Fin123 _ FromWorker | Fin124 _ FromWorker
  | Fin129 _ FromWorker => true
  | _ => false
  end.

Definition role_inv (threadCount : nat) (s : State Env) : Prop :=
  length (threads s) = threadCount /\
  (threadCount <= length (pcs s))%nat /\
  (forall t p, pcs s !! t = Some p -> worker_pc p = (t <? threadCount)%nat).

(** Teardown: the flag is up from line 143 on, a worker leaves [nextJob]
    only under bailout, and the join loop has seen every earlier worker
    finish. *)
Definition join_inv (s : State Env) : Prop :=
  (forall t, pcs s !! t = Some Join146 -> bailout s = true) /\
  (forall t i, pcs s !! t = Some (Join148 i) -> bailout s = true) /\
  (forall t, pcs s !! t = Some Exited -> bailout s = true) /\
  (forall t i k, pcs s !! t = Some (Join148 i) -> (k < i)%nat ->
                 (k < length (threads s))%nat -> pcs s !! k = Some Exited) /\
  (forall k, threads s !! k = Some false -> pcs s !! k = Some Exited).

Record Inv (threadCount : nat) (e0 : Env) (s : State Env) : Prop := mkInv {
  inv_lock : lock_inv s;
  inv_worker : worker_inv s;
  inv_counter : counter_inv s;
  inv_ledger : ledger_inv s;
  inv_env : env_inv e0 s;
  inv_wakeup : wakeup_inv s;
  inv_role : role_inv threadCount s;
  inv_join : join_inv s
}.

(** What it would mean for the worker loop to catch a failing job: the
    worker at line 112 goes on to [finalizeJobs(1)] of line 113. *)
Definition job_failure_is_caught (s : State Env) (t : nat) : Prop :=
  forall job, pcs s !! t = Some (Next112 job) -> body job (env s) = None ->
  exists s', step s (Run t) = Ok s' /\ pcs s' !! t = Some (Fin119 1 FromWorker).

(** The size a call of [cancelPending] is about to return or has
    returned. *)
Definition cancel_count (p : pc Env) : nat :=
  match p with
  | Idle (Some size) => size
  | Can61 oldQueue => length oldQueue
  | Fin119 _ (FromCancel size) | Fin123 _ (FromCancel size)
  | Fin124 _ (FromCancel size) | Fin129 _ (FromCancel size) => size
  | _ => 0
  end.

Definition count_inv (s : State Env) : Prop :=
  forall t p, pcs s !! t = Some p -> (cancel_count p <= length (drained s))%nat.

(** The program counters inside [waitAll]. *)
Definition in_waitAll (p : pc Env) : bool :=
  match p with
  | Wait70 | Wait71 | Wait72 | Wait72_blocked | Wait72_woken => true
  | _ => false
  end.

(** The state a schedule ends in ([d] if it does not end in a state). *)
Definition final (o : Outcome Env) (d : State Env) : State Env :=
  match o with Ok s => s | _ => d end.

(** One uninterrupted call of [enqueue], up to the [notify_one]. *)
Definition enqueue_steps (t : nat) (b : Env -> option Env) : list (Action Env) :=
  [Call t (Enqueue b); Run t; Run t; Run t; Run t].

(** One uninterrupted call of [cancelPending] that finds [size] jobs. *)
Definition cancelPending_steps (t : nat) (size : nat) : list (Action Env) :=
  [Call t CancelPending; Run t; Run t; Run t] ++
  (if (size =? 0)%nat then [] else [Run t; Run t; Run t; Run t]).

(** A worker from the top of its loop to line 112, queue non-empty. *)
Definition fetch_steps (w : nat) : list (Action Env) :=
  [Run w; Run w; Run w; Run w; Run w].

(** Every call of [enqueue] has emplaced its job or still carries it. *)
Definition ticket_inv (s : State Env) : Prop :=
  tickets s = (length (appended s) + length (flat_map submitting (pcs s)))%nat.

(** A worker that is not waiting: it is in its loop (or finishing a job)
    and will test the queue before it waits again. *)
Definition awake_worker (p : pc Env) : bool :=
  match p with
  | Next94 | Next96 | Next100 | Next100_woken | Next104 | Next108
  | Next112 _ => true
  | Fin119 _ FromWorker | Fin123 _ FromWorker | Fin124 _ FromWorker
  | Fin129 _ FromWorker => true
  | _ => false
  end.

(** A thread that is about to notify, or an awake worker. *)
Definition notices (p : pc Env) : bool :=
  match p with Enq46 => true | _ => awake_worker p end.

(** A waiting worker is not forgotten: if there is work and no bailout,
    a [notify_one] is still to come or some worker is awake; under
    bailout the [notify_all] of line 146 is still to come. *)
Definition notice_inv (s : State Env) : Prop :=
  ((exists w, pcs s !! w = Some Next100_blocked) ->
   _queue s <> [] -> bailout s = false ->
   exists t p, pcs s !! t = Some p /\ notices p = true) /\
  ((exists w, pcs s !! w = Some Next100_blocked) ->
   bailout s = true -> exists t, pcs s !! t = Some Join146).

(** A worker woken by the [notify_all] of [joinAll]: re-acquire the lock,
    pass the predicate, find the flag at line 104 and return. *)
Definition exit_steps (w : nat) : list (Action Env) := [Run w; Run w; Run w].

(** The destructor on thread [u], run to the end against [threadCount]
    waiting workers: [joinAll] up to its [notify_all], then every worker
    in turn, then the join loop. *)
Definition teardown_steps (threadCount u : nat) : list (Action Env) :=
  [Call u Destroy; Run u; Run u; Run u] ++
  flat_map exit_steps (seq 0 threadCount) ++
  replicate threadCount (Run u) ++ [Run u].

(** Thread [u] enqueues the callables one after the other while no
    worker is waiting. *)
Definition enqueue_all (u : nat) (bs : list (Env -> option Env)) : list (Action Env) :=
  flat_map (fun b => enqueue_steps u b ++ [Run u]) bs.

(** [finalizeJobs] run without interruption. *)
Definition finalize_steps (t : nat) : list (Action Env) :=
  [Run t; Run t; Run t; Run t].

(** One turn of the worker loop on a non-empty queue: fetch, call the
    job, [finalizeJobs(1)]. *)
Definition work_steps (w : nat) : list (Action Env) :=
  fetch_steps w ++ [Run w] ++ finalize_steps w.

(** The test [singleUserThread] with the worker scheduled after the
    enqueuer: thread [u] enqueues everything, worker [w] takes one job
    after the other, then [u] calls [waitAll]. *)
Definition serial_schedule (w u : nat) (bs : list (Env -> option Env)) : list (Action Env) :=
  enqueue_all u bs ++ concat (replicate (length bs) (work_steps w)) ++
  [Call u WaitAll; Run u; Run u].

(** The jobs [enqueue] makes of the callables, from ticket [k] on. *)
Definition stamped (k : nat) (bs : list (Env -> option Env)) : list (Job Env) :=
  imap (fun i b => mkJob (k + i) b) bs.

(** An [enqueue] that wakes the waiting worker [w], which takes the job,
    calls it, finalizes it and waits again. *)
Definition cycle_steps (w u : nat) (b : Env -> option Env) : list (Action Env) :=
  enqueue_steps u b ++ [Signal u w] ++
  [Run w; Run w; Run w; Run w] ++ [Run w] ++ finalize_steps w ++
  [Run w; Run w; Run w].

(** A wait that ends without a notification, and the two steps in which
    the thread re-acquires the lock and tests the predicate again. *)
Definition spurious_steps (t : nat) : list (Action Env) :=
  [Spurious t; Run t; Run t].

(** The [notify_all] of line 130 on thread [f], after which the threads
    [ts] that waited in [waitAll] re-acquire the lock and test the
    predicate, one after the other. *)
Definition release_steps (f : nat) (ts : list nat) : list (Action Env) :=
  Run f :: flat_map (fun t => [Run t; Run t]) ts.

(** *** Runs *)

(** A run of the pool without end: the state at every instant and the
    action taken there; at an instant without action nothing moves. *)
Definition is_run (trace : nat -> State Env) (acts : nat -> option (Action Env)) : Prop :=
  forall k,
    match acts k with
    | Some a => step (trace k) a = Ok (trace (S k))
    | None => trace (S k) = trace k
    end.

(** Thread [t] has a step of its own to take: the next step of the
    operation it is in, or its [notify_one] to a waiting worker.
    Entering an operation is up to the caller and a spurious wake-up up
    to the implementation; neither is a step a thread has to take. *)
Definition enabled (t : nat) (s : State Env) : Prop :=
  (exists s', step s (Run t) = Ok s') \/
  (exists w s', step s (Signal t w) = Ok s').

(** The action is such a step of thread [t]. *)
Definition moves (t : nat) (a : option (Action Env)) : bool :=
  match a with
  | Some (Run t') | Some (Signal t' _) => (t =? t')%nat
  | _ => false
  end.

(** The scheduler and the locks are fair: a thread that has a step to
    take again and again takes one eventually. *)
Definition fair (trace : nat -> State Env) (acts : nat -> option (Action Env)) : Prop :=
  forall t k,
    (forall j, (k <= j)%nat -> exists j', (j <= j')%nat /\ enabled t (trace j')) ->
    exists k', (k <= k')%nat /\ moves t (acts k') = true.

(** No job throws: the body of a job that a worker is about to call
    returns. *)
Definition jobs_return (s : State Env) : Prop :=
  forall w job, pcs s !! w = Some (Next112 job) -> body job (env s) <> None.

(** The assumptions on a run under which the pool owes an answer: it is
    not torn down, the counter stays below [INT_MAX], and no job
    throws. *)
Definition undisturbed (trace : nat -> State Env) : Prop :=
  forall k, bailout (trace k) = false /\ jobsLeft (trace k) < INT_MAX /\
            jobs_return (trace k).

(** The job has been executed or drained. *)
Definition settled (s : State Env) (job : Job Env) : Prop :=
  job ∈ executed s \/ job ∈ drained s.

(** The guarantee of [enqueue] in the words of the specification, for a
    pool of [threadCount] workers: in a fair and undisturbed run, a job
    that has been emplaced is eventually executed or drained. *)
Definition enqueue_guarantee (threadCount users : nat) (e0 : Env)
    (trace : nat -> State Env) (acts : nat -> option (Action Env))
    (job : Job Env) : Prop :=
  reachable threadCount users e0 (trace 0%nat) -> is_run trace acts -> fair trace acts ->
  undisturbed trace -> job ∈ appended (trace 0%nat) ->
  exists k, settled (trace k) job.

(** A thread that is inside an operation and not waiting. *)
Definition active (p : pc Env) : bool :=
  match p with
  | Idle _ | Wait72_blocked | Next100_blocked | Exited => false
  | _ => true
  end.

(** The program counters at which a thread acquires a mutex. *)
Definition acquires_queueMutex (p : pc Env) : bool :=
  match p with
  | Enq42 _ | Can55 | Next94 | Next100_woken | Join137 => true
  | _ => false
  end.

Definition acquires_jobsLeftMutex (p : pc Env) : bool :=
  match p with
  | Enq37 _ | Wait70 | Wait72_woken | Fin123 _ _ => true
  | _ => false
  end.

(** The number of steps after which the owner of [queueMutex] has
    released it at the latest. *)
Definition queueMutex_rank (p : pc Env) : nat :=
  match p with
  | Next96 => 4
  | Next100 => 3
  | Next104 => 2
  | _ => 1
  end.

(** The same for [jobsLeftMutex]. *)
Definition jobsLeftMutex_rank (p : pc Env) : nat :=
  match p with
  | Wait71 => 2
  | _ => 1
  end.

(** The number of steps an awake worker is away from line 108, when the
    queue is not empty and [bailout] is not set. *)
Definition fetch_rank (p : pc Env) : nat :=
  match p with
  | Next108 => 1
  | Next104 => 2
  | Next100 => 3
  | Next96 | Next100_woken => 4
  | Next94 => 5
  | Fin129 _ _ => 6
  | Fin124 _ _ => 7
  | Fin123 _ _ => 8
  | Fin119 _ _ => 9
  | _ => 10
  end.

(** The run that follows a schedule and then rests. *)
Definition run_of (s : State Env) (l : list (Action Env)) (k : nat) : State Env :=
  final (exec s (take k l)) s.

Definition acts_of (l : list (Action Env)) (k : nat) : option (Action Env) :=
  l !! k.

(** No thread is inside an operation and not waiting: the pool is at
    rest. *)
Definition at_rest (s : State Env) : bool :=
  forallb (fun p => negb (active p)) (pcs s).

(** The assumptions of [undisturbed] at one state, as a test. *)
Definition calm (s : State Env) : bool :=
  negb (bailout s) && (jobsLeft s <? INT_MAX) &&
  forallb (fun p => match p with
                    | Next112 job =>
                        match body job (env s) with
                        | Some _ => true
                        | None => false
                        end
                    | _ => true
                    end) (pcs s).

Definition is_Ok (o : Outcome Env) : bool :=
  match o with Ok _ => true | _ => false end.

End Invariants.

(** ** Scenarios of the test suite *)

(** The C++ [int] of the test suite: 32 bits, two's complement. *)
Definition INT_MIN : Z := -2147483648.

Definition in_int (z : Z) : bool := (INT_MIN <=? z) && (z <=? INT_MAX).

(** Conversion of an integer value to [int]: the value modulo 2^32 that
    lies in [INT_MIN .. INT_MAX].  This is what [static_cast<int>] does
    to a [std::size_t], and how the arithmetic of [std::atomic<int>]
    wraps around. *)
Definition to_int (z : Z) : Z := (z - INT_MIN) mod 4294967296 + INT_MIN.

(** [Job::operator()] of concurrent_queue_test.cpp, line 110:
    [total += data.summand] on the shared [Total], a [std::atomic<int>],
    whose addition wraps around and has no undefined result. *)
Definition adder (summand : Z) : Z -> option Z :=
  fun total => Some (to_int (total + summand)).

(** A callable that throws. *)
Definition thrower : Z -> option Z := fun _ => None.

(** concurrent_queue_test.cpp, lines 44-47; [summand] is an [int]. *)
Record JobData := mkJobData { summand : Z; sleepingTime : Z }.

(** A data set the test can build: a [QVector] of at most [INT_MAX]
    elements whose summands are values of [int]. *)
Definition JobDataSet_wf (jobs : list JobData) : Prop :=
  Z.of_nat (length jobs) <= INT_MAX /\
  Forall (fun job => in_int (summand job) = true) jobs.

(** What a function of the test that returns an [int] does: it returns
    a value, it ends in [qFatal], or its behaviour is undefined (a
    signed overflow, an iterator past the end). *)
Inductive Expected :=
  | Returns (total : Z)
  | QFatal
  | UndefinedBehaviour.

(** [total + x] on [int]: signed overflow is undefined. *)
Definition plus_int (total x : Z) : Expected :=
  if in_int (total + x) then Returns (total + x) else UndefinedBehaviour.

(** [expectedTotal(first, last)], lines 50-56: [std::accumulate] from 0
    with [total + job.summand] on [int]. *)
Definition expectedTotal_range (jobs : list JobData) : Expected :=
  fold_left (fun total job =>
               match total with
               | Returns t => plus_int t (summand job)
               | o => o
               end) jobs (Returns 0).

(** [expectedTotal(jobs, canceledCount)], lines 63-69.  [canceledCount]
    is a [std::size_t] and is cast to [int] before the subtraction.  The
    difference is computed exactly: when the cast is not negative the
    subtraction cannot overflow, and when it is negative [count] exceeds
    [jobs.size()], so that [jobs.cbegin() + count] is past the end and
    the behaviour is undefined whether or not the subtraction overflowed
    before. *)
Definition expectedTotal (jobs : list JobData) (canceledCount : N) : Expected :=
  let count := Z.of_nat (length jobs) - to_int (Z.of_N canceledCount) in
  if count <? 0 then QFatal
  else if Z.of_nat (length jobs) <? count then UndefinedBehaviour
  else expectedTotal_range (take (Z.to_nat count) jobs).

(** [expectedTotal(const QVector<JobDataSet> &)], lines 71-77:
    [std::accumulate] from 0 with [total + expectedTotal(dataSet)] on
    [int]; the inner call is [expectedTotal(const JobDataSet &)], lines
    58-61, the range over a whole data set. *)
Definition expectedTotal_sets (jobs : list (list JobData)) : Expected :=
  fold_left (fun total dataSet =>
               match total with
               | Returns t =>
                   match expectedTotal_range dataSet with
                   | Returns x => plus_int t x
                   | o => o
                   end
               | o => o
               end) jobs (Returns 0).

(** The sum of the summands as an integer, without the limits of
    [int]. *)
Definition sum_of_summands (jobs : list JobData) : Z :=
  foldr (fun job total => summand job + total) 0 jobs.

(** [Job::operator()], lines 105-112: sleep, then [total += data.summand]. *)
Definition Job_call (data : JobData) : Z -> option Z := adder (summand data).

(** [Enqueuer::operator()], lines 126-133: the jobs of a data set are
    enqueued one after the other; here no worker is waiting, so each
    [notify_one] finds nobody. *)
Definition Enqueuer (t : nat) (jobs : list JobData) : list (Action Z) :=
  flat_map (fun data => enqueue_steps t (Job_call data) ++ [Run t]) jobs.

(** Row C1 of [cancelPending1UserThread_data], line 349. *)
Definition dataSet_C : list JobData :=
  [mkJobData 1 3; mkJobData 5 2; mkJobData 3 1].

(** One worker (thread 0) and the test's thread (thread 1): the three
    jobs are enqueued, the worker has taken the first and is about to
    call it, and the test is at the swap of [cancelPending]. *)
Definition cancel_schedule : list (Action Z) :=
  Enqueuer 1 dataSet_C ++ fetch_steps 0 ++ [Call 1 CancelPending; Run 1].

Definition cancel_state : State Z :=
  final (exec (init 1 1 0) cancel_schedule) (init 1 1 0).

Definition swapped_state : State Z :=
  final (step cancel_state (Run 1)) cancel_state.

(** [cancelPending] returns 2, the worker runs the first job and
    finalizes it, and [waitAll] returns. *)
Definition after_cancel_schedule : list (Action Z) :=
  [Run 1; Run 1; Run 1; Run 1; Run 1] ++
  [Run 0; Run 0; Run 0; Run 0; Run 0] ++
  [Call 1 WaitAll; Run 1; Run 1].

Definition finished_state : State Z :=
  final (exec swapped_state after_cancel_schedule) swapped_state.

(** A pool without workers in which two jobs are pending. *)
Definition no_worker_schedule : list (Action Z) :=
  Enqueuer 0 [mkJobData 12 1; mkJobData 7 0].

Definition no_worker_state : State Z :=
  final (exec (init 0 1 0) no_worker_schedule) (init 0 1 0).

(** Teardown has begun: the flag is set, the workers are not yet woken. *)
Definition teardown_schedule : list (Action Z) :=
  Enqueuer 1 [mkJobData 5 0] ++ [Call 1 Destroy; Run 1; Run 1].

Definition teardown_state : State Z :=
  final (exec (init 1 1 0) teardown_schedule) (init 1 1 0).

(** One worker, one user; the user has enqueued a throwing job and the
    worker is about to call it. *)
Definition failing_job_schedule : list (Action Z) :=
  enqueue_steps 1 thrower ++ [Run 1] ++ fetch_steps 0.

Definition failing_job_state : State Z :=
  final (exec (init 1 1 0) failing_job_schedule) (init 1 1 0).

(** The test [singleUserThread], lines 255-270, with one worker that is
    scheduled after the enqueuer: the three jobs are enqueued, the worker
    takes, calls and finalizes one after the other, [waitAll] returns. *)
Definition single_user_schedule : list (Action Z) :=
  Enqueuer 1 dataSet_C ++
  flat_map (fun _ => fetch_steps 0 ++ [Run 0; Run 0; Run 0; Run 0; Run 0])
    dataSet_C ++
  [Call 1 WaitAll; Run 1; Run 1].

Definition single_user_state : State Z :=
  final (exec (init 1 1 0) single_user_schedule) (init 1 1 0).

(** Two workers that found the queue empty and wait at line 100. *)
Definition idle_schedule : list (Action Z) :=
  [Run 0; Run 0; Run 0; Run 1; Run 1; Run 1].

Definition idle_state : State Z :=
  final (exec (init 2 1 0) idle_schedule) (init 2 1 0).

(** One job is pending and no worker has taken it; the test's thread
    is blocked in [waitAll]. *)
Definition waiting_schedule : list (Action Z) :=
  Enqueuer 1 [mkJobData 5 0] ++ [Call 1 WaitAll; Run 1; Run 1; Run 1].

Definition waiting_state : State Z :=
  final (exec (init 1 1 0) waiting_schedule) (init 1 1 0).

(** The test [waitAllFromMultipleThreads], lines 402-431, with one worker
    and one job: threads 1 and 2 are blocked in [waitAll], and the worker
    has run the job and decremented the counter to 0. *)
Definition two_waiters_schedule : list (Action Z) :=
  Enqueuer 1 [mkJobData 5 1] ++
  [Call 1 WaitAll; Run 1; Run 1; Run 1] ++
  [Call 2 WaitAll; Run 2; Run 2; Run 2] ++
  fetch_steps 0 ++ [Run 0; Run 0; Run 0; Run 0].

Definition two_waiters_state : State Z :=
  final (exec (init 1 2 0) two_waiters_schedule) (init 1 2 0).

(** The cancelling thread of [swapped_state], which is at the assertion
    of line 62, at the assertions of [finalizeJobs]: lines 119, 124 and
    129. *)
Definition at_line_119 : State Z :=
  final (exec swapped_state [Run 1]) swapped_state.

Definition at_line_124 : State Z :=
  final (exec swapped_state [Run 1; Run 1; Run 1]) swapped_state.

Definition at_line_129 : State Z :=
  final (exec swapped_state [Run 1; Run 1; Run 1; Run 1]) swapped_state.

(** A call of [enqueue] that is about to increment the counter. *)
Definition at_line_38_schedule : list (Action Z) :=
  [Call 1 (Enqueue (adder 2)); Run 1].

Definition at_line_38 : State Z :=
  final (exec (init 1 1 0) at_line_38_schedule) (init 1 1 0).

(** A worker that is about to call [front()] on the queue. *)
Definition at_line_108_schedule : list (Action Z) :=
  Enqueuer 1 [mkJobData 5 0] ++ [Run 0; Run 0; Run 0; Run 0].

Definition at_line_108 : State Z :=
  final (exec (init 1 1 0) at_line_108_schedule) (init 1 1 0).

(** One worker and one user; the job of the user has been emplaced, and
    the schedule lets the worker take it, call it, finalize it and wait
    again. *)
Definition emplaced_schedule : list (Action Z) :=
  Enqueuer 1 [mkJobData 5 0].

Definition emplaced_state : State Z :=
  final (exec (init 1 1 0) emplaced_schedule) (init 1 1 0).

Definition worker_schedule : list (Action Z) :=
  work_steps 0 ++ [Run 0; Run 0; Run 0].

(** ** Thread tables *)

Section ThreadTables.

Context {Env : Type}.

Implicit Types (l : list (pc Env)) (p q : pc Env) (t : nat).

Lemma owed_total_app l1 l2 :
  owed_total (l1 ++ l2) = owed_total l1 + owed_total l2.
Proof. induction l1 as [|p l1 IH]; simpl; lia. Qed.

Lemma owed_total_insert l t p q :
  l !! t = Some p ->
  owed_total (<[t := q]> l) = owed_total l - owed p + owed q.
Proof.
  revert t. induction l as [|x l IH]; intros [|t] Hl; simplify_eq/=; try lia.
  rewrite (IH _ Hl). lia.
Qed.

Lemma owed_total_map (f : pc Env -> pc Env) l :
  (forall p, owed (f p) = owed p) ->
  owed_total (map f l) = owed_total l.
Proof. intros Hf. induction l as [|x l IH]; simpl; [done|]. rewrite Hf, IH. done. Qed.

Lemma owed_wake_worker p : owed (wake_worker p) = owed p.
Proof. by destruct p. Qed.

Lemma owed_wake_waiter p : owed (wake_waiter p) = owed p.
Proof. by destruct p. Qed.

Lemma owed_nonneg p : pc_wf p -> 0 <= owed p.
Proof. destruct p as [| | | | | | | | | | | | | | | | | | | | | |c []|c []|c []| | | | | |]; simpl; lia. Qed.

Lemma owed_total_nonneg l : Forall pc_wf l -> 0 <= owed_total l.
Proof.
  induction 1 as [|p l Hp _ IH]; simpl; [lia|].
  pose proof (owed_nonneg p Hp). lia.
Qed.

Lemma owed_total_lookup l t p :
  Forall pc_wf l -> l !! t = Some p -> owed p <= owed_total l.
Proof.
  intros Hwf. revert t. induction Hwf as [|x l Hx Hl IH]; intros [|t] Ht;
    simplify_eq/=.
  - pose proof (owed_total_nonneg l Hl). lia.
  - pose proof (IH _ Ht). pose proof (owed_nonneg x Hx). lia.
Qed.

Lemma owed_total_zero l t p :
  Forall pc_wf l -> owed_total l = 0 -> l !! t = Some p -> owed p = 0.
Proof.
  intros Hwf H0 Ht.
  pose proof (owed_total_lookup l t p Hwf Ht).
  pose proof (owed_nonneg p (proj1 (Forall_lookup _ _) Hwf _ _ Ht)). lia.
Qed.

(** Replacing one entry of the table changes a [flat_map] over it by that
    entry's contribution. *)
Lemma flat_map_insert {A} (f : pc Env -> list A) l t p q :
  l !! t = Some p ->
  exists rest, flat_map f l ≡ₚ f p ++ rest /\
               flat_map f (<[t := q]> l) ≡ₚ f q ++ rest.
Proof.
  revert t. induction l as [|x l IH]; intros [|t] Hl; simplify_eq/=.
  - by exists (flat_map f l).
  - destruct (IH _ Hl) as (rest & H1 & H2).
    exists (f x ++ rest). split.
    + rewrite H1. by rewrite !(assoc app), (comm app (f x)).
    + rewrite H2. by rewrite !(assoc app), (comm app (f x)).
Qed.

Lemma flat_map_insert_nil {A} (f : pc Env -> list A) l t p q :
  l !! t = Some p -> f p = [] -> f q = [] ->
  flat_map f (<[t := q]> l) ≡ₚ flat_map f l.
Proof.
  intros Hl Hp Hq. destruct (flat_map_insert f l t p q Hl) as (rest & H1 & H2).
  rewrite H1, H2, Hp, Hq. done.
Qed.

Lemma flat_map_map_id {A} (f : pc Env -> list A) (g : pc Env -> pc Env) l :
  (forall p, f (g p) = f p) -> flat_map f (map g l) = flat_map f l.
Proof. intros Hg. induction l as [|x l IH]; simpl; [done|]. by rewrite Hg, IH. Qed.

Lemma lookup_goto l t p t0 q :
  <[t := p]> l !! t0 = Some q ->
  (t0 = t /\ q = p) \/ (t0 <> t /\ l !! t0 = Some q).
Proof.
  intros H. destruct (decide (t0 = t)) as [->|Hne].
  - left. split; [done|].
    destruct (decide (t < length l)%nat) as [Hlt|Hge].
    + rewrite list_lookup_insert_eq in H by done. congruence.
    + rewrite list_insert_ge in H by lia.
      apply lookup_lt_Some in H. lia.
  - right. split; [done|]. by rewrite list_lookup_insert_ne in H.
Qed.

Lemma lookup_map_Some (g : pc Env -> pc Env) l t q :
  map g l !! t = Some q -> exists q0, l !! t = Some q0 /\ q = g q0.
Proof.
  intros H. change (map g l) with (g <$> l) in H. rewrite list_lookup_fmap in H.
  destruct (l !! t) as [q0|]; simplify_eq/=. eauto.
Qed.

Lemma lookup_goto_eq l t p q : l !! t = Some q -> <[t := p]> l !! t = Some p.
Proof. intros H. apply list_lookup_insert_eq. by eapply lookup_lt_Some. Qed.

Lemma lookup_map_goto (g : pc Env -> pc Env) (l : list (pc Env)) t p :
  l !! t = Some p -> map g l !! t = Some (g p).
Proof.
  intros H. change (map g l) with (g <$> l). by rewrite list_lookup_fmap, H.
Qed.

Lemma signal_lookup (l : list (pc Env)) t w p q r :
  l !! t = Some p -> l !! w = Some q -> p <> q ->
  <[w := r]> l !! t = Some p.
Proof.
  intros Ht Hw Hne. rewrite list_lookup_insert_ne; [done|].
  intros ->. congruence.
Qed.

(** The entry of thread [t0] after thread [t] moved to [q]. *)
Lemma lookup_goto_dec (l : list (pc Env)) t q t0 p :
  l !! t = Some p ->
  <[t := q]> l !! t0 = if decide (t0 = t) then Some q else l !! t0.
Proof.
  intros Hl. case_decide as Hd.
  - subst. by eapply lookup_goto_eq.
  - by rewrite list_lookup_insert_ne.
Qed.

(** A notification only moves blocked threads. *)
Lemma lookup_wake (g : pc Env -> pc Env) (l : list (pc Env)) t q :
  g = wake_worker \/ g = wake_waiter ->
  map g l !! t = Some q ->
  (l !! t = Some q /\ g q = q) \/
  (g = wake_worker /\ l !! t = Some Next100_blocked /\ q = Next100_woken) \/
  (g = wake_waiter /\ l !! t = Some Wait72_blocked /\ q = Wait72_woken).
Proof.
  intros Hg H. apply lookup_map_Some in H as (q0 & H & ->).
  destruct Hg as [-> | ->]; destruct q0; cbn; auto.
Qed.

(** A finished thread stays finished. *)
Lemma exited_goto (l : list (pc Env)) t p q k :
  l !! t = Some p -> p <> Exited ->
  l !! k = Some Exited -> <[t := q]> l !! k = Some Exited.
Proof.
  intros Hl Hp Hk. rewrite list_lookup_insert_ne; [done|]. intros ->. congruence.
Qed.

Lemma exited_map (g : pc Env -> pc Env) (l : list (pc Env)) k :
  g = wake_worker \/ g = wake_waiter ->
  l !! k = Some Exited -> map g l !! k = Some Exited.
Proof.
  intros Hg Hk. apply (lookup_map_goto g) in Hk. by destruct Hg as [-> | ->].
Qed.

End ThreadTables.

(** ** Proof automation *)

Lemma exec_cons {Env} (s : State Env) a l s1 :
  step s a = Ok s1 -> exec s (a :: l) = exec s1 l.
Proof. intros H. cbn. by rewrite H. Qed.

(** All the ways in which [step s a] produces a state. *)
Ltac step_cases H :=
  match type of H with
  | step ?s ?a = Ok _ =>
      destruct a as [?t ?o|?t|?t ?w|?t]; cbn [step] in H;
      unfold call, run, signal, spurious in H;
      repeat case_match; try discriminate H;
      cbn [enqueue cancelPending waitAll nextJob finalizeJobs joinAll] in H;
      unfold lock_jobsLeftMutex, lock_queueMutex in H;
      repeat case_match; try discriminate H;
      injection H as <-
  end.

(** Projections of an updated state. *)
Ltac simpl_state :=
  cbn [threads _queue jobsLeft bailout jobsLeftMutex queueMutex pcs env
       tickets appended taken executed drained
       set_threads set_queue set_jobsLeft set_bailout set_jobsLeftMutex
       set_queueMutex set_pcs set_env set_tickets set_appended set_taken
       set_executed set_drained goto unlock_jobsLeftMutex unlock_queueMutex
       jobAvailableVar_notify_all waitVar_notify_all] in *.

(** Boolean tests of the source as propositions. *)
Ltac bool_hyps :=
  repeat match goal with
    | H : (_ =? _) = false |- _ => apply Z.eqb_neq in H
    | H : (_ =? _) = true |- _ => apply Z.eqb_eq in H
    | H : (_ >? _) = true |- _ => apply Z.gtb_lt in H
    | H : (_ >? _) = false |- _ => rewrite Z.gtb_ltb in H; apply Z.ltb_ge in H
    | H : (_ >=? _) = true |- _ => apply Z.geb_le in H
    | H : (_ <? _) = false |- _ => apply Z.ltb_ge in H
    | H : (_ <? _) = true |- _ => apply Z.ltb_lt in H
    | H : negb _ = true |- _ => apply negb_true_iff in H
    | H : negb _ = false |- _ => apply negb_false_iff in H
    | H : (_ =? _)%nat = false |- _ => apply Nat.eqb_neq in H
    | H : (_ =? _)%nat = true |- _ => apply Nat.eqb_eq in H
    | H : _ || _ = false |- _ => apply orb_false_iff in H; destruct H
    | H : _ || _ = true |- _ => apply orb_true_iff in H
    | H : (_ <? _)%nat = false |- _ => apply Nat.ltb_ge in H
    | H : (_ <? _)%nat = true |- _ => apply Nat.ltb_lt in H
    end.

(** Which thread a table entry of the successor state belongs to. *)
Ltac lookup_cases H :=
  repeat (apply lookup_goto in H as [[-> ->]|[? H]]);
  try (apply lookup_map_Some in H as (? & H & ->)).

(** The same for an entry that is a given program counter. *)
Ltac lookup_cases_at H :=
  repeat (apply lookup_goto in H as [[-> ?]|[? H]]);
  try (apply lookup_wake in H; [|by auto];
       destruct H as [[H ?]|[(_ & H & ?)|(_ & H & ?)]]);
  try discriminate.

(** A finished thread is still finished in the successor state. *)
Ltac exited_tac :=
  repeat first
    [ eapply exited_goto;
      [ first [ eassumption
              | eapply signal_lookup; [eassumption..|done]
              | eapply lookup_map_goto; eassumption ]
      | done | ]
    | eapply exited_map; [by auto|] ].

(** The step of a thread whose program counter is known. *)
Ltac thread_cases H Hpc :=
  cbn [step] in H; unfold call, run, signal, spurious in H;
  rewrite ?Hpc in H;
  cbn [enqueue cancelPending waitAll nextJob finalizeJobs joinAll] in H;
  unfold lock_jobsLeftMutex, lock_queueMutex in H;
  repeat case_match; try discriminate H;
  injection H as <-; simpl_state.

(** Symbolic execution of the next action of a schedule; [Hpc] is the
    entry of the acting thread in the state the schedule started from,
    [tac] rewrites with what is known about the tests of the step. *)
Ltac exec_step Hpc tac :=
  erewrite exec_cons;
  [| cbn [step]; unfold call, run; simpl_state;
     first [ rewrite Hpc
           | rewrite list_lookup_insert_eq
               by (rewrite ?length_insert, ?length_map;
                   eapply lookup_lt_Some, Hpc) ];
     cbn [enqueue cancelPending waitAll nextJob finalizeJobs joinAll];
     unfold lock_jobsLeftMutex, lock_queueMutex; simpl_state; tac;
     reflexivity ].

(** ** Every step preserves the invariants *)

Section Preservation.

Context {Env : Type}.

Implicit Types (s : State Env) (a : Action Env) (p q : pc Env) (t : nat).

Lemma owed_total_goto_map (g : pc Env -> pc Env) (l : list (pc Env)) t p q :
  (forall p, owed (g p) = owed p) ->
  l !! t = Some p ->
  owed_total (<[t := q]> (map g l)) = owed_total l - owed p + owed q.
Proof.
  intros Hg Hl.
  rewrite (owed_total_insert _ _ (g p)) by by apply lookup_map_goto.
  rewrite owed_total_map, Hg; done.
Qed.

Lemma pc_wf_wake_waiter p : pc_wf p -> pc_wf (wake_waiter p).
Proof. by destruct p. Qed.

Lemma pc_wf_wake_worker p : pc_wf p -> pc_wf (wake_worker p).
Proof. by destruct p. Qed.

Lemma counter_step s a s' :
  counter_inv s -> step s a = Ok s' -> counter_inv s'.
Proof.
  intros (Hsum & Hmax & Hwf) H. step_cases H.
  all: unfold counter_inv; simpl_state.
  all: repeat match goal with
         | Hpc : pcs _ !! _ = Some _ |- _ =>
             pose proof (proj1 (Forall_lookup _ _) Hwf _ _ Hpc);
             pose proof (owed_total_lookup _ _ _ Hwf Hpc);
             revert Hpc
         end; intros.
  all: try match goal with k : caller |- _ => destruct k end.
  all: cbn [pc_wf owed finalizeJobs_return length] in *; bool_hyps.
  all: rewrite ?length_app; cbn [length].
  all: try match goal with
         | Ht : pcs _ !! ?t = Some Enq46, Hw : pcs _ !! ?w = Some Next100_blocked |- _ =>
             rewrite (owed_total_insert _ t Enq46), (owed_total_insert _ _ _ _ Hw)
               by (by apply (signal_lookup _ _ _ _ _ _ Ht Hw));
             cbn [owed]
         end.
  all: split_and!; try lia.
  all: try match goal with
         | Hpc : pcs _ !! ?t = Some _ |- context [owed_total (<[?t := _]> (pcs _))] =>
             rewrite (owed_total_insert _ _ _ _ Hpc); cbn [owed length]; try lia
         | Hpc : pcs _ !! ?t = Some _ |- context [owed_total (<[?t := _]> (map wake_waiter _))] =>
             rewrite (owed_total_goto_map _ _ _ _ _ owed_wake_waiter Hpc); cbn [owed]; try lia
         | Hpc : pcs _ !! ?t = Some _ |- context [owed_total (<[?t := _]> (map wake_worker _))] =>
             rewrite (owed_total_goto_map _ _ _ _ _ owed_wake_worker Hpc); cbn [owed]; try lia
         | |- Forall pc_wf _ =>
             repeat (apply Forall_insert; [|cbn [pc_wf]; try done; try lia]);
             try assumption;
             try (apply Forall_fmap; eapply Forall_impl; [exact Hwf|];
                  auto using pc_wf_wake_waiter, pc_wf_wake_worker)
         end.
Qed.

Lemma holds_queueMutex_wake (g : pc Env -> pc Env) p :
  g = wake_worker \/ g = wake_waiter ->
  holds_queueMutex (g p) = holds_queueMutex p.
Proof. intros [-> | ->]; by destruct p. Qed.

Lemma holds_jobsLeftMutex_wake (g : pc Env -> pc Env) p :
  g = wake_worker \/ g = wake_waiter ->
  holds_jobsLeftMutex (g p) = holds_jobsLeftMutex p.
Proof. intros [-> | ->]; by destruct p. Qed.

Lemma holder_goto (h : pc Env -> bool) (l : list (pc Env)) t q t0 p :
  l !! t = Some p -> (h p = true -> h q = true) ->
  (exists p0, l !! t0 = Some p0 /\ h p0 = true) ->
  exists p1, <[t := q]> l !! t0 = Some p1 /\ h p1 = true.
Proof.
  intros Hl Hh (p0 & Hp0 & Hh0). rewrite (lookup_goto_dec _ _ _ _ _ Hl).
  case_decide; simplify_eq; eauto.
Qed.

Lemma holder_map (h : pc Env -> bool) (g : pc Env -> pc Env)
    (l : list (pc Env)) t0 :
  (forall p, h (g p) = h p) ->
  (exists p0, l !! t0 = Some p0 /\ h p0 = true) ->
  exists p1, map g l !! t0 = Some p1 /\ h p1 = true.
Proof.
  intros Hg (p0 & Hp0 & Hh0). exists (g p0).
  split; [by apply lookup_map_goto | by rewrite Hg].
Qed.

Lemma lock_step s a s' :
  lock_inv s -> step s a = Ok s' -> lock_inv s'.
Proof.
  intros (HQ & HJ & HQ' & HJ') H. step_cases H.
  all: repeat match goal with
         | Hpc : pcs _ !! _ = Some _ |- _ =>
             pose proof (HQ _ _ Hpc); pose proof (HJ _ _ Hpc); revert Hpc
         end; intros.
  all: try match goal with k : caller |- _ => destruct k end.
  all: cbn [holds_queueMutex holds_jobsLeftMutex finalizeJobs_return] in *.
  all: unfold lock_inv; simpl_state; split_and!.
  all: try (intros t0 p0 Hl Hh; lookup_cases Hl;
            rewrite ?holds_queueMutex_wake, ?holds_jobsLeftMutex_wake in Hh by auto;
            cbn [holds_queueMutex holds_jobsLeftMutex] in *; try done;
            try (pose proof (HQ _ _ Hl Hh)); try (pose proof (HJ _ _ Hl Hh));
            intuition congruence).
  all: try (intros t0 Hm; try discriminate Hm;
            try (injection Hm as <-; eexists; split;
                 [eapply lookup_goto_eq; eassumption | done]);
            try apply HQ' in Hm; try apply HJ' in Hm;
            repeat first
              [ eapply holder_goto;
                [ first [ eassumption
                        | eapply signal_lookup; [eassumption..|done]
                        | eapply lookup_map_goto; eassumption ]
                | cbn [holds_queueMutex holds_jobsLeftMutex]; done | ]
              | eapply holder_map;
                [ intros; apply holds_queueMutex_wake || apply holds_jobsLeftMutex_wake; auto | ] ];
            assumption).
  all: intros t0 pnew Hl Hh; lookup_cases Hl.
  all: cbn [holds_queueMutex holds_jobsLeftMutex] in Hh; try discriminate; eauto.
Qed.

Lemma worker_step s a s' :
  lock_inv s -> worker_inv s -> step s a = Ok s' -> worker_inv s'.
Proof.
  intros (HQ & _) (H104 & H108) H. step_cases H.
  all: repeat match goal with
         | Hpc : pcs _ !! _ = Some _ |- _ =>
             pose proof (HQ _ _ Hpc); try pose proof (H104 _ Hpc);
             try pose proof (H108 _ Hpc); revert Hpc
         end; intros.
  all: try match goal with k : caller |- _ => destruct k end.
  all: cbn [holds_queueMutex finalizeJobs_return] in *; bool_hyps.
  all: unfold worker_inv; simpl_state; split.
  all: intros t0 Hl; lookup_cases_at Hl.
  all: try pose proof (HQ _ _ Hl eq_refl); try pose proof (H104 _ Hl);
       try pose proof (H108 _ Hl).
  all: try (intuition congruence).
  match goal with
  | H : _ \/ bailout _ = true |- _ =>
      destruct H as [H|H]; [right|by left];
      apply Nat.ltb_lt in H; destruct (_queue s); cbn [length] in H; [lia|done]
  end.
Qed.

Lemma flat_map_goto {A} (f : pc Env -> list A) (l : list (pc Env)) t p q :
  l !! t = Some p ->
  exists rest,
    flat_map f l ≡ₚ f p ++ rest /\
    flat_map f (<[t := q]> l) ≡ₚ f q ++ rest /\
    (forall g : pc Env -> pc Env, (forall x, f (g x) = f x) ->
       flat_map f (<[t := q]> (map g l)) ≡ₚ f q ++ rest).
Proof.
  intros Hl. destruct (flat_map_insert f l t p q Hl) as (rest & H1 & H2).
  exists rest. split_and!; [done..|]. intros g Hg.
  destruct (flat_map_insert f (map g l) t (g p) q) as (rest' & H3 & H4);
    [by apply lookup_map_goto|].
  rewrite H4. apply Permutation_app_head.
  rewrite (flat_map_map_id f g l Hg), Hg, H1 in H3.
  by apply (inj (app (f p))) in H3.
Qed.

Lemma running_wake (g : pc Env -> pc Env) :
  g = wake_worker \/ g = wake_waiter -> forall x, running (g x) = running x.
Proof. intros [-> | ->] x; by destruct x. Qed.

Lemma submitting_wake (g : pc Env -> pc Env) :
  g = wake_worker \/ g = wake_waiter -> forall x, submitting (g x) = submitting x.
Proof. intros [-> | ->] x; by destruct x. Qed.

Lemma NoDup_fresh_ticket (A rest : list (Job Env)) (j : Job Env) n :
  Forall (fun j => (ticket j < n)%nat) (A ++ rest) ->
  ticket j = n ->
  NoDup (map ticket (A ++ rest)) ->
  NoDup (map ticket (A ++ j :: rest)).
Proof.
  intros Hlt Hj Hnd.
  assert (A ++ j :: rest ≡ₚ j :: (A ++ rest)) as -> by solve_Permutation.
  cbn [map]. apply NoDup_cons. split; [|done].
  intros Hin. apply list_elem_of_In, in_map_iff in Hin as (j' & Heq & Hin).
  apply list_elem_of_In in Hin.
  apply (proj1 (Forall_forall _ _) Hlt) in Hin. lia.
Qed.

Lemma ledger_step s a s' :
  ledger_inv s -> step s a = Ok s' -> ledger_inv s'.
Proof.
  intros (Hfifo & Hperm & Hnd & Hlt) H. step_cases H.
  all: try match goal with k : caller |- _ => destruct k end.
  all: unfold ledger_inv; simpl_state; cbn [finalizeJobs_return].
  all: try match goal with
         | Ht : pcs _ !! ?t = Some Enq46, Hw : pcs _ !! ?w = Some Next100_blocked |- _ =>
             rewrite !(flat_map_insert_nil _ (<[w := _]> _) t Enq46)
               by (first [by eapply signal_lookup | done]);
             rewrite !(flat_map_insert_nil _ _ w Next100_blocked) by done
         end.
  all: try match goal with
         | Hpc : pcs _ !! ?t = Some ?p |- context [flat_map _ (<[?t := ?q]> _)] =>
             destruct (flat_map_goto running _ t p q Hpc) as (Rr & HR & HR' & HRm);
             destruct (flat_map_goto submitting _ t p q Hpc) as (Sr & HS & HS' & HSm);
             pose proof (HRm _ (running_wake wake_worker (or_introl eq_refl))) as HRw;
             pose proof (HRm _ (running_wake wake_waiter (or_intror eq_refl))) as HRa;
             pose proof (HSm _ (submitting_wake wake_worker (or_introl eq_refl))) as HSw;
             pose proof (HSm _ (submitting_wake wake_waiter (or_intror eq_refl))) as HSa;
             clear HRm HSm;
             rewrite ?HR', ?HS', ?HRw, ?HRa, ?HSw, ?HSa;
             rewrite HR in Hperm; rewrite HS in Hnd, Hlt;
             clear HR HS HR' HS' HRw HRa HSw HSa;
             cbn [running submitting] in *
         end.
  all: split_and!.
  all: try (by rewrite Hfifo, <- ?(assoc_L app), ?(right_id_L [] app)).
  all: try (rewrite Hperm; solve_Permutation).
  all: try assumption.
  all: try match goal with
         | |- NoDup (map ticket ?X') =>
             match type of Hnd with
             | NoDup (map ticket ?X) =>
                 assert (X' ≡ₚ X) as -> by solve_Permutation; exact Hnd
             end
         | |- Forall _ ?X' =>
             match type of Hlt with
             | Forall _ ?X =>
                 assert (X' ≡ₚ X) as -> by solve_Permutation; exact Hlt
             end
         end.
  - cbn [app] in *. by apply (NoDup_fresh_ticket _ _ _ (tickets s)).
  - cbn [app] in *. rewrite Forall_app, Forall_cons. rewrite Forall_app in Hlt.
    destruct Hlt as [Hl1 Hl2]. cbn [ticket].
    split_and!; [|lia|]; (eapply Forall_impl; [eassumption|]); cbn; lia.
Qed.

Lemma replay_app (l1 l2 : list (Job Env)) (e : Env) :
  replay (l1 ++ l2) e =
  match replay l1 e with Some e' => replay l2 e' | None => None end.
Proof.
  revert e. induction l1 as [|j l1 IH]; intros e; cbn; [done|].
  destruct (body j e); [apply IH|done].
Qed.

Lemma env_step e0 s a s' :
  env_inv e0 s -> step s a = Ok s' -> env_inv e0 s'.
Proof.
  unfold env_inv. intros He H. step_cases H; simpl_state; try done.
  rewrite replay_app, He. cbn. by case_match.
Qed.

Lemma pending_goto (l : list (pc Env)) t p q :
  l !! t = Some p -> (forall k, p <> Fin129 0 k) ->
  (exists t' k, l !! t' = Some (Fin129 0 k)) ->
  exists t' k, <[t := q]> l !! t' = Some (Fin129 0 k).
Proof.
  intros Hl Hp (t' & k & Ht'). exists t', k.
  rewrite list_lookup_insert_ne; [done|]. intros ->. naive_solver.
Qed.

Lemma pending_map (g : pc Env -> pc Env) (l : list (pc Env)) :
  g = wake_worker \/ g = wake_waiter ->
  (exists t' k, l !! t' = Some (Fin129 0 k)) ->
  exists t' k, map g l !! t' = Some (Fin129 0 k).
Proof.
  intros Hg (t' & k & Ht'). exists t', k.
  apply (lookup_map_goto g) in Ht'. by destruct Hg as [-> | ->].
Qed.

Lemma wakeup_step s a s' :
  counter_inv s -> wakeup_inv s -> step s a = Ok s' -> wakeup_inv s'.
Proof.
  intros (Hsum & Hmax & Hwf) Hw H.
  pose proof (owed_total_nonneg _ Hwf) as Hge.
  step_cases H.
  all: try match goal with k : caller |- _ => destruct k end.
  all: unfold wakeup_inv; simpl_state; cbn [finalizeJobs_return]; bool_hyps.
  all: intros [t0 Hl]; lookup_cases_at Hl.
  all: try (left; lia).
  all: try match goal with
         | Hpc : pcs _ !! ?t = Some (Fin124 ?c ?k) |- _ =>
             destruct (decide (jobsLeft s - c = 0)) as [Hz|Hz];
             [right; exists t, k; rewrite Hz; by eapply lookup_goto_eq
             |left; lia]
         end.
  all: try (destruct (Hw (ex_intro _ t0 Hl)) as [Hpos|Hpend];
            [left; lia|right];
            repeat first
              [ eapply pending_goto;
                [ first [ eassumption
                        | eapply signal_lookup; [eassumption..|done]
                        | eapply lookup_map_goto; eassumption ]
                | by (intros ? ?; simplify_eq) | ]
              | eapply pending_map; [by auto|] ];
            assumption).
Qed.

Lemma worker_pc_wake (g : pc Env -> pc Env) p :
  g = wake_worker \/ g = wake_waiter -> worker_pc (g p) = worker_pc p.
Proof. intros [-> | ->]; by destruct p. Qed.

Lemma role_step n s a s' :
  role_inv n s -> step s a = Ok s' -> role_inv n s'.
Proof.
  intros (Hth & Hlen & Hrole) H. step_cases H.
  all: repeat match goal with
         | Hpc : pcs _ !! _ = Some _ |- _ =>
             pose proof (Hrole _ _ Hpc); revert Hpc
         end; intros.
  all: try match goal with k : caller |- _ => destruct k end.
  all: unfold role_inv; simpl_state; cbn [finalizeJobs_return worker_pc] in *.
  all: rewrite ?length_insert, ?length_map; split_and!; try done.
  all: intros t0 pnew Hl; lookup_cases Hl;
       rewrite ?worker_pc_wake by auto; auto.
Qed.

Lemma join_step s a s' :
  join_inv s -> step s a = Ok s' -> join_inv s'.
Proof.
  intros (H146 & H148 & Hex & Hseen & Hjoined) H. step_cases H.
  all: repeat match goal with
         | Hpc : pcs _ !! _ = Some _ |- _ =>
             try pose proof (H146 _ Hpc); try pose proof (H148 _ _ Hpc);
             try pose proof (Hex _ Hpc); revert Hpc
         end; intros.
  all: try match goal with k : caller |- _ => destruct k end.
  all: unfold join_inv; simpl_state; cbn [finalizeJobs_return] in *.
  all: rewrite ?length_insert.
  all: split_and!;
    [ intros t0 Hl; lookup_cases_at Hl; by eauto 3
    | intros t0 i Hl; lookup_cases_at Hl; by eauto 3
    | intros t0 Hl; lookup_cases_at Hl; by eauto 3
    | try (intros t0 i k Hl Hk Hlen; lookup_cases_at Hl; exited_tac; by eauto 4)
    | try (intros k Hk; exited_tac; by eauto 3) ].
  - intros t0 i k Hl Hk Hlen; lookup_cases_at Hl; simplify_eq; [lia|].
    exited_tac; eauto.
  - intros t0 i k Hl Hk Hlen; lookup_cases_at Hl; simplify_eq; exited_tac;
      [|by eauto].
    destruct (decide (k = index)) as [->|]; [done|].
    eapply Hseen; [eassumption|lia|done].
  - intros k Hk. exited_tac.
    destruct (decide (k = index)) as [->|]; [done|].
    rewrite list_lookup_insert_ne in Hk by done. eauto.
  - intros t0 i k Hl Hk Hlen; lookup_cases_at Hl; simplify_eq; exited_tac;
      [|by eauto].
    destruct (decide (k = index)) as [->|]; [by eauto|].
    eapply Hseen; [eassumption|lia|done].
Qed.

Lemma Inv_step n e0 s a s' :
  Inv n e0 s -> step s a = Ok s' -> Inv n e0 s'.
Proof.
  intros [] H. split;
    eauto using lock_step, worker_step, counter_step, ledger_step, env_step,
      wakeup_step, role_step, join_step.
Qed.

Lemma init_lookup n m (e : Env) t p :
  pcs (init n m e) !! t = Some p ->
  (p = Next94 /\ (t < n)%nat) \/ (p = Idle None /\ (n <= t)%nat).
Proof.
  cbn [init pcs]. intros H.
  apply lookup_app_Some in H as [H|[Hge H]];
    apply lookup_replicate in H as [-> Hlt]; rewrite ?length_replicate in *.
  - by left.
  - by right.
Qed.

Lemma init_flat_map {A} (f : pc Env -> list A) n m :
  f Next94 = [] -> f (Idle None) = [] ->
  flat_map f (replicate n Next94 ++ replicate m (Idle None)) = [].
Proof.
  intros H1 H2. rewrite flat_map_app.
  assert (forall k p, f p = [] -> flat_map f (replicate k p) = []) as Hrep.
  { intros k p Hp. induction k as [|k IH]; cbn; [done|]. by rewrite Hp, IH. }
  by rewrite !Hrep.
Qed.

Lemma Inv_init n m (e : Env) : Inv n e (init n m e).
Proof.
  split.
  - split_and!; try (intros t p H Hh; apply init_lookup in H as [[-> _]|[-> _]];
                     discriminate); intros t H; discriminate.
  - split; intros t H; apply init_lookup in H as [[? _]|[? _]]; discriminate.
  - split_and!; cbn [init pcs jobsLeft _queue length].
    + rewrite owed_total_app.
      assert (forall k (p : pc Env), owed p = 0 -> owed_total (replicate k p) = 0)
        as Hrep.
      { intros k p Hp. induction k as [|k IH]; [done|].
        change (owed_total (replicate (S k) p))
          with (owed p + owed_total (replicate k p)). by rewrite Hp, IH. }
      by rewrite !Hrep.
    + done.
    + apply Forall_app; split; by apply Forall_replicate.
  - split_and!; cbn [init pcs appended taken _queue executed drained tickets].
    + done.
    + by rewrite init_flat_map.
    + rewrite init_flat_map by done. constructor.
    + by rewrite init_flat_map.
  - done.
  - intros [t H]. apply init_lookup in H as [[? _]|[? _]]; discriminate.
  - split_and!.
    + cbn. by rewrite length_replicate.
    + cbn. rewrite length_app, !length_replicate. lia.
    + intros t p H. apply init_lookup in H as [[-> Hlt]|[-> Hge]]; cbn.
      * symmetry. by apply Nat.ltb_lt.
      * symmetry. by apply Nat.ltb_ge.
  - split_and!;
      try (intros t H; apply init_lookup in H as [[? _]|[? _]]; discriminate).
    + intros t i H; apply init_lookup in H as [[? _]|[? _]]; discriminate.
    + intros t i k H; apply init_lookup in H as [[? _]|[? _]]; discriminate.
    + intros k H. cbn in H. apply lookup_replicate in H as [? _]. discriminate.
Qed.

Lemma Inv_exec n e0 l : forall s s',
  Inv n e0 s -> exec s l = Ok s' -> Inv n e0 s'.
Proof.
  induction l as [|a l IH]; intros s s' Hinv H; cbn in H.
  - by injection H as <-.
  - destruct (step s a) as [s1| | | |] eqn:Hs; try discriminate.
    eapply IH; [|eassumption]. by eapply Inv_step.
Qed.

Lemma reachable_Inv n m e0 s : reachable n m e0 s -> Inv n e0 s.
Proof. intros [l H]. eapply Inv_exec; [apply Inv_init|eassumption]. Qed.

Lemma exec_app s l1 l2 :
  exec s (l1 ++ l2) =
  match exec s l1 with Ok s1 => exec s1 l2 | o => o end.
Proof.
  revert s. induction l1 as [|a l1 IH]; intros s; cbn; [done|].
  destruct (step s a); auto.
Qed.

Lemma reachable_exec n m e0 s l s' :
  reachable n m e0 s -> exec s l = Ok s' -> reachable n m e0 s'.
Proof. intros [l0 H0] H. exists (l0 ++ l). by rewrite exec_app, H0. Qed.

Lemma reachable_step n m e0 s a s' :
  reachable n m e0 s -> step s a = Ok s' -> reachable n m e0 s'.
Proof.
  intros Hr H. apply (reachable_exec _ _ _ s [a]); [done|]. cbn. by rewrite H.
Qed.

End Preservation.

(** ** The completion counter *)

Section Counter.

Context {Env : Type}.

Implicit Types (s : State Env) (a : Action Env) (t : nat).

Lemma jobsLeft_bounds n m e0 s :
  reachable n m e0 s ->
  0 <= jobsLeft s /\ Z.of_nat (length (_queue s)) <= jobsLeft s.
Proof.
  intros Hr. destruct (reachable_Inv _ _ _ _ Hr) as [_ _ (Hsum & _ & Hwf) _ _ _ _ _].
  pose proof (owed_total_nonneg _ Hwf). lia.
Qed.

(** A job that an [enqueue] still carries has not been emplaced. *)
Lemma submitting_not_appended s t p job :
  ledger_inv s -> pcs s !! t = Some p -> job ∈ submitting p ->
  job ∉ appended s.
Proof.
  intros (_ & _ & Hnd & _) Hpc Hjob Happ.
  destruct (flat_map_insert submitting _ _ _ p Hpc) as (rest & Hrest & _).
  rewrite Hrest in Hnd.
  apply list_elem_of_split in Hjob as (l1 & l2 & Hp).
  apply list_elem_of_split in Happ as (l3 & l4 & Ha).
  rewrite Hp, Ha in Hnd.
  assert ((l3 ++ job :: l4) ++ (l1 ++ job :: l2) ++ rest
          ≡ₚ job :: job :: l3 ++ l4 ++ l1 ++ l2 ++ rest) as Hperm
    by solve_Permutation.
  rewrite Hperm in Hnd. cbn [map] in Hnd.
  apply NoDup_cons in Hnd as [Hnin _]. apply Hnin. left.
Qed.

(** C2: on every reachable state [jobsLeft] is non-negative and at least
    the length of [_queue]; a step changes it only in three ways: line 38
    of [enqueue] adds 1, while the job is not yet emplaced; line 125 of
    [finalizeJobs] subtracts 1 for a worker that has run a job; line 125
    subtracts, for [cancelPending], the size of the batch it swapped out. *)
Theorem jobsLeft_counts_pending_and_running n m e0 s :
  reachable n m e0 s ->
  (0 <= jobsLeft s /\ Z.of_nat (length (_queue s)) <= jobsLeft s) /\
  forall a s', step s a = Ok s' ->
    (0 <= jobsLeft s' /\ Z.of_nat (length (_queue s')) <= jobsLeft s') /\
    (jobsLeft s' = jobsLeft s \/
     (exists t job, a = Run t /\ pcs s !! t = Some (Enq38 job) /\
        jobsLeft s' = jobsLeft s + 1 /\ job ∉ appended s') \/
     (exists t, a = Run t /\ pcs s !! t = Some (Fin124 1 FromWorker) /\
        jobsLeft s' = jobsLeft s - 1) \/
     (exists t size, a = Run t /\
        pcs s !! t = Some (Fin124 (Z.of_nat size) (FromCancel size)) /\
        jobsLeft s' = jobsLeft s - Z.of_nat size)).
Proof.
  intros Hr. split; [by eapply jobsLeft_bounds|].
  intros a s' Hstep. split.
  { eapply jobsLeft_bounds, reachable_step; eassumption. }
  destruct (reachable_Inv _ _ _ _ Hr) as [_ _ (_ & _ & Hwf) Hledger _ _ _ _].
  pose proof Hstep as H.
  step_cases H; simpl_state; try (by left).
  - right; left. eexists _, _. split_and!; try done.
    eapply submitting_not_appended; [done..|]. cbn. left.
  - pose proof (proj1 (Forall_lookup _ _) Hwf _ _ ltac:(eassumption)) as Hp.
    destruct k as [|size]; cbn in Hp.
    + subst. right; right; left. eauto.
    + destruct Hp as [-> _]. right; right; right. eauto.
Qed.

(** [front()] is only called on a non-empty queue: the single undefined
    behaviour left is the overflow of [++jobsLeft] at [INT_MAX]. *)
Lemma undefined_only_overflow n m e0 s a :
  reachable n m e0 s -> step s a = Undefined ->
  exists t job, a = Run t /\ pcs s !! t = Some (Enq38 job) /\ jobsLeft s = INT_MAX.
Proof.
  intros Hr H. destruct (reachable_Inv _ _ _ _ Hr) as [_ (_ & H108) _ _ _ _ _ _].
  destruct a as [t o|t|t w|t]; cbn [step] in H;
    unfold call, run, signal, spurious in H; repeat case_match; try discriminate H;
    cbn [enqueue cancelPending waitAll nextJob finalizeJobs joinAll] in H;
    unfold lock_jobsLeftMutex, lock_queueMutex in H;
    repeat case_match; try discriminate H; bool_hyps.
  - eauto.
  - subst. destruct (H108 _ ltac:(eassumption)) as [_ Hne]. done.
Qed.

(** C9: the operations return [void] or a size, and the one way in which
    a step reports a failure is a failed [assert]: a drained count above
    [INT_MAX] (line 62), a non-positive count (line 119), a decrement
    below zero (lines 124 and 129).  From the constructor on, no schedule
    reaches a state in which a step fails an assertion. *)
Theorem assertions_never_fail n m e0 s a :
  reachable n m e0 s ->
  step s a <> AssertFailed /\
  (forall s0 : State Env, step s0 a = AssertFailed ->
     exists t, a = Run t /\
       ((exists oldQueue, pcs s0 !! t = Some (Can61 oldQueue) /\
                          INT_MAX < Z.of_nat (length oldQueue)) \/
        (exists count k, pcs s0 !! t = Some (Fin119 count k) /\ count <= 0) \/
        (exists count k, pcs s0 !! t = Some (Fin124 count k) /\
                         jobsLeft s0 < count) \/
        (exists remainingJobs k, pcs s0 !! t = Some (Fin129 remainingJobs k) /\
                                 remainingJobs < 0))).
Proof.
  intros Hr.
  assert (forall s0 : State Env, step s0 a = AssertFailed ->
     exists t, a = Run t /\
       ((exists oldQueue, pcs s0 !! t = Some (Can61 oldQueue) /\
                          INT_MAX < Z.of_nat (length oldQueue)) \/
        (exists count k, pcs s0 !! t = Some (Fin119 count k) /\ count <= 0) \/
        (exists count k, pcs s0 !! t = Some (Fin124 count k) /\
                         jobsLeft s0 < count) \/
        (exists remainingJobs k, pcs s0 !! t = Some (Fin129 remainingJobs k) /\
                                 remainingJobs < 0))) as Hsites.
  { intros s0 H.
    destruct a as [t o|t|t w|t]; cbn [step] in H;
      unfold call, run, signal, spurious in H; repeat case_match; try discriminate H;
      cbn [enqueue cancelPending waitAll nextJob finalizeJobs joinAll] in H;
      unfold lock_jobsLeftMutex, lock_queueMutex in H;
      repeat case_match; try discriminate H; bool_hyps; subst;
      exists t; (split; [done|]).
    - left. eauto.
    - right; left. eexists _, _. split; [done|]. lia.
    - right; right; left. eexists _, _. split; [done|].
      match goal with H : (_ >=? _) = false |- _ =>
        rewrite Z.geb_leb in H; apply Z.leb_gt in H end. lia.
    - right; right; right. eexists _, _. split; [done|].
      match goal with H : (_ >=? _) = false |- _ =>
        rewrite Z.geb_leb in H; apply Z.leb_gt in H end. lia. }
  split; [|done]. intros H.
  destruct (reachable_Inv _ _ _ _ Hr) as [_ _ (Hsum & Hmax & Hwf) _ _ _ _ _].
  destruct (Hsites s H) as (t & -> & Hsite).
  pose proof (owed_total_nonneg _ Hwf) as Hge.
  destruct Hsite as [(old & Hpc & Hlt)|[(c & k & Hpc & Hlt)|[(c & k & Hpc & Hlt)
                    |(r & k & Hpc & Hlt)]]];
    pose proof (proj1 (Forall_lookup _ _) Hwf _ _ Hpc) as Hp;
    pose proof (owed_total_lookup _ _ _ Hwf Hpc) as Hle;
    cbn [pc_wf owed] in *; try destruct k; lia.
Qed.

End Counter.

(** ** Failing jobs *)

Section Failure.

Context {Env : Type}.

(** C7, as the code has it: [nextJob] has no handler around [job()], so
    a failure that escapes the body leaves the thread function and
    [std::terminate] ends the process; no schedule that lets the worker
    continue reaches line 113, and neither the decrement nor the wake-up
    of [finalizeJobs(1)] happens for that job. *)
Theorem job_failure_is_not_caught (s : State Env) t job :
  pcs s !! t = Some (Next112 job) -> body job (env s) = None ->
  step s (Run t) = Terminated /\
  forall l, exec s (Run t :: l) = Terminated.
Proof.
  intros Hpc Hb.
  assert (step s (Run t) = Terminated) as H.
  { cbn. unfold run. rewrite Hpc. cbn. by rewrite Hb. }
  split; [done|]. intros l. cbn [exec]. by rewrite H.
Qed.

End Failure.

(** C7 fails on the code: with one worker and one throwing job the
    worker reaches line 112, and its next step is not line 113. *)
Lemma job_failure_is_caught_fails :
  reachable 1 1 0 failing_job_state /\
  jobsLeft failing_job_state = 1 /\
  ~ job_failure_is_caught failing_job_state 0.
Proof.
  split_and!.
  - exists failing_job_schedule. vm_compute. reflexivity.
  - vm_compute. reflexivity.
  - intros H. destruct (H (mkJob 0 thrower)) as (s' & Hs & _);
      [vm_compute; reflexivity..|].
    vm_compute in Hs. discriminate Hs.
Qed.

Lemma job_failure_is_not_caught_witness :
  step failing_job_state (Run 0) = Terminated /\
  forall l, exec failing_job_state (Run 0 :: l) = Terminated.
Proof.
  apply (job_failure_is_not_caught failing_job_state 0 (mkJob 0 thrower));
    vm_compute; reflexivity.
Defined.

(** ** The worker loop *)

Section WorkerLoop.

Context {Env : Type}.

Implicit Types (s : State Env) (a : Action Env) (t : nat).

Lemma not_holder_queueMutex s t p :
  lock_inv s -> pcs s !! t = Some p -> holds_queueMutex p = false ->
  queueMutex s <> Some t.
Proof.
  intros (_ & _ & HQ' & _) Hpc Hh Hm.
  destruct (HQ' _ Hm) as (p' & Hp' & Hh'). congruence.
Qed.

Lemma not_holder_jobsLeftMutex s t p :
  lock_inv s -> pcs s !! t = Some p -> holds_jobsLeftMutex p = false ->
  jobsLeftMutex s <> Some t.
Proof.
  intros (_ & _ & _ & HJ') Hpc Hh Hm.
  destruct (HJ' _ Hm) as (p' & Hp' & Hh'). congruence.
Qed.

(** C5: a worker at line 112 holds neither mutex.  For every step of a
    worker, also one that follows a spurious wake-up: under bailout the
    queue is left as it is, and at either test of the flag (lines 96 and
    104) the worker releases the lock and its thread function returns;
    the wait is entered only from the predicate of line 100, with the
    flag unset and the queue empty, and releases the lock; the queue
    changes only at line 108, where the flag is unset, the worker owns
    the lock, the job taken is the head, and the lock is released before
    line 112. *)
Theorem nextJob_checks_bailout_around_wait n m e0 s t p :
  reachable n m e0 s -> pcs s !! t = Some p -> worker_pc p = true ->
  (forall job, p = Next112 job ->
     queueMutex s <> Some t /\ jobsLeftMutex s <> Some t) /\
  forall a s', a = Run t \/ a = Spurious t -> step s a = Ok s' ->
    (bailout s = true ->
       _queue s' = _queue s /\
       (p = Next96 \/ p = Next104 ->
          pcs s' !! t = Some Exited /\ queueMutex s' = None)) /\
    (pcs s' !! t = Some Next100_blocked ->
       p = Next100 /\ bailout s = false /\ _queue s = [] /\ queueMutex s' = None) /\
    (_queue s' <> _queue s ->
       p = Next108 /\ bailout s = false /\ queueMutex s = Some t /\
       exists job, _queue s = job :: _queue s' /\
                   pcs s' !! t = Some (Next112 job) /\ queueMutex s' = None).
Proof.
  intros Hr Hpc Hw.
  destruct (reachable_Inv _ _ _ _ Hr) as [Hlock (H104 & H108) _ _ _ _ _ _].
  split.
  { intros job ->. split;
      [eapply not_holder_queueMutex|eapply not_holder_jobsLeftMutex]; eauto. }
  intros a s' Ha H.
  pose proof (proj1 Hlock _ _ Hpc) as HQ.
  pose proof (H108 t) as H108t.
  destruct Ha as [-> | ->]; destruct p; try discriminate Hw;
    try match goal with k : caller |- _ => destruct k; try discriminate Hw end;
    thread_cases H Hpc; bool_hyps; cbn [finalizeJobs_return].
  all: rewrite ?(lookup_goto_eq _ _ _ _ Hpc),
         ?(lookup_goto_eq _ _ _ _ (lookup_map_goto wake_waiter _ _ _ Hpc)).
  all: try (destruct (H108t Hpc) as [Hb Hne]).
  all: try (split_and!; intros; simplify_eq; try done; intuition congruence).
  - split_and!; intros; simplify_eq; try done; [congruence|].
    split_and!; try done. destruct (_queue s); cbn [length] in *; [done|lia].
  - split_and!; intros; simplify_eq; try done; [congruence|].
    split_and!; eauto.
Qed.

End WorkerLoop.

(** ** Teardown *)

Section Teardown.

Context {Env : Type}.

Implicit Types (s : State Env) (a : Action Env) (t : nat).

Lemma bailout_changes_at_line_143 s a s' :
  step s a = Ok s' -> bailout s' <> bailout s ->
  exists t, a = Run t /\ pcs s !! t = Some Join139 /\
            bailout s = false /\ bailout s' = true.
Proof.
  intros H Hne. step_cases H; simpl_state; try done. subst. eauto.
Qed.

Lemma bailout_exec_mono l : forall s s',
  exec s l = Ok s' -> bailout s = true -> bailout s' = true.
Proof.
  induction l as [|a l IH]; intros s s' H Hb; cbn in H; [by simplify_eq|].
  destruct (step s a) as [s1| | | |] eqn:Hs; try discriminate.
  eapply IH; [eassumption|].
  destruct (bool_decide (bailout s1 = bailout s)) eqn:Hd.
  - apply bool_decide_eq_true in Hd. congruence.
  - apply bool_decide_eq_false in Hd.
    destruct (bailout_changes_at_line_143 _ _ _ Hs Hd) as (? & _ & _ & _ & ?). done.
Qed.


End Teardown.

(** ** The ledger of jobs *)

Section Ledger.

Context {Env : Type}.

Implicit Types (s : State Env) (a : Action Env) (t w : nat) (job : Job Env).

Lemma elem_of_running (l : list (pc Env)) job :
  job ∈ flat_map running l <-> exists w, l !! w = Some (Next112 job).
Proof.
  rewrite list_elem_of_In, in_flat_map. split.
  - intros (p & Hp & Hj). apply list_elem_of_In, list_elem_of_lookup in Hp as [w Hw].
    exists w. destruct p; cbn in Hj; try done. destruct Hj as [->|[]]. done.
  - intros [w Hw]. exists (Next112 job). split; [|by left].
    apply list_elem_of_In. by eapply list_elem_of_lookup_2.
Qed.

(** Where the jobs that were emplaced are: each in one place, once. *)
Lemma ledger_partition s :
  ledger_inv s ->
  appended s ≡ₚ _queue s ++ flat_map running (pcs s) ++ executed s ++ drained s /\
  NoDup (_queue s ++ flat_map running (pcs s) ++ executed s ++ drained s).
Proof.
  intros (Hfifo & Hperm & Hnd & _).
  assert (appended s ≡ₚ
          _queue s ++ flat_map running (pcs s) ++ executed s ++ drained s) as H.
  { rewrite Hfifo, Hperm. solve_Permutation. }
  split; [done|]. rewrite <- H.
  rewrite map_app in Hnd. apply NoDup_app in Hnd as (Hnd & _ & _).
  by apply (NoDup_fmap_1 ticket).
Qed.

(** *** Uninterrupted runs *)

Lemma enqueue_run s t r b :
  pcs s !! t = Some (Idle r) -> jobsLeftMutex s = None -> queueMutex s = None ->
  jobsLeft s <> INT_MAX ->
  exists s', exec s (enqueue_steps t b) = Ok s' /\
    pcs s' !! t = Some Enq46 /\
    jobsLeft s' = jobsLeft s + 1 /\
    _queue s' = _queue s ++ [mkJob (tickets s) b] /\
    appended s' = appended s ++ [mkJob (tickets s) b] /\
    bailout s' = bailout s /\ jobsLeftMutex s' = None /\ queueMutex s' = None.
Proof.
  intros Hpc Hj Hq Hmax. apply Z.eqb_neq in Hmax. eexists. split.
  - unfold enqueue_steps.
    exec_step Hpc idtac. exec_step Hpc ltac:(rewrite Hj).
    exec_step Hpc ltac:(rewrite Hmax). exec_step Hpc ltac:(rewrite Hq).
    exec_step Hpc idtac. reflexivity.
  - simpl_state. split_and!; try done.
    apply list_lookup_insert_eq. rewrite !length_insert. by eapply lookup_lt_Some.
Qed.

Lemma fetch_run s w job rest e' :
  pcs s !! w = Some Next94 -> queueMutex s = None -> bailout s = false ->
  _queue s = job :: rest -> body job (env s) = Some e' ->
  exists s', exec s (fetch_steps w ++ [Run w]) = Ok s' /\
    pcs s' !! w = Some (Fin119 1 FromWorker) /\
    _queue s' = rest /\ executed s' = executed s ++ [job] /\ env s' = e'.
Proof.
  intros Hpc Hq Hb Hqueue He. eexists. split.
  - unfold fetch_steps. cbn [app].
    exec_step Hpc ltac:(rewrite Hq). exec_step Hpc ltac:(rewrite Hb).
    exec_step Hpc ltac:(rewrite Hqueue; cbn).
    exec_step Hpc ltac:(rewrite Hb). exec_step Hpc ltac:(rewrite Hqueue).
    exec_step Hpc ltac:(rewrite He). reflexivity.
  - simpl_state. split_and!; try done.
    apply list_lookup_insert_eq. rewrite !length_insert. by eapply lookup_lt_Some.
Qed.

Lemma drain_run s t r :
  pcs s !! t = Some (Idle r) -> queueMutex s = None ->
  exists s', exec s [Call t CancelPending; Run t; Run t] = Ok s' /\
    pcs s' !! t = Some (Can61 (_queue s)) /\
    _queue s' = [] /\ drained s' = drained s ++ _queue s /\
    jobsLeft s' = jobsLeft s /\ bailout s' = bailout s /\ queueMutex s' = None /\
    jobsLeftMutex s' = jobsLeftMutex s /\
    (_queue s = [] -> s' = goto t (Can61 []) s).
Proof.
  intros Hpc Hq. eexists. split.
  - exec_step Hpc idtac. exec_step Hpc ltac:(rewrite Hq).
    exec_step Hpc idtac. reflexivity.
  - simpl_state. split_and!; try done.
    + apply list_lookup_insert_eq. rewrite !length_insert. by eapply lookup_lt_Some.
    + intros Hnil. unfold goto, unlock_queueMutex; simpl_state.
      rewrite !list_insert_insert_eq, Hnil, !(right_id_L [] app), <- Hq, <- Hnil.
      by destruct s.
Qed.

(** Under bailout the queue only grows at its tail or is swapped out. *)
Lemma bailout_step_queue s a s' :
  worker_inv s -> bailout s = true -> step s a = Ok s' ->
  (_queue s' = _queue s /\ drained s' = drained s) \/
  (exists job, _queue s' = _queue s ++ [job] /\ drained s' = drained s) \/
  (exists t, a = Run t /\ pcs s !! t = Some Can58 /\
             _queue s' = [] /\ drained s' = drained s ++ _queue s).
Proof.
  intros (_ & H108) Hb H. step_cases H; simpl_state; eauto 6.
  - right; right. eauto 6.
  - destruct (H108 _ ltac:(eassumption)). congruence.
Qed.

Lemma bailout_exec_queue n e0 job l : forall s s',
  Inv n e0 s -> bailout s = true ->
  job ∈ _queue s \/ job ∈ drained s ->
  exec s l = Ok s' ->
  job ∈ _queue s' \/ job ∈ drained s'.
Proof.
  induction l as [|a l IH]; intros s s' Hinv Hb Hjob H; cbn in H;
    [by simplify_eq|].
  destruct (step s a) as [s1| | | |] eqn:Hs; try discriminate.
  eapply (IH s1); [by eapply Inv_step| |  |done].
  - eapply (bailout_exec_mono [a]); [|done]. cbn. by rewrite Hs.
  - destruct (bailout_step_queue s a s1 (inv_worker _ _ _ Hinv) Hb Hs)
      as [[-> ->]|[(j & -> & ->)|(t & _ & _ & -> & ->)]];
      rewrite ?elem_of_app; tauto.
Qed.


End Ledger.

(** ** Cancellation *)

Section Cancellation.

Context {Env : Type}.

Implicit Types (s : State Env) (a : Action Env) (t w : nat) (job : Job Env).

Lemma cancelPending_run n m e0 s t r :
  reachable n m e0 s ->
  pcs s !! t = Some (Idle r) -> queueMutex s = None -> jobsLeftMutex s = None ->
  exists s', exec s (cancelPending_steps t (length (_queue s))) = Ok s' /\
    pcs s' !! t = Some (Idle (Some (length (_queue s)))) /\
    _queue s' = [] /\ drained s' = drained s ++ _queue s /\
    jobsLeft s' = jobsLeft s - Z.of_nat (length (_queue s)) /\
    bailout s' = bailout s /\ queueMutex s' = None /\ jobsLeftMutex s' = None /\
    (_queue s = [] -> s' = goto t (Idle (Some 0%nat)) s).
Proof.
  intros Hr Hpc Hq Hj.
  destruct (reachable_Inv _ _ _ _ Hr) as [_ _ (Hsum & Hmax & Hwf) _ _ _ _ _].
  pose proof (owed_total_nonneg _ Hwf) as Hge.
  destruct (drain_run s t r Hpc Hq)
    as (s1 & H1 & Hpc1 & Hq1 & Hd1 & Hj1 & Hb1 & Hqm1 & Hjm1 & Hnoop).
  unfold cancelPending_steps.
  change [Call t CancelPending; Run t; Run t; Run t]
    with ([Call t CancelPending; Run t; Run t] ++ [@Run Env t]).
  rewrite <- (assoc_L app), exec_app, H1.
  assert ((INT_MAX <? Z.of_nat (length (_queue s))) = false) as Hsize
    by (apply Z.ltb_ge; lia).
  destruct (length (_queue s) =? 0)%nat eqn:Hz.
  - eexists. split.
    + cbn [app]. exec_step Hpc1 ltac:(rewrite Hsize, Hz; cbn [negb]). reflexivity.
    + apply Nat.eqb_eq in Hz. rewrite Hz.
      simpl_state. split_and!; try done.
      * by eapply lookup_goto_eq.
      * lia.
      * congruence.
      * intros Hnil. rewrite (Hnoop Hnil). unfold goto; simpl_state.
        by rewrite list_insert_insert_eq.
  - assert ((Z.of_nat (length (_queue s)) >? 0) = true) as Hpos
      by (apply Nat.eqb_neq in Hz; apply Z.gtb_lt; lia).
    assert ((jobsLeft s >=? Z.of_nat (length (_queue s))) = true) as Hdec
      by (apply Z.geb_le; lia).
    assert ((jobsLeft s - Z.of_nat (length (_queue s)) >=? 0) = true) as Hrem
      by (apply Z.geb_le; lia).
    destruct (jobsLeft s - Z.of_nat (length (_queue s)) =? 0) eqn:Hzero.
    all: eexists; split;
      [ cbn [app];
        exec_step Hpc1 ltac:(rewrite Hsize, Hz; cbn [negb]);
        exec_step Hpc1 ltac:(rewrite Hpos);
        exec_step Hpc1 ltac:(rewrite Hjm1, Hj);
        exec_step Hpc1 ltac:(rewrite Hj1, Hdec);
        exec_step Hpc1 ltac:(rewrite ?Hj1, Hrem, Hzero);
        reflexivity
      | simpl_state; split_and!; try done;
        [ apply list_lookup_insert_eq; rewrite ?length_map, !length_insert;
          by eapply lookup_lt_Some
        | intros Hnil; rewrite Hnil in Hz; discriminate ] ].
Qed.

(** C3: the swap of line 58 is one step, taken by the owner of
    [queueMutex]: it leaves [_queue] empty and hands the whole former
    contents to the caller, and releases the lock.  An empty batch makes
    the call return 0 with nothing but its own program counter changed;
    otherwise [finalizeJobs] is entered with the size of the batch, its
    decrement (under [jobsLeftMutex]) subtracts exactly that size, and
    the call returns it.  Run without interruption from a state with
    both mutexes free, in a pool with any number of workers, zero
    included, the call returns the length of the queue, leaves the queue
    empty and the counter lower by that length, is a no-op on an empty
    queue, and can be repeated: the next call returns 0 and changes
    nothing. *)
Theorem cancelPending_detaches_the_whole_queue n m e0 s :
  reachable n m e0 s ->
  (forall t s', pcs s !! t = Some Can58 -> step s (Run t) = Ok s' ->
     queueMutex s = Some t /\ queueMutex s' = None /\ _queue s' = [] /\
     pcs s' !! t = Some (Can61 (_queue s)) /\
     drained s' = drained s ++ _queue s) /\
  (forall t oldQueue s',
     pcs s !! t = Some (Can61 oldQueue) -> step s (Run t) = Ok s' ->
     match oldQueue with
     | [] => s' = goto t (Idle (Some 0%nat)) s
     | _ => pcs s' !! t = Some (Fin119 (Z.of_nat (length oldQueue))
                                      (FromCancel (length oldQueue)))
     end) /\
  (forall t count size s',
     pcs s !! t = Some (Fin124 count (FromCancel size)) ->
     step s (Run t) = Ok s' ->
     jobsLeftMutex s = Some t /\ jobsLeft s' = jobsLeft s - Z.of_nat size) /\
  (forall t remainingJobs size s',
     pcs s !! t = Some (Fin129 remainingJobs (FromCancel size)) ->
     step s (Run t) = Ok s' -> pcs s' !! t = Some (Idle (Some size))) /\
  (forall t r,
     pcs s !! t = Some (Idle r) -> queueMutex s = None -> jobsLeftMutex s = None ->
     exists s', exec s (cancelPending_steps t (length (_queue s))) = Ok s' /\
       pcs s' !! t = Some (Idle (Some (length (_queue s)))) /\
       _queue s' = [] /\ drained s' = drained s ++ _queue s /\
       jobsLeft s' = jobsLeft s - Z.of_nat (length (_queue s)) /\
       (_queue s = [] -> s' = goto t (Idle (Some 0%nat)) s) /\
       exec s' (cancelPending_steps t 0) = Ok (goto t (Idle (Some 0%nat)) s')).
Proof.
  intros Hr.
  destruct (reachable_Inv _ _ _ _ Hr) as [Hlock _ (Hsum & Hmax & Hwf) _ _ _ _ _].
  split_and!.
  - intros t s' Hpc H. pose proof (proj1 Hlock _ _ Hpc eq_refl) as HQ.
    thread_cases H Hpc. split_and!; try done. by eapply lookup_goto_eq.
  - intros t old s' Hpc H. thread_cases H Hpc; bool_hyps; cbn [length] in *;
      try done; try lia; by eapply lookup_goto_eq.
  - intros t count size s' Hpc H.
    pose proof (proj1 (proj2 Hlock) _ _ Hpc eq_refl) as HJ.
    pose proof (proj1 (Forall_lookup _ _) Hwf _ _ Hpc) as [-> _].
    thread_cases H Hpc. done.
  - intros t r size s' Hpc H. thread_cases H Hpc; cbn [finalizeJobs_return].
    + apply list_lookup_insert_eq. rewrite length_map. by eapply lookup_lt_Some.
    + by eapply lookup_goto_eq.
  - intros t r Hpc Hq Hj.
    destruct (cancelPending_run n m e0 s t r Hr Hpc Hq Hj)
      as (s' & Hrun & Hpc' & Hq' & Hd' & Hj' & Hb' & Hqm' & Hjm' & Hnoop).
    exists s'. split_and!; try done.
    destruct (cancelPending_run n m e0 s' t _ (reachable_exec _ _ _ _ _ _ Hr Hrun)
                Hpc' Hqm' Hjm') as (s2 & Hrun2 & _ & _ & _ & _ & _ & _ & _ & Hnoop2).
    rewrite Hq' in Hrun2. cbn [length] in Hrun2. by rewrite <- (Hnoop2 Hq').
Qed.

End Cancellation.

(** ** The completion barrier *)

Section Barrier.

Context {Env : Type}.

Implicit Types (s : State Env) (a : Action Env) (t w : nat) (job : Job Env).

(** [jobsLeft] is read and written by the owner of [jobsLeftMutex] only. *)
Lemma jobsLeft_changes_under_lock s a s' :
  lock_inv s -> step s a = Ok s' -> jobsLeft s' <> jobsLeft s ->
  exists t, a = Run t /\ jobsLeftMutex s = Some t.
Proof.
  intros (_ & HJ & _) H Hne. step_cases H; simpl_state; try done.
  all: eexists; split; [done|]; eapply HJ; [eassumption|done].
Qed.

(** C4: the step by which a thread leaves [waitAll] is taken by the owner
    of [jobsLeftMutex] in a state where [jobsLeft] is 0, so the call
    does not return while the counter is positive; every step that
    changes [jobsLeft] is taken by the owner of the same mutex.  Called
    when the counter is 0 (as right after construction), [waitAll]
    returns after its test, without blocking and without any other
    change; called when it is positive, it blocks and releases the lock.
    No wake-up is lost: while a thread is blocked in the wait of line
    72, the counter is positive or the [notify_all] of the decrement
    that made it 0 is still to come, and that [notify_all] leaves no
    thread blocked. *)
Theorem waitAll_returns_only_at_zero n m e0 s :
  reachable n m e0 s ->
  (forall t p s',
     pcs s !! t = Some p -> in_waitAll p = true -> step s (Run t) = Ok s' ->
     pcs s' !! t = Some (Idle None) ->
     jobsLeft s = 0 /\ jobsLeft s' = 0 /\ jobsLeftMutex s = Some t) /\
  (forall a s', step s a = Ok s' -> jobsLeft s' <> jobsLeft s ->
     exists t, a = Run t /\ jobsLeftMutex s = Some t) /\
  (forall t r,
     pcs s !! t = Some (Idle r) -> jobsLeftMutex s = None -> jobsLeft s = 0 ->
     exec s [Call t WaitAll; Run t; Run t] = Ok (goto t (Idle None) s)) /\
  (forall t r,
     pcs s !! t = Some (Idle r) -> jobsLeftMutex s = None -> 0 < jobsLeft s ->
     exists s', exec s [Call t WaitAll; Run t; Run t; Run t] = Ok s' /\
                pcs s' !! t = Some Wait72_blocked /\ jobsLeftMutex s' = None) /\
  ((exists t, pcs s !! t = Some Wait72_blocked) ->
     0 < jobsLeft s \/ exists t' k, pcs s !! t' = Some (Fin129 0 k)) /\
  (forall t' k s', pcs s !! t' = Some (Fin129 0 k) -> step s (Run t') = Ok s' ->
     forall t, pcs s' !! t <> Some Wait72_blocked).
Proof.
  intros Hr.
  destruct (reachable_Inv _ _ _ _ Hr) as [Hlock _ (Hsum & Hmax & Hwf) _ _ Hwake _ _].
  pose proof (owed_total_nonneg _ Hwf) as Hge.
  split_and!.
  - intros t p s' Hpc Hin H Hret.
    pose proof (proj1 (proj2 Hlock) _ _ Hpc) as HJ.
    destruct p; try discriminate Hin; thread_cases H Hpc; bool_hyps;
      rewrite (lookup_goto_eq _ _ _ _ Hpc) in Hret; try discriminate Hret;
      split_and!; auto; lia.
  - intros a s'. by apply jobsLeft_changes_under_lock.
  - intros t r Hpc Hj Hz.
    assert ((jobsLeft s >? 0) = false) as Hgt
      by (rewrite Z.gtb_ltb; apply Z.ltb_ge; lia).
    exec_step Hpc idtac. exec_step Hpc ltac:(rewrite Hj).
    exec_step Hpc ltac:(rewrite Hgt). cbn [exec]. f_equal.
    unfold goto, unlock_jobsLeftMutex, set_pcs, set_jobsLeftMutex; simpl_state.
    rewrite !list_insert_insert_eq, <- Hj. by destruct s.
  - intros t r Hpc Hj Hpos.
    assert ((jobsLeft s >? 0) = true) as Hgt by (by apply Z.gtb_lt).
    assert ((jobsLeft s =? 0) = false) as Hne by (apply Z.eqb_neq; lia).
    eexists. split.
    + exec_step Hpc idtac. exec_step Hpc ltac:(rewrite Hj).
      exec_step Hpc ltac:(rewrite Hgt). exec_step Hpc ltac:(rewrite Hne).
      reflexivity.
    + simpl_state. split; [|done].
      apply list_lookup_insert_eq. rewrite !length_insert. by eapply lookup_lt_Some.
  - done.
  - intros t' k s' Hpc H t Hl. thread_cases H Hpc; try lia.
    lookup_cases_at Hl. by destruct k.
Qed.

End Barrier.

(** ** Counts returned by cancelPending *)

Section Counts.

Context {Env : Type}.

Implicit Types (s : State Env) (a : Action Env) (t w : nat) (job : Job Env).

Lemma cancel_count_wake (g : pc Env -> pc Env) p :
  g = wake_worker \/ g = wake_waiter -> cancel_count (g p) = cancel_count p.
Proof. intros [-> | ->]; by destruct p. Qed.

Lemma count_step s a s' : count_inv s -> step s a = Ok s' -> count_inv s'.
Proof.
  intros Hc H. step_cases H.
  all: repeat match goal with
         | Hpc : pcs _ !! _ = Some _ |- _ => pose proof (Hc _ _ Hpc); revert Hpc
         end; intros.
  all: try match goal with k : caller |- _ => destruct k end.
  all: unfold count_inv; simpl_state; cbn [cancel_count finalizeJobs_return] in *.
  all: intros t0 pnew Hl; lookup_cases Hl;
       rewrite ?cancel_count_wake by auto; cbn [cancel_count];
       rewrite ?length_app; try lia.
  all: try (pose proof (Hc _ _ Hl); lia).
Qed.

Lemma count_exec l : forall s s', count_inv s -> exec s l = Ok s' -> count_inv s'.
Proof.
  induction l as [|a l IH]; intros s s' Hc H; cbn in H; [by simplify_eq|].
  destruct (step s a) as [s1| | | |] eqn:Hs; try discriminate.
  eapply IH; [|eassumption]. by eapply count_step.
Qed.

Lemma reachable_count n m e0 s : reachable n m e0 s -> count_inv s.
Proof.
  intros [l H]. eapply count_exec; [|eassumption].
  intros t p Hp. apply init_lookup in Hp as [[-> _]|[-> _]]; cbn; lia.
Qed.

(** No more jobs were emplaced than [enqueue] was called. *)
Lemma appended_le_tickets s :
  ledger_inv s -> (length (appended s) <= tickets s)%nat.
Proof.
  intros (_ & _ & Hnd & Hlt).
  rewrite map_app in Hnd. apply NoDup_app in Hnd as (Hnd & _ & _).
  apply Forall_app in Hlt as [Hlt _].
  assert (length (seq 0 (tickets s)) = tickets s) as Hseq by apply length_seq.
  rewrite <- (length_map ticket), <- Hseq.
  apply NoDup_incl_length; [by apply NoDup_ListNoDup|].
  intros k Hk. apply in_map_iff in Hk as (j & <- & Hj). apply in_seq.
  apply list_elem_of_In in Hj. apply (proj1 (Forall_forall _ _) Hlt) in Hj. lia.
Qed.

Lemma drained_le_appended s :
  ledger_inv s -> (length (drained s) <= length (appended s))%nat.
Proof.
  intros (Hfifo & Hperm & _). rewrite Hfifo, length_app, Hperm, !length_app. lia.
Qed.

(** What leaves the queue is logged in order; a drain logs its batch
    twice. *)
Lemma history_step s a s' :
  step s a = Ok s' ->
  exists p d, taken s' = taken s ++ p /\ drained s' = drained s ++ d /\
              (length d <= length p)%nat.
Proof.
  intros H. step_cases H; simpl_state.
  all: try (exists [], []; by rewrite !(right_id_L [] app)).
  - eexists _, _. split_and!; done.
  - eexists _, []. split_and!; [done|by rewrite (right_id_L [] app)|cbn; lia].
Qed.

Lemma history_exec l : forall s s',
  exec s l = Ok s' ->
  exists p d, taken s' = taken s ++ p /\ drained s' = drained s ++ d /\
              (length d <= length p)%nat.
Proof.
  induction l as [|a l IH]; intros s s' H; cbn in H.
  - simplify_eq. exists [], []. by rewrite !(right_id_L [] app).
  - destruct (step s a) as [s1| | | |] eqn:Hs; try discriminate.
    destruct (history_step _ _ _ Hs) as (p1 & d1 & Ht1 & Hd1 & Hl1).
    destruct (IH _ _ H) as (p2 & d2 & Ht2 & Hd2 & Hl2).
    exists (p1 ++ p2), (d1 ++ d2). rewrite Ht2, Hd2, Ht1, Hd1, !length_app.
    rewrite !(assoc_L app). split_and!; [done..|lia].
Qed.

(** With the counter at 0 no worker holds a job. *)
Lemma running_nil_at_zero s :
  counter_inv s -> jobsLeft s = 0 ->
  _queue s = [] /\ flat_map running (pcs s) = [].
Proof.
  intros (Hsum & _ & Hwf) Hz.
  pose proof (owed_total_nonneg _ Hwf) as Hge.
  assert (owed_total (pcs s) = 0) as Howed by lia.
  split; [destruct (_queue s); [done|cbn [length] in Hsum; lia]|].
  assert (forall t p, pcs s !! t = Some p -> running p = []) as Hrun.
  { intros t p Hp. pose proof (owed_total_zero _ _ _ Hwf Howed Hp) as H0.
    by destruct p. }
  revert Hrun. generalize (pcs s). intros l. induction l as [|p l IH]; intros Hrun.
  - done.
  - cbn. rewrite (Hrun 0%nat p eq_refl). cbn. apply IH.
    intros t q Hq. by apply (Hrun (S t)).
Qed.

End Counts.

(** ** The cancellation test *)

Section TestSuite.

Implicit Types (s : State Z) (jobs : list JobData).

(** *** Arithmetic of [int] *)

Lemma in_int_spec z : in_int z = true <-> INT_MIN <= z <= INT_MAX.
Proof. unfold in_int. rewrite andb_true_iff, !Z.leb_le. done. Qed.

Lemma to_int_in_int z : in_int (to_int z) = true.
Proof.
  apply in_int_spec. unfold to_int, INT_MIN, INT_MAX.
  pose proof (Z.mod_pos_bound (z - -2147483648) 4294967296). lia.
Qed.

Lemma to_int_id z : in_int z = true -> to_int z = z.
Proof.
  intros H. apply in_int_spec in H. unfold to_int, INT_MIN, INT_MAX in *.
  rewrite Z.mod_small; lia.
Qed.

Lemma to_int_plus a b : to_int (to_int a + b) = to_int (a + b).
Proof.
  unfold to_int, INT_MIN. f_equal.
  replace ((a - -2147483648) mod 4294967296 + -2147483648 + b - -2147483648)
    with ((a - -2147483648) mod 4294967296 + b) by lia.
  rewrite Zplus_mod_idemp_l. f_equal. lia.
Qed.

Lemma to_int_period z : to_int (z + 4294967296) = to_int z.
Proof.
  unfold to_int. f_equal.
  replace (z + 4294967296 - INT_MIN) with (z - INT_MIN + 1 * 4294967296) by lia.
  by rewrite Z_mod_plus_full.
Qed.

(** *** The total of the jobs that ran *)

Lemma replay_Job_calls (js : list (Job Z)) : forall jobs e,
  map body js = map Job_call jobs ->
  replay js e =
  Some (fold_left (fun total job => to_int (total + summand job)) jobs e).
Proof.
  induction js as [|j js IH]; intros [|d jobs] e H; simplify_eq/=; [done|].
  match goal with H : body j = _ |- _ => rewrite H end. cbn. by apply IH.
Qed.

Lemma sum_of_summands_app jobs1 jobs2 :
  sum_of_summands (jobs1 ++ jobs2) = sum_of_summands jobs1 + sum_of_summands jobs2.
Proof.
  unfold sum_of_summands. induction jobs1 as [|d jobs1 IH]; cbn; [done|].
  rewrite IH. lia.
Qed.

Lemma sum_of_summands_Permutation jobs jobs' :
  jobs ≡ₚ jobs' -> sum_of_summands jobs = sum_of_summands jobs'.
Proof. unfold sum_of_summands. induction 1; cbn; lia. Qed.

(** The additions of the jobs wrap around one by one; the result is the
    sum of the summands, converted once. *)
Lemma fold_adder jobs : forall e,
  to_int e = e ->
  fold_left (fun total job => to_int (total + summand job)) jobs e =
  to_int (e + sum_of_summands jobs).
Proof.
  induction jobs as [|d jobs IH]; intros e He.
  - cbn. by rewrite Z.add_0_r.
  - change (sum_of_summands (d :: jobs)) with (summand d + sum_of_summands jobs).
    cbn [fold_left]. rewrite IH by (apply to_int_id, to_int_in_int).
    rewrite to_int_plus. f_equal. lia.
Qed.

(** *** The total the test expects *)

Lemma accumulate_stuck (jobs : list JobData) (o : Expected) :
  o <> match o with Returns _ => o | _ => Returns 0 end ->
  fold_left (fun total job =>
               match total with
               | Returns t => plus_int t (summand job)
               | o => o
               end) jobs o = o.
Proof. intros Ho. induction jobs as [|d jobs IH]; [done|]. by destruct o. Qed.

Lemma accumulate_Returns jobs : forall e v,
  fold_left (fun total job =>
               match total with
               | Returns t => plus_int t (summand job)
               | o => o
               end) jobs (Returns e) = Returns v ->
  v = e + sum_of_summands jobs /\ (in_int e = true -> in_int v = true).
Proof.
  induction jobs as [|d jobs IH]; intros e v H; cbn in H.
  - injection H as <-. cbn. split; [lia|done].
  - change (sum_of_summands (d :: jobs)) with (summand d + sum_of_summands jobs).
    unfold plus_int in H. destruct (in_int (e + summand d)) eqn:Hin.
    + apply IH in H as [-> Hv]. split; [lia|auto].
    + rewrite accumulate_stuck in H by done. done.
Qed.

Lemma accumulate_not_QFatal jobs : forall o,
  o <> QFatal ->
  fold_left (fun total job =>
               match total with
               | Returns t => plus_int t (summand job)
               | o => o
               end) jobs o <> QFatal.
Proof.
  induction jobs as [|d jobs IH]; intros o Ho; [done|]. cbn. apply IH.
  destruct o; try done. unfold plus_int. by case_match.
Qed.

Lemma expectedTotal_range_Returns jobs v :
  expectedTotal_range jobs = Returns v ->
  v = sum_of_summands jobs /\ in_int v = true.
Proof.
  intros H. apply accumulate_Returns in H as [-> Hv]. split; [lia|by apply Hv].
Qed.

(** The cast of a count that fits leaves it as it is. *)
Lemma to_int_count (C : nat) jobs :
  JobDataSet_wf jobs -> (C <= length jobs)%nat ->
  to_int (Z.of_N (N.of_nat C)) = Z.of_nat C.
Proof.
  intros [Hlen _] HC. rewrite nat_N_Z. apply to_int_id, in_int_spec.
  unfold INT_MIN, INT_MAX in *. lia.
Qed.

Lemma expectedTotal_in_range jobs (C : nat) :
  JobDataSet_wf jobs -> (C <= length jobs)%nat ->
  expectedTotal jobs (N.of_nat C) = expectedTotal_range (take (length jobs - C) jobs).
Proof.
  intros Hwf HC. unfold expectedTotal. rewrite (to_int_count _ _ Hwf HC).
  case_match; bool_hyps; [lia|]. case_match; bool_hyps; [lia|].
  f_equal. f_equal. lia.
Qed.

(** C8: a call of [cancelPending] that has returned [C] has
    [C <= ] the number of jobs emplaced so far, which is at most the
    number of [enqueue] calls.  In the setting of the test
    [cancelPending1UserThread] (the jobs of the data set were emplaced in
    its order, nothing was drained before and nothing is emplaced after
    the swap of line 58, and the run goes on until the counter is 0):
    the swap takes [C] jobs, [C] is at most the size of the data set,
    the drained jobs are the last [C] emplaced, the jobs that ran are
    the others, and the total is the sum of the first [size - C]
    summands as the [std::atomic<int>] holds it, that is converted to
    [int]: the sum itself when it is a value of [int].  The value the
    test compares it with, [expectedTotal(jobs, C)], does not end in
    [qFatal], and whenever it returns (no partial sum of its
    [std::accumulate] overflows) it returns that total. *)
Theorem cancelPending_count_and_expected_total n m s :
  reachable n m 0 s ->
  (forall t C, pcs s !! t = Some (Idle (Some C)) ->
     (C <= length (appended s))%nat /\ (length (appended s) <= tickets s)%nat) /\
  (forall t s2 l s3 jobs,
     pcs s !! t = Some Can58 -> step s (Run t) = Ok s2 -> exec s2 l = Ok s3 ->
     drained s = [] -> appended s3 = appended s ->
     JobDataSet_wf jobs ->
     map body (appended s3) = map Job_call jobs ->
     jobsLeft s3 = 0 ->
     pcs s2 !! t = Some (Can61 (_queue s)) /\
     (length (_queue s) <= length jobs)%nat /\
     drained s3 = drop (length jobs - length (_queue s)) (appended s3) /\
     executed s3 ≡ₚ take (length jobs - length (_queue s)) (appended s3) /\
     env s3 = to_int (sum_of_summands
                        (take (length jobs - length (_queue s)) jobs)) /\
     expectedTotal jobs (N.of_nat (length (_queue s))) <> QFatal /\
     (forall total,
        expectedTotal jobs (N.of_nat (length (_queue s))) = Returns total ->
        env s3 = total) /\
     (in_int (sum_of_summands
                (take (length jobs - length (_queue s)) jobs)) = true ->
      env s3 = sum_of_summands
                 (take (length jobs - length (_queue s)) jobs))).
Proof.
  intros Hr. pose proof (reachable_Inv _ _ _ _ Hr) as Hinv. split.
  { intros t C Hpc. pose proof (reachable_count _ _ _ _ Hr _ _ Hpc) as Hc.
    cbn in Hc. pose proof (drained_le_appended _ (inv_ledger _ _ _ Hinv)).
    pose proof (appended_le_tickets _ (inv_ledger _ _ _ Hinv)). lia. }
  intros t s2 l s3 jobs Hpc Hstep Hexec Hd Happ Hwf Hjobs Hz.
  pose proof (reachable_exec _ _ _ _ _ _ (reachable_step _ _ _ _ _ _ Hr Hstep) Hexec)
    as Hr3.
  pose proof (reachable_Inv _ _ _ _ Hr3) as Hinv3.
  destruct (inv_ledger _ _ _ Hinv) as (Hfifo & _).
  destruct (inv_ledger _ _ _ Hinv3) as (Hfifo3 & Hperm3 & _).
  destruct (history_exec _ _ _ Hexec) as (p & d & Ht3 & Hd3 & Hlen).
  destruct (running_nil_at_zero _ (inv_counter _ _ _ Hinv3) Hz) as [Hq3 Hrun3].
  assert (taken s2 = taken s ++ _queue s /\ drained s2 = _queue s /\
          pcs s2 !! t = Some (Can61 (_queue s))) as (Ht2 & Hd2 & Hpc2).
  { pose proof Hstep as H. thread_cases H Hpc. rewrite Hd.
    split_and!; try done. by eapply lookup_goto_eq. }
  (* nothing left the queue after the drain *)
  assert (p = []) as ->.
  { rewrite Hfifo3, Ht3, Ht2, Hq3, Hfifo, !(right_id_L [] app) in Happ.
    rewrite <- (right_id_L [] app (taken s ++ _queue s)) in Happ at 2.
    by apply (inj (app _)) in Happ. }
  destruct d; [|cbn in Hlen; lia].
  rewrite !(right_id_L [] app) in *.
  assert (length (appended s3) = length jobs) as Hlenj
    by (rewrite <- (length_map body), Hjobs; apply length_map).
  assert (length (appended s3) = (length (taken s) + length (_queue s))%nat)
    as Hsplit by (rewrite Happ, Hfifo; apply length_app).
  assert ((length jobs - length (_queue s))%nat = length (taken s)) as Hk by lia.
  assert (env s3 = to_int (sum_of_summands (take (length (taken s)) jobs)))
    as Htotal.
  { assert (executed s3 ≡ₚ taken s) as Hex.
    { rewrite Ht3, Ht2, Hrun3, Hd3, Hd2 in Hperm3. cbn [app] in Hperm3.
      symmetry. by apply (inj (.++ _queue s)) in Hperm3. }
    assert (map body (taken s) = map Job_call (take (length (taken s)) jobs))
      as Hbodies.
    { assert (taken s = take (length (taken s)) (appended s3)) as Htk
        by (by rewrite Happ, Hfifo, take_app_length).
      rewrite Htk at 1.
      change (body <$> take (length (taken s)) (appended s3) =
              Job_call <$> take (length (taken s)) jobs).
      rewrite !fmap_take. f_equal. exact Hjobs. }
    apply (Permutation_map body) in Hex. rewrite Hbodies in Hex.
    apply Permutation_map_inv in Hex as (jobs' & Hjobs' & Hperm').
    pose proof (inv_env _ _ _ Hinv3) as Henv. unfold env_inv in Henv.
    rewrite (replay_Job_calls _ _ _ Hjobs') in Henv. injection Henv as <-.
    rewrite fold_adder by done. cbn [Z.add]. f_equal.
    symmetry. by apply sum_of_summands_Permutation. }
  assert (length (_queue s) <= length jobs)%nat as HC by lia.
  rewrite (expectedTotal_in_range _ _ Hwf HC), Hk. split_and!.
  - done.
  - lia.
  - rewrite Hd3, Hd2, Happ, Hfifo. by rewrite drop_app_length.
  - rewrite Happ, Hfifo, take_app_length.
    rewrite Ht3, Ht2, Hrun3, Hd3, Hd2 in Hperm3. cbn [app] in Hperm3.
    symmetry. by apply (inj (.++ _queue s)) in Hperm3.
  - done.
  - apply accumulate_not_QFatal. done.
  - intros total Hret. apply expectedTotal_range_Returns in Hret as [-> Hin].
    rewrite Htotal. by apply to_int_id.
  - intros Hin. rewrite Htotal. by apply to_int_id.
Qed.

End TestSuite.

(** ** The lock discipline *)

Section LockDiscipline.

Context {Env : Type}.

Implicit Types (s : State Env) (a : Action Env) (t w : nat) (job : Job Env).

Lemma holders_disjoint (p : pc Env) :
  holds_queueMutex p = true -> holds_jobsLeftMutex p = true -> False.
Proof. by destruct p. Qed.

(** X1: the two mutexes exclude.  On every reachable state a thread is
    inside a critical section of [queueMutex] (of [jobsLeftMutex]) exactly
    when it is the owner of that mutex; two threads inside critical
    sections of the same mutex are the same thread; and no thread holds
    both mutexes at once: the class never nests its locks. *)
Theorem mutexes_are_exclusive n m e0 s :
  reachable n m e0 s ->
  (forall t p, pcs s !! t = Some p ->
     (holds_queueMutex p = true <-> queueMutex s = Some t) /\
     (holds_jobsLeftMutex p = true <-> jobsLeftMutex s = Some t)) /\
  (forall t1 t2 p1 p2,
     pcs s !! t1 = Some p1 -> pcs s !! t2 = Some p2 ->
     (holds_queueMutex p1 = true -> holds_queueMutex p2 = true -> t1 = t2) /\
     (holds_jobsLeftMutex p1 = true -> holds_jobsLeftMutex p2 = true -> t1 = t2)) /\
  (forall t, queueMutex s = Some t -> jobsLeftMutex s <> Some t).
Proof.
  intros Hr.
  destruct (reachable_Inv _ _ _ _ Hr) as [(HQ & HJ & HQ' & HJ') _ _ _ _ _ _ _].
  split_and!.
  - intros t p Hpc. split; (split; [by eauto|]); intros Hm.
    + destruct (HQ' _ Hm) as (p' & Hp' & Hh). congruence.
    + destruct (HJ' _ Hm) as (p' & Hp' & Hh). congruence.
  - intros t1 t2 p1 p2 H1 H2. split; intros Hh1 Hh2.
    + pose proof (HQ _ _ H1 Hh1). pose proof (HQ _ _ H2 Hh2). congruence.
    + pose proof (HJ _ _ H1 Hh1). pose proof (HJ _ _ H2 Hh2). congruence.
  - intros t Hq Hj.
    destruct (HQ' _ Hq) as (p & Hp & Hh). destruct (HJ' _ Hj) as (p' & Hp' & Hh').
    simplify_eq. by eapply holders_disjoint.
Qed.

(** X3: while [jobsLeft] is below [INT_MAX] no step of any thread has
    undefined behaviour: the increment of line 38 does not overflow, and
    [front()] and [pop()] of lines 108-109 never meet an empty queue. *)
Theorem no_undefined_behaviour_below_INT_MAX n m e0 s a :
  reachable n m e0 s -> jobsLeft s < INT_MAX -> step s a <> Undefined.
Proof.
  intros Hr Hlt H.
  destruct (undefined_only_overflow _ _ _ _ _ Hr H) as (? & ? & _ & _ & ?). lia.
Qed.

End LockDiscipline.

Section ShortSections.

Context {Env : Type}.

Implicit Types (s : State Env) (a : Action Env) (t w : nat) (job : Job Env).

Lemma run_Next108 s t :
  pcs s !! t = Some Next108 -> _queue s <> [] ->
  exists s', exec s [Run t] = Ok s' /\ queueMutex s' = None.
Proof.
  intros Hpc Hne. destruct (_queue s) as [|job rest] eqn:Hq; [done|].
  eexists. split; [exec_step Hpc ltac:(rewrite Hq); reflexivity|done].
Qed.

Lemma run_Next104 s t :
  pcs s !! t = Some Next104 -> bailout s = true \/ _queue s <> [] ->
  exists k s', (1 <= k <= 2)%nat /\ exec s (replicate k (Run t)) = Ok s' /\
               queueMutex s' = None.
Proof.
  intros Hpc Hor. destruct (bailout s) eqn:Hb.
  - exists 1%nat. eexists. split; [lia|]. split; [|shelve].
    cbn [replicate]. exec_step Hpc ltac:(rewrite Hb). reflexivity.
    Unshelve. done.
  - destruct Hor as [|Hne]; [done|].
    destruct (run_Next108 (goto t Next108 s) t) as (s' & Hrun & Hm).
    { by eapply lookup_goto_eq. }
    { done. }
    exists 2%nat, s'. split; [lia|]. split; [|done].
    cbn [replicate]. exec_step Hpc ltac:(rewrite Hb). exact Hrun.
Qed.

Lemma run_Next100 s t :
  pcs s !! t = Some Next100 ->
  exists k s', (1 <= k <= 3)%nat /\ exec s (replicate k (Run t)) = Ok s' /\
               queueMutex s' = None.
Proof.
  intros Hpc.
  destruct ((0 <? length (_queue s))%nat || bailout s) eqn:Hpred.
  - destruct (run_Next104 (goto t Next104 s) t) as (k & s' & Hk & Hrun & Hm).
    { by eapply lookup_goto_eq. }
    { simpl_state. apply orb_true_iff in Hpred as [Hlen|Hb]; [right|by left].
      apply Nat.ltb_lt in Hlen. destruct (_queue s); [cbn in Hlen; lia|done]. }
    exists (S k), s'. split; [lia|]. split; [|done].
    cbn [replicate]. exec_step Hpc ltac:(rewrite Hpred). exact Hrun.
  - exists 1%nat. eexists. split; [lia|]. split; [|shelve].
    cbn [replicate]. exec_step Hpc ltac:(rewrite Hpred). reflexivity.
    Unshelve. done.
Qed.

Lemma run_Next96 s t :
  pcs s !! t = Some Next96 ->
  exists k s', (1 <= k <= 4)%nat /\ exec s (replicate k (Run t)) = Ok s' /\
               queueMutex s' = None.
Proof.
  intros Hpc. destruct (bailout s) eqn:Hb.
  - exists 1%nat. eexists. split; [lia|]. split; [|shelve].
    cbn [replicate]. exec_step Hpc ltac:(rewrite Hb). reflexivity.
    Unshelve. done.
  - destruct (run_Next100 (goto t Next100 s) t) as (k & s' & Hk & Hrun & Hm).
    { by eapply lookup_goto_eq. }
    exists (S k), s'. split; [lia|]. split; [|done].
    cbn [replicate]. exec_step Hpc ltac:(rewrite Hb). exact Hrun.
Qed.

(** X2: no lock is held across a wait or across the call of a job.  The
    owner of [queueMutex] releases it within at most four steps of its
    own, and the owner of [jobsLeftMutex] within at most two (the
    increment of line 38 not overflowing); none of these steps needs
    another thread to move. *)
Theorem critical_sections_are_short n m e0 s t :
  reachable n m e0 s ->
  (queueMutex s = Some t ->
     exists k s', (1 <= k <= 4)%nat /\ exec s (replicate k (Run t)) = Ok s' /\
                  queueMutex s' = None) /\
  (jobsLeftMutex s = Some t -> jobsLeft s <> INT_MAX ->
     exists k s', (1 <= k <= 2)%nat /\ exec s (replicate k (Run t)) = Ok s' /\
                  jobsLeftMutex s' = None).
Proof.
  intros Hr.
  destruct (reachable_Inv _ _ _ _ Hr)
    as [(_ & _ & HQ' & HJ') (H104 & H108) (Hsum & Hmax & Hwf) _ _ _ _ _].
  pose proof (owed_total_nonneg _ Hwf) as Hge.
  split.
  - intros Hm. destruct (HQ' _ Hm) as (p & Hpc & Hh).
    destruct p; try discriminate Hh.
    + exists 1%nat. eexists. split; [lia|]. split; [|shelve].
      cbn [replicate]. exec_step Hpc idtac. reflexivity. Unshelve. done.
    + exists 1%nat. eexists. split; [lia|]. split; [|shelve].
      cbn [replicate]. exec_step Hpc idtac. reflexivity. Unshelve. done.
    + by apply run_Next96.
    + destruct (run_Next100 s t Hpc) as (k & s' & ? & ? & ?).
      exists k, s'. split_and!; [lia..|done|done].
    + destruct (run_Next104 s t Hpc (H104 _ Hpc)) as (k & s' & ? & ? & ?).
      exists k, s'. split_and!; [lia..|done|done].
    + destruct (run_Next108 s t Hpc (proj2 (H108 _ Hpc))) as (s' & ? & ?).
      exists 1%nat, s'. split_and!; [lia..|done|done].
    + exists 1%nat. destruct (bailout s) eqn:Hb; eexists; (split; [lia|]);
        (split; [cbn [replicate]; exec_step Hpc ltac:(rewrite Hb); reflexivity|done]).
  - intros Hm Hne. destruct (HJ' _ Hm) as (p & Hpc & Hh).
    pose proof (proj1 (Forall_lookup _ _) Hwf _ _ Hpc) as Hp.
    pose proof (owed_total_lookup _ _ _ Hwf Hpc) as Hle.
    destruct p; try discriminate Hh; cbn [pc_wf owed] in *.
    + apply Z.eqb_neq in Hne. exists 1%nat. eexists. split; [lia|].
      split; [cbn [replicate]; exec_step Hpc ltac:(rewrite Hne); reflexivity|done].
    + destruct (jobsLeft s >? 0) eqn:Hgt.
      * exists 2%nat. apply Z.gtb_lt in Hgt.
        assert ((jobsLeft s >? 0) = true) as Hgt' by (by apply Z.gtb_lt).
        assert ((jobsLeft s =? 0) = false) as Hz by (apply Z.eqb_neq; lia).
        eexists. split; [lia|].
        split; [cbn [replicate]; exec_step Hpc ltac:(rewrite Hgt');
                exec_step Hpc ltac:(rewrite Hz); reflexivity|done].
      * exists 1%nat. eexists. split; [lia|].
        split; [cbn [replicate]; exec_step Hpc ltac:(rewrite Hgt); reflexivity|done].
    + exists 1%nat. destruct (jobsLeft s =? 0) eqn:Hz; eexists; (split; [lia|]);
        (split; [cbn [replicate]; exec_step Hpc ltac:(rewrite Hz); reflexivity|done]).
    + assert ((jobsLeft s >=? count) = true) as Hdec by (apply Z.geb_le; lia).
      exists 1%nat. eexists. split; [lia|].
      split; [cbn [replicate]; exec_step Hpc ltac:(rewrite Hdec); reflexivity|done].
Qed.

End ShortSections.

(** ** The queue, the counter and the worker threads *)

Section MoreInvariants.

Context {Env : Type}.

Implicit Types (s : State Env) (a : Action Env) (t w : nat) (job : Job Env).

(** X4: the queue is first-in first-out.  The jobs emplaced so far are,
    in this order, the jobs that left the queue followed by the jobs that
    are in it; if [cancelPending] drained nothing, the jobs that are
    being run or were run are the first ones emplaced. *)
Theorem queue_is_first_in_first_out n m e0 s :
  reachable n m e0 s ->
  appended s = taken s ++ _queue s /\
  (drained s = [] ->
     flat_map running (pcs s) ++ executed s
     ≡ₚ take (length (appended s) - length (_queue s)) (appended s)).
Proof.
  intros Hr.
  destruct (reachable_Inv _ _ _ _ Hr) as [_ _ _ (Hfifo & Hperm & _) _ _ _ _].
  split; [done|]. intros Hd. rewrite Hd, (right_id_L [] app) in Hperm.
  rewrite <- Hperm, Hfifo, length_app.
  replace (length (taken s) + length (_queue s) - length (_queue s))%nat
    with (length (taken s)) by lia.
  by rewrite take_app_length.
Qed.

Lemma owed_total_all_zero (l : list (pc Env)) :
  (forall t p, l !! t = Some p -> owed p = 0) -> owed_total l = 0.
Proof.
  induction l as [|p l IH]; intros H; [done|].
  change (owed_total (p :: l)) with (owed p + owed_total l).
  rewrite (H 0%nat p eq_refl), IH; [done|].
  intros t q Hq. by apply (H (S t)).
Qed.

(** X5: [jobsLeft] is the length of the queue plus what the threads owe
    (1 for an [enqueue] between lines 38 and 43, 1 for a job taken and
    not yet finalized, the size of a batch swapped out and not yet
    finalized); so it is 0 exactly when the queue is empty and no thread
    owes anything. *)
Theorem jobsLeft_is_zero_iff_nothing_is_left n m e0 s :
  reachable n m e0 s ->
  jobsLeft s = Z.of_nat (length (_queue s)) + owed_total (pcs s) /\
  (jobsLeft s = 0 <->
   _queue s = [] /\ forall t p, pcs s !! t = Some p -> owed p = 0).
Proof.
  intros Hr.
  destruct (reachable_Inv _ _ _ _ Hr) as [_ _ (Hsum & Hmax & Hwf) _ _ _ _ _].
  pose proof (owed_total_nonneg _ Hwf) as Hge.
  split; [done|]. split.
  - intros Hz. split.
    + destruct (_queue s); [done|]. cbn [length] in Hsum. lia.
    + intros t p Hp. eapply owed_total_zero; [done| |done]. lia.
  - intros [Hq Hall]. rewrite Hsum, Hq, (owed_total_all_zero _ Hall). done.
Qed.

Lemma length_pcs_step s a s' :
  step s a = Ok s' -> length (pcs s') = length (pcs s).
Proof.
  intros H. step_cases H; simpl_state; by rewrite ?length_insert, ?length_map.
Qed.

Lemma length_pcs_exec l : forall s s',
  exec s l = Ok s' -> length (pcs s') = length (pcs s).
Proof.
  induction l as [|a l IH]; intros s s' H; cbn in H; [by simplify_eq|].
  destruct (step s a) as [s1| | | |] eqn:Hs; try discriminate.
  rewrite (IH _ _ H). by eapply length_pcs_step.
Qed.

(** X8: the constructor's threads are the workers.  There are always
    [threadCount] thread objects; the threads [0 .. threadCount-1], and
    only they, are in the worker loop; and as long as [bailout] is not
    set none of them has left it. *)
Theorem workers_stay_until_bailout n m e0 s :
  reachable n m e0 s ->
  length (threads s) = n /\ length (pcs s) = (n + m)%nat /\
  (forall t p, pcs s !! t = Some p -> (worker_pc p = true <-> (t < n)%nat)) /\
  (bailout s = false ->
   forall t, (t < n)%nat ->
     exists p, pcs s !! t = Some p /\ worker_pc p = true /\ p <> Exited).
Proof.
  intros Hr.
  destruct (reachable_Inv _ _ _ _ Hr)
    as [_ _ _ _ _ _ (Hth & Hlen & Hrole) (_ & _ & Hex & _)].
  assert (length (pcs s) = (n + m)%nat) as Hpcs.
  { destruct Hr as [l Hl]. rewrite (length_pcs_exec _ _ _ Hl). cbn.
    by rewrite length_app, !length_replicate. }
  split_and!; try done.
  - intros t p Hp. rewrite (Hrole _ _ Hp). apply Nat.ltb_lt.
  - intros Hb t Ht.
    destruct (lookup_lt_is_Some_2 (pcs s) t) as [p Hp]; [lia|].
    exists p. split_and!; [done| |].
    + rewrite (Hrole _ _ Hp). by apply Nat.ltb_lt.
    + intros ->. pose proof (Hex _ Hp). congruence.
Qed.

End MoreInvariants.

(** ** Calls of enqueue, and the totals of the tests *)

Section Tickets.

Context {Env : Type}.

Implicit Types (s : State Env) (a : Action Env) (t w : nat) (job : Job Env).

Lemma ticket_step s a s' : ticket_inv s -> step s a = Ok s' -> ticket_inv s'.
Proof.
  unfold ticket_inv. intros Ht H. step_cases H.
  all: try match goal with k : caller |- _ => destruct k end.
  all: simpl_state; cbn [finalizeJobs_return].
  all: try match goal with
         | Ht : pcs _ !! ?t = Some Enq46, Hw : pcs _ !! ?w = Some Next100_blocked |- _ =>
             rewrite !(flat_map_insert_nil _ (<[w := _]> _) t Enq46)
               by (first [by eapply signal_lookup | done]);
             rewrite !(flat_map_insert_nil _ _ w Next100_blocked) by done
         end.
  all: try match goal with
         | Hpc : pcs _ !! ?t = Some ?p |- context [flat_map _ (<[?t := ?q]> _)] =>
             destruct (flat_map_goto submitting _ t p q Hpc) as (Sr & HS & HS' & HSm);
             pose proof (HSm _ (submitting_wake wake_worker (or_introl eq_refl))) as HSw;
             pose proof (HSm _ (submitting_wake wake_waiter (or_intror eq_refl))) as HSa;
             clear HSm;
             rewrite ?HS', ?HSw, ?HSa; rewrite HS in Ht;
             cbn [submitting] in *
         end.
  all: rewrite ?length_app in *; cbn [length] in *; lia.
Qed.

Lemma ticket_exec l : forall s s', ticket_inv s -> exec s l = Ok s' -> ticket_inv s'.
Proof.
  induction l as [|a l IH]; intros s s' Hc H; cbn in H; [by simplify_eq|].
  destruct (step s a) as [s1| | | |] eqn:Hs; try discriminate.
  eapply IH; [|eassumption]. by eapply ticket_step.
Qed.

Lemma flat_map_nil_all {A} (f : pc Env -> list A) (l : list (pc Env)) :
  (forall t p, l !! t = Some p -> f p = []) -> flat_map f l = [].
Proof.
  induction l as [|p l IH]; intros H; [done|]. cbn.
  rewrite (H 0%nat p eq_refl), IH; [done|]. intros t q Hq. by apply (H (S t)).
Qed.

(** X11: [enqueue] loses no job and emplaces none twice.  The number of
    calls of [enqueue] is the number of jobs emplaced plus the number of
    calls still under way; when no call is under way, the jobs emplaced
    are, up to order, one per call. *)
Theorem enqueue_loses_no_job n m e0 s :
  reachable n m e0 s ->
  tickets s = (length (appended s) + length (flat_map submitting (pcs s)))%nat /\
  ((forall t p, pcs s !! t = Some p -> submitting p = []) ->
   map ticket (appended s) ≡ₚ seq 0 (tickets s)).
Proof.
  intros Hr.
  assert (ticket_inv s) as Ht.
  { destruct Hr as [l Hl]. eapply ticket_exec; [|exact Hl].
    unfold ticket_inv. cbn. by rewrite init_flat_map. }
  split; [done|]. intros Hnone.
  destruct (reachable_Inv _ _ _ _ Hr) as [_ _ _ (_ & _ & Hnd & Hlt) _ _ _ _].
  unfold ticket_inv in Ht.
  rewrite (flat_map_nil_all _ _ Hnone), ?(right_id_L [] app) in *.
  cbn [length] in Ht.
  apply NoDup_Permutation_bis.
  - by apply NoDup_ListNoDup.
  - rewrite length_seq, length_map. lia.
  - intros k Hk. apply in_map_iff in Hk as (j & <- & Hj). apply in_seq.
    apply list_elem_of_In in Hj. apply (proj1 (Forall_forall _ _) Hlt) in Hj. lia.
Qed.

Lemma executed_empty_exec l : forall s s',
  Inv 0 (env s) s -> executed s = [] -> exec s l = Ok s' -> executed s' = [].
Proof.
  induction l as [|a l IH]; intros s s' Hinv He H; cbn in H; [by simplify_eq|].
  destruct (step s a) as [s1| | | |] eqn:Hs; try discriminate.
  assert (executed s1 = [] /\ env s1 = env s) as [He1 Henv].
  { destruct (inv_role _ _ _ Hinv) as (_ & _ & Hrole).
    pose proof Hs as H'. step_cases H'; simpl_state; try done.
    match goal with Hpc : pcs s !! _ = Some (Next112 _) |- _ =>
      pose proof (Hrole _ _ Hpc) as Hw; discriminate Hw end. }
  eapply (IH s1); [|done..]. rewrite Henv. by eapply Inv_step.
Qed.

(** X7: a pool constructed with [threadCount = 0] never calls a job: no
    job is executed and the environment stays as it was; every job that
    left the queue was taken by [cancelPending], and when [jobsLeft] is 0
    every job emplaced was. *)
Theorem pool_without_workers_runs_nothing m e0 s :
  reachable 0 m e0 s ->
  executed s = [] /\ env s = e0 /\
  taken s ≡ₚ drained s /\
  (jobsLeft s = 0 -> appended s ≡ₚ drained s).
Proof.
  intros Hr. pose proof (reachable_Inv _ _ _ _ Hr) as Hinv.
  assert (executed s = []) as He.
  { destruct Hr as [l Hl].
    eapply (executed_empty_exec l (init 0 m e0)); [apply Inv_init|done..]. }
  assert (flat_map running (pcs s) = []) as Hrun.
  { apply flat_map_nil_all. intros t p Hp.
    destruct (inv_role _ _ _ Hinv) as (_ & _ & Hrole).
    pose proof (Hrole _ _ Hp) as Hw. by destruct p. }
  destruct (inv_ledger _ _ _ Hinv) as (Hfifo & Hperm & _).
  rewrite Hrun, He in Hperm. cbn [app] in Hperm.
  split_and!; [done| |done|].
  - pose proof (inv_env _ _ _ Hinv) as Henv. unfold env_inv in Henv.
    rewrite He in Henv. cbn in Henv. congruence.
  - intros Hz.
    destruct (running_nil_at_zero _ (inv_counter _ _ _ Hinv) Hz) as [Hq _].
    by rewrite Hfifo, Hq, (right_id_L [] app).
Qed.

End Tickets.

Section Totals.

Implicit Types (s : State Z) (jobs : list JobData).

Lemma sum_of_summands_concat (sets : list (list JobData)) :
  sum_of_summands (concat sets) =
  foldr (fun dataSet total => sum_of_summands dataSet + total) 0 sets.
Proof.
  induction sets as [|d sets IH]; [done|].
  cbn [concat foldr]. by rewrite sum_of_summands_app, IH.
Qed.

Lemma accumulate_sets_stuck (sets : list (list JobData)) (o : Expected) :
  o <> match o with Returns _ => o | _ => Returns 0 end ->
  fold_left (fun total dataSet =>
               match total with
               | Returns t =>
                   match expectedTotal_range dataSet with
                   | Returns x => plus_int t x
                   | o => o
                   end
               | o => o
               end) sets o = o.
Proof. intros Ho. induction sets as [|d sets IH]; [done|]. by destruct o. Qed.

Lemma accumulate_sets_Returns (sets : list (list JobData)) : forall e v,
  fold_left (fun total dataSet =>
               match total with
               | Returns t =>
                   match expectedTotal_range dataSet with
                   | Returns x => plus_int t x
                   | o => o
                   end
               | o => o
               end) sets (Returns e) = Returns v ->
  v = e + sum_of_summands (concat sets) /\ (in_int e = true -> in_int v = true).
Proof.
  induction sets as [|d sets IH]; intros e v H; cbn [fold_left] in H.
  - injection H as <-. cbn. split; [lia|done].
  - cbn [concat]. rewrite sum_of_summands_app.
    destruct (expectedTotal_range d) as [x| |] eqn:Hd;
      [|by rewrite accumulate_sets_stuck in H..].
    apply expectedTotal_range_Returns in Hd as [-> _].
    unfold plus_int in H. destruct (in_int (e + sum_of_summands d)) eqn:Hin.
    + apply IH in H as [-> Hv]. split; [lia|auto].
    + rewrite accumulate_sets_stuck in H by done. done.
Qed.

Lemma expectedTotal_sets_Returns (sets : list (list JobData)) v :
  expectedTotal_sets sets = Returns v ->
  v = sum_of_summands (concat sets) /\ in_int v = true.
Proof.
  intros H. apply accumulate_sets_Returns in H as [-> Hv].
  split; [lia|by apply Hv].
Qed.

(** X6: the tests [singleUserThread] and [multipleUserThreads].  If the
    jobs emplaced are, up to order, the jobs of the data sets (vectors
    of [int] summands), nothing was cancelled and [jobsLeft] is 0 (where
    [waitAll] returns), then every job emplaced was executed once and
    the total is the sum of all summands as the [std::atomic<int>] holds
    it, that is converted to [int] (the sum itself when it is a value of
    [int]); whenever [expectedTotal(jobs)] returns (no partial sum of
    its [std::accumulate]s overflows), it returns that total. *)
Theorem total_without_cancellation n m s (sets : list (list JobData)) :
  reachable n m 0 s ->
  Forall JobDataSet_wf sets ->
  drained s = [] -> jobsLeft s = 0 ->
  map body (appended s) ≡ₚ map Job_call (concat sets) ->
  executed s ≡ₚ appended s /\
  env s = to_int (sum_of_summands (concat sets)) /\
  (forall total, expectedTotal_sets sets = Returns total -> env s = total) /\
  (in_int (sum_of_summands (concat sets)) = true ->
   env s = sum_of_summands (concat sets)).
Proof.
  intros Hr _ Hd Hz Hjobs. pose proof (reachable_Inv _ _ _ _ Hr) as Hinv.
  destruct (inv_ledger _ _ _ Hinv) as (Hfifo & Hperm & _).
  destruct (running_nil_at_zero _ (inv_counter _ _ _ Hinv) Hz) as [Hq Hrun].
  rewrite Hrun, Hd, (right_id_L [] app) in Hperm. cbn [app] in Hperm.
  rewrite Hq, (right_id_L [] app) in Hfifo.
  assert (executed s ≡ₚ appended s) as Hex by (by rewrite Hfifo).
  assert (env s = to_int (sum_of_summands (concat sets))) as Htotal.
  { pose proof (Permutation_map body Hex) as Hb. rewrite Hjobs in Hb.
    apply Permutation_map_inv in Hb as (jobs' & Hjobs' & Hperm').
    pose proof (inv_env _ _ _ Hinv) as Henv. unfold env_inv in Henv.
    rewrite (replay_Job_calls _ _ _ Hjobs') in Henv. injection Henv as <-.
    rewrite fold_adder by done. cbn [Z.add]. f_equal.
    symmetry. by apply sum_of_summands_Permutation. }
  split_and!; [done..| |].
  - intros total Hret. apply expectedTotal_sets_Returns in Hret as [-> Hin].
    rewrite Htotal. by apply to_int_id.
  - intros Hin. rewrite Htotal. by apply to_int_id.
Qed.

(** X12: [expectedTotal(jobs, canceledCount)] sees [canceledCount] only
    through [static_cast<int>]: it ends in [qFatal] exactly when the
    cast value exceeds the number of jobs, and counts that differ by
    2^32 give the same result, so that a count of 2^32 and more may pass
    for a small one.  For a count that [cancelPending] can return for
    the data set (at most its size), the cast changes nothing: the call
    accumulates the first [size - canceledCount] jobs, with 0 cancelled
    it is [expectedTotal(jobs)], it never ends in [qFatal], and a value
    it returns is the whole sum less the summands of the last
    [canceledCount] jobs. *)
Theorem expectedTotal_of_canceled jobs (canceledCount : N) :
  (expectedTotal jobs canceledCount = QFatal <->
   Z.of_nat (length jobs) < to_int (Z.of_N canceledCount)) /\
  expectedTotal jobs (canceledCount + 4294967296) =
  expectedTotal jobs canceledCount /\
  (JobDataSet_wf jobs -> (canceledCount <= N.of_nat (length jobs))%N ->
   expectedTotal jobs canceledCount =
   expectedTotal_range (take (length jobs - N.to_nat canceledCount) jobs) /\
   expectedTotal jobs 0 = expectedTotal_range jobs /\
   expectedTotal jobs canceledCount <> QFatal /\
   forall total,
     expectedTotal jobs canceledCount = Returns total ->
     in_int total = true /\
     total + sum_of_summands (drop (length jobs - N.to_nat canceledCount) jobs)
     = sum_of_summands jobs).
Proof.
  split_and!.
  - unfold expectedTotal. case_match; bool_hyps; [split; [lia|done]|].
    case_match; bool_hyps; (split; [|lia]); intros Hf; [done|].
    by apply accumulate_not_QFatal in Hf.
  - unfold expectedTotal. rewrite N2Z.inj_add. by rewrite to_int_period.
  - intros Hwf Hle.
    assert (N.to_nat canceledCount <= length jobs)%nat as Hle' by lia.
    pose proof (expectedTotal_in_range jobs _ Hwf Hle') as Hc.
    rewrite N2Nat.id in Hc.
    pose proof (expectedTotal_in_range jobs 0 Hwf ltac:(lia)) as H0.
    rewrite Nat.sub_0_r, firstn_all in H0.
    split_and!; [done|done| |].
    + rewrite Hc. by apply accumulate_not_QFatal.
    + intros total Hret. rewrite Hc in Hret.
      apply expectedTotal_range_Returns in Hret as [-> Hin]. split; [done|].
      by rewrite <- sum_of_summands_app, take_drop.
Qed.

End Totals.

(** ** Wake-ups *)

Section Notice.

Context {Env : Type}.

Implicit Types (s : State Env) (a : Action Env) (t w : nat) (job : Job Env).

Lemma notices_goto (l : list (pc Env)) t p q :
  l !! t = Some p -> (notices p = true -> notices q = true) ->
  (exists t0 p0, l !! t0 = Some p0 /\ notices p0 = true) ->
  exists t0 p0, <[t := q]> l !! t0 = Some p0 /\ notices p0 = true.
Proof.
  intros Hl Hh (t0 & p0 & Hp0 & Hh0). exists t0.
  rewrite (lookup_goto_dec _ _ _ _ _ Hl). case_decide; simplify_eq; eauto.
Qed.

Lemma notices_map (g : pc Env -> pc Env) (l : list (pc Env)) :
  g = wake_worker \/ g = wake_waiter ->
  (exists t0 p0, l !! t0 = Some p0 /\ notices p0 = true) ->
  exists t0 p0, map g l !! t0 = Some p0 /\ notices p0 = true.
Proof.
  intros Hg (t0 & p0 & Hp0 & Hh0). exists t0, (g p0).
  split; [by apply lookup_map_goto|]. destruct Hg as [-> | ->]; by destruct p0.
Qed.

Lemma Join146_goto (l : list (pc Env)) t p q :
  l !! t = Some p -> p <> Join146 ->
  (exists t0, l !! t0 = Some Join146) ->
  exists t0, <[t := q]> l !! t0 = Some Join146.
Proof.
  intros Hl Hp (t0 & Ht0). exists t0.
  rewrite list_lookup_insert_ne; [done|]. intros ->. congruence.
Qed.

Lemma Join146_map (g : pc Env -> pc Env) (l : list (pc Env)) :
  g = wake_worker \/ g = wake_waiter ->
  (exists t0, l !! t0 = Some Join146) ->
  exists t0, map g l !! t0 = Some Join146.
Proof.
  intros Hg (t0 & Ht0). exists t0.
  apply (lookup_map_goto g) in Ht0. by destruct Hg as [-> | ->].
Qed.

Lemma nobody_blocked (l : list (pc Env)) w :
  existsb is_blocked_worker l = false -> l !! w = Some Next100_blocked -> False.
Proof.
  intros Hno Hw.
  assert (existsb is_blocked_worker l = true) as Hyes; [|congruence].
  apply existsb_exists. exists Next100_blocked. split; [|done].
  apply list_elem_of_In. by eapply list_elem_of_lookup_2.
Qed.

Lemma notice_step s a s' :
  worker_inv s -> notice_inv s -> step s a = Ok s' -> notice_inv s'.
Proof.
  intros (_ & H108) (Hwork & Hbail) H. step_cases H.
  all: try match goal with k : caller |- _ => destruct k end.
  all: unfold notice_inv; simpl_state; cbn [finalizeJobs_return]; bool_hyps.
  all: split; [intros [w0 Hl] Hq Hb|intros [w0 Hl] Hb]; lookup_cases_at Hl.
  all: try congruence.
  all: try (eexists _, _; split; [by eapply lookup_goto_eq|done]).
  all: try (eexists; by eapply lookup_goto_eq).
  all: try match goal with
         | H : existsb is_blocked_worker _ = false |- _ =>
             exfalso; by eapply nobody_blocked
         end.
  all: try match goal with
         | |- exists t0, _ !! t0 = Some Join146 =>
             first [ pose proof (Hbail (ex_intro _ w0 Hl) Hb) as Hold
                   | pose proof (Hbail (ex_intro _ w0 Hl) eq_refl) as Hold ];
             repeat first
               [ eapply Join146_goto;
                 [ first [ eassumption
                         | eapply signal_lookup; [eassumption..|done]
                         | eapply lookup_map_goto; eassumption ]
                 | done | ]
               | eapply Join146_map; [by auto|] ];
             exact Hold
         end.
  all: try match goal with
         | |- exists t0 p, _ !! t0 = Some p /\ _ =>
             first [ pose proof (Hwork (ex_intro _ w0 Hl) Hq Hb) as Hold
                   | pose proof (Hwork (ex_intro _ w0 Hl) Hq eq_refl) as Hold ];
             repeat first
               [ eapply notices_goto;
                 [ first [ eassumption
                         | eapply signal_lookup; [eassumption..|done]
                         | eapply lookup_map_goto; eassumption ]
                 | by (cbn; intros; try done) | ]
               | eapply notices_map; [by auto|] ];
             exact Hold
         end.
  - destruct (_queue s); [done|cbn [length] in *; lia].
  - destruct (_queue s); [done|cbn [length] in *; lia].
  - match goal with
    | Ht : pcs s !! ?t = Some Enq46, Hw : pcs s !! ?w = Some Next100_blocked |- _ =>
        exists w, Next100_woken; split; [|done];
        rewrite list_lookup_insert_ne by (intros ->; congruence);
        by eapply lookup_goto_eq
    end.
Qed.

Lemma notice_exec n e0 l : forall s s',
  Inv n e0 s -> notice_inv s -> exec s l = Ok s' -> notice_inv s'.
Proof.
  induction l as [|a l IH]; intros s s' Hinv Hc H; cbn in H; [by simplify_eq|].
  destruct (step s a) as [s1| | | |] eqn:Hs; try discriminate.
  eapply (IH s1); [by eapply Inv_step| |done].
  eapply notice_step; [exact (inv_worker _ _ _ Hinv)|done..].
Qed.

Lemma reachable_notice n m e0 s : reachable n m e0 s -> notice_inv s.
Proof.
  intros [l H]. eapply notice_exec; [apply Inv_init| |exact H].
  split; intros [w Hw]; apply init_lookup in Hw as [[? _]|[? _]]; discriminate.
Qed.

(** X10: no wake-up is lost.  On a reachable state of a pool with at
    least one worker, if the queue is not empty and [bailout] is not set,
    an [enqueue] is about to [notify_one] (line 46) or some worker is
    awake and will test the queue before it waits; and if [bailout] is
    set while a worker still waits, a [joinAll] is about to [notify_all]
    (line 146). *)
Theorem pending_work_is_noticed n m e0 s :
  reachable n m e0 s ->
  (_queue s <> [] -> bailout s = false -> (1 <= n)%nat ->
   (exists t, pcs s !! t = Some Enq46) \/
   (exists w p, (w < n)%nat /\ pcs s !! w = Some p /\ awake_worker p = true)) /\
  ((exists w, pcs s !! w = Some Next100_blocked) -> bailout s = true ->
   exists t, pcs s !! t = Some Join146).
Proof.
  intros Hr. pose proof (reachable_Inv _ _ _ _ Hr) as Hinv.
  destruct (reachable_notice _ _ _ _ Hr) as [Hwork Hbail].
  destruct (inv_role _ _ _ Hinv) as (Hth & Hlen & Hrole).
  destruct (inv_join _ _ _ Hinv) as (_ & _ & Hex & _).
  split; [|done]. intros Hq Hb Hn.
  assert (forall w p, pcs s !! w = Some p -> awake_worker p = true -> (w < n)%nat)
    as Hawake.
  { intros w p Hp Ha. apply Nat.ltb_lt. rewrite <- (Hrole _ _ Hp).
    destruct p; try done; by destruct k. }
  destruct (lookup_lt_is_Some_2 (pcs s) 0%nat) as [p0 Hp0]; [lia|].
  destruct (existsb is_blocked_worker (pcs s)) eqn:Hany.
  - apply existsb_exists in Hany as (p & Hin & Hp).
    apply list_elem_of_In, list_elem_of_lookup in Hin as [w Hw].
    destruct p; try discriminate Hp.
    destruct (Hwork (ex_intro _ w Hw) Hq Hb) as (t & p & Hp' & Hnot).
    destruct p; try discriminate Hnot; eauto 8.
  - right. exists 0%nat, p0. split_and!; [lia|done|].
    assert (worker_pc p0 = true) as Hw
      by (rewrite (Hrole _ _ Hp0); apply Nat.ltb_lt; lia).
    destruct p0; try discriminate Hw; try done; try (by destruct k).
    + exfalso. by eapply nobody_blocked.
    + pose proof (Hex _ Hp0). congruence.
Qed.

End Notice.

(** ** A complete teardown *)

Section TeardownRun.

Context {Env : Type}.

Implicit Types (s : State Env) (a : Action Env) (t w u : nat) (job : Job Env).

Lemma threads_joinable_step n e0 s a s' :
  Inv n e0 s -> step s a = Ok s' -> bailout s' = false ->
  threads s' = threads s /\ bailout s = false.
Proof.
  intros Hinv H Hb. destruct (inv_join _ _ _ Hinv) as (_ & H148 & _).
  step_cases H; simpl_state; try done; try congruence.
  match goal with Hpc : pcs _ !! _ = Some (Join148 _) |- _ =>
    pose proof (H148 _ _ Hpc); congruence end.
Qed.

Lemma threads_joinable_exec n e0 l : forall s s',
  Inv n e0 s -> exec s l = Ok s' -> bailout s' = false -> threads s' = threads s.
Proof.
  induction l as [|a l IH]; intros s s' Hinv H Hb; cbn in H; [by simplify_eq|].
  destruct (step s a) as [s1| | | |] eqn:Hs; try discriminate.
  pose proof (Inv_step _ _ _ _ _ Hinv Hs) as Hinv1.
  rewrite (IH s1 s' Hinv1 H Hb).
  assert (bailout s1 = false) as Hb1.
  { destruct (bailout s1) eqn:Hb1; [|done].
    by rewrite (bailout_exec_mono l s1 s' H Hb1) in Hb. }
  by destruct (threads_joinable_step _ _ _ _ _ Hinv Hs Hb1).
Qed.

Lemma exit_run s w :
  pcs s !! w = Some Next100_woken -> queueMutex s = None -> bailout s = true ->
  exec s (exit_steps w) = Ok (goto w Exited s).
Proof.
  intros Hpc Hq Hb. unfold exit_steps.
  exec_step Hpc ltac:(rewrite Hq).
  exec_step Hpc ltac:(rewrite Hb, orb_true_r).
  exec_step Hpc ltac:(rewrite Hb). cbn [exec]. f_equal.
  unfold goto, unlock_queueMutex, set_pcs, set_queueMutex; simpl_state.
  rewrite !list_insert_insert_eq, <- Hq. by destruct s.
Qed.

(** The workers [i .. i+k-1] leave one after the other. *)
Lemma exits_run k : forall i s,
  queueMutex s = None -> bailout s = true ->
  (forall w, (i <= w < i + k)%nat -> pcs s !! w = Some Next100_woken) ->
  exists s', exec s (flat_map exit_steps (seq i k)) = Ok s' /\
    (forall w, (i <= w < i + k)%nat -> pcs s' !! w = Some Exited) /\
    (forall t, ~ (i <= t < i + k)%nat -> pcs s' !! t = pcs s !! t) /\
    queueMutex s' = None /\ jobsLeftMutex s' = jobsLeftMutex s /\
    bailout s' = true /\ threads s' = threads s /\
    _queue s' = _queue s /\ jobsLeft s' = jobsLeft s /\
    executed s' = executed s /\ env s' = env s.
Proof.
  induction k as [|k IH]; intros i s Hq Hb Hall.
  - exists s. split_and!; try done. intros w Hw. lia.
  - assert (pcs s !! i = Some Next100_woken) as Hi by (apply Hall; lia).
    destruct (IH (S i) (goto i Exited s)) as (s' & Hrun & Hex & Hframe & Hrest).
    { done. }
    { done. }
    { intros w Hw. simpl_state. rewrite list_lookup_insert_ne by lia.
      apply Hall. lia. }
    exists s'. split.
    { cbn [seq flat_map]. rewrite exec_app, (exit_run s i Hi Hq Hb). exact Hrun. }
    split_and!; try (by apply Hrest).
    + intros w Hw. destruct (decide (w = i)) as [->|Hne].
      * rewrite Hframe by lia. simpl_state. by eapply lookup_goto_eq.
      * apply Hex. lia.
    + intros t Ht. rewrite Hframe by lia. simpl_state.
      apply list_lookup_insert_ne. lia.
Qed.

(** The join loop from index [i] on, every remaining worker finished. *)
Lemma join_run k : forall i s u,
  length (threads s) = (i + k)%nat ->
  pcs s !! u = Some (Join148 i) -> (i + k <= u)%nat ->
  (forall w, (i <= w < i + k)%nat ->
     threads s !! w = Some true /\ pcs s !! w = Some Exited) ->
  exists s', exec s (replicate k (Run u) ++ [Run u]) = Ok s' /\
    pcs s' !! u = Some (Idle None) /\
    (forall t, t <> u -> pcs s' !! t = pcs s !! t) /\
    (forall w, (i <= w < i + k)%nat -> threads s' !! w = Some false) /\
    (forall w, (w < i)%nat -> threads s' !! w = threads s !! w) /\
    queueMutex s' = queueMutex s /\ jobsLeftMutex s' = jobsLeftMutex s /\
    bailout s' = bailout s /\ _queue s' = _queue s /\ jobsLeft s' = jobsLeft s /\
    executed s' = executed s /\ env s' = env s.
Proof.
  induction k as [|k IH]; intros i s u Hlen Hpc Hu Hall.
  - assert (threads s !! i = None) as Hi by (apply lookup_ge_None; lia).
    eexists. split; [cbn [replicate app]; exec_step Hpc ltac:(rewrite Hi); reflexivity|].
    simpl_state. split_and!; try done.
    + by eapply lookup_goto_eq.
    + intros t Ht. by apply list_lookup_insert_ne.
    + intros w Hw. lia.
  - destruct (Hall i) as [Hti Hpi]; [lia|].
    destruct (IH (S i) (goto u (Join148 (S i))
                          (set_threads (<[i := false]> (threads s)) s)) u)
      as (s' & Hrun & Hret & Hframe & Hjoined & Hkept & Hrest).
    { simpl_state. rewrite length_insert. lia. }
    { simpl_state. by eapply lookup_goto_eq. }
    { lia. }
    { intros w Hw. simpl_state.
      rewrite !list_lookup_insert_ne by lia. apply Hall. lia. }
    exists s'. split.
    { cbn [replicate app]. exec_step Hpc ltac:(rewrite Hti, Hpi). exact Hrun. }
    simpl_state. split_and!; try (by apply Hrest); try done.
    + intros t Ht. rewrite (Hframe t Ht). simpl_state.
      by apply list_lookup_insert_ne.
    + intros w Hw. destruct (decide (w = i)) as [->|Hne].
      * rewrite Hkept by lia. simpl_state. apply list_lookup_insert_eq.
        by eapply lookup_lt_Some.
      * apply Hjoined. lia.
    + intros w Hw. rewrite Hkept by lia. simpl_state.
      apply list_lookup_insert_ne. lia.
Qed.

(** X13: the destructor of an idle pool completes.  From a reachable
    state without [bailout] in which [queueMutex] is free and every
    worker waits at line 100, the destructor called on thread [u] runs to
    its end: the flag is set, every worker leaves its loop and is
    joined, [joinAll] returns, and the queue, [jobsLeft], the executed
    jobs and the environment are as before (pending jobs are not run). *)
Theorem teardown_of_an_idle_pool_completes n m e0 s u r :
  reachable n m e0 s ->
  bailout s = false -> queueMutex s = None ->
  (forall w, (w < n)%nat -> pcs s !! w = Some Next100_blocked) ->
  pcs s !! u = Some (Idle r) ->
  exists s', exec s (teardown_steps n u) = Ok s' /\
    pcs s' !! u = Some (Idle None) /\ bailout s' = true /\
    (forall w, (w < n)%nat ->
       pcs s' !! w = Some Exited /\ threads s' !! w = Some false) /\
    queueMutex s' = None /\ _queue s' = _queue s /\ jobsLeft s' = jobsLeft s /\
    executed s' = executed s /\ env s' = env s.
Proof.
  intros Hr Hb Hq Hidle Hpc. pose proof (reachable_Inv _ _ _ _ Hr) as Hinv.
  destruct (inv_role _ _ _ Hinv) as (Hth & Hlen & Hrole).
  assert (n <= u)%nat as Hu.
  { pose proof (Hrole _ _ Hpc) as Hw. cbn [worker_pc] in Hw.
    symmetry in Hw. by apply Nat.ltb_ge in Hw. }
  assert (threads s = replicate n true) as Hthreads.
  { destruct Hr as [l Hl].
    by rewrite (threads_joinable_exec n e0 l _ _ (Inv_init n m e0) Hl Hb). }
  unfold teardown_steps. rewrite exec_app.
  assert (exists s1, exec s [Call u Destroy; Run u; Run u; Run u] = Ok s1 /\
            pcs s1 !! u = Some (Join148 0) /\
            (forall t, t <> u -> pcs s1 !! t = wake_worker <$> pcs s !! t) /\
            queueMutex s1 = None /\ bailout s1 = true /\ threads s1 = threads s /\
            _queue s1 = _queue s /\ jobsLeft s1 = jobsLeft s /\
            executed s1 = executed s /\ env s1 = env s)
    as (s1 & Hrun1 & Hpc1 & Hframe1 & Hq1 & Hb1 & Hth1 & Hqu1 & Hj1 & He1 & Henv1).
  { eexists. split.
    - exec_step Hpc idtac. exec_step Hpc ltac:(rewrite Hq).
      exec_step Hpc ltac:(rewrite Hb). exec_step Hpc idtac. reflexivity.
    - simpl_state. split_and!; try done.
      + apply list_lookup_insert_eq. rewrite length_map, !length_insert.
        by eapply lookup_lt_Some.
      + intros t Ht. rewrite list_lookup_insert_ne by done.
        change (map wake_worker ?l) with (wake_worker <$> l).
        rewrite list_lookup_fmap. by rewrite !list_lookup_insert_ne by done. }
  rewrite Hrun1, exec_app.
  destruct (exits_run n 0 s1 Hq1 Hb1)
    as (s2 & Hrun2 & Hex2 & Hframe2 & Hq2 & _ & Hb2 & Hth2 & Hqu2 & Hj2 & He2 & Henv2).
  { intros w Hw. rewrite Hframe1 by lia. rewrite Hidle by lia. done. }
  rewrite Hrun2.
  destruct (join_run n 0 s2 u)
    as (s3 & Hrun3 & Hret3 & Hframe3 & Hjoined3 & _ & Hq3 & _ & Hb3 & Hqu3 & Hj3 & He3 & Henv3).
  { rewrite Hth2, Hth1. lia. }
  { rewrite Hframe2 by lia. done. }
  { lia. }
  { intros w Hw. split; [|apply Hex2; lia].
    rewrite Hth2, Hth1, Hthreads. apply lookup_replicate. split; [done|lia]. }
  exists s3. split; [done|]. split_and!; try congruence.
  intros w Hw. split; [|apply Hjoined3; lia].
  rewrite Hframe3 by lia. apply Hex2. lia.
Qed.

End TeardownRun.

(** ** Complete runs *)

Section SerialRun.

Context {Env : Type}.

Implicit Types (s : State Env) (a : Action Env) (t w u : nat) (job : Job Env).

Lemma existsb_goto_false (P : pc Env -> bool) (l : list (pc Env)) t q :
  existsb P l = false -> P q = false -> existsb P (<[t := q]> l) = false.
Proof.
  revert t. induction l as [|p l IH]; intros t Hl Hq; [done|].
  cbn in Hl. apply orb_false_iff in Hl as [Hp Hl].
  destruct t; cbn; [by rewrite Hq|]. rewrite Hp. by apply IH.
Qed.

Lemma stamped_cons k b (bs : list (Env -> option Env)) :
  stamped k (b :: bs) = mkJob k b :: stamped (S k) bs.
Proof.
  unfold stamped. cbn. rewrite Nat.add_0_r. f_equal.
  apply imap_ext. intros i x _. cbn. f_equal. lia.
Qed.

Lemma enqueue_all_run u (bs : list (Env -> option Env)) : forall s r,
  pcs s !! u = Some (Idle r) -> jobsLeftMutex s = None -> queueMutex s = None ->
  existsb is_blocked_worker (pcs s) = false ->
  jobsLeft s + Z.of_nat (length bs) <= INT_MAX ->
  exists s' r', exec s (enqueue_all u bs) = Ok s' /\
    pcs s' !! u = Some (Idle r') /\
    (forall t, t <> u -> pcs s' !! t = pcs s !! t) /\
    jobsLeftMutex s' = None /\ queueMutex s' = None /\
    _queue s' = _queue s ++ stamped (tickets s) bs /\
    jobsLeft s' = jobsLeft s + Z.of_nat (length bs) /\
    bailout s' = bailout s /\ env s' = env s /\ executed s' = executed s.
Proof.
  induction bs as [|b bs IH]; intros s r Hpc Hj Hq Hnone Hmax.
  - exists s, r. cbn. rewrite (right_id_L [] app). split_and!; try done. lia.
  - assert ((jobsLeft s =? INT_MAX) = false) as Hne
      by (apply Z.eqb_neq; cbn [length] in Hmax; lia).
    assert (exists s1, exec s (enqueue_steps u b ++ [Run u]) = Ok s1 /\
              pcs s1 = <[u := Idle None]> (pcs s) /\
              jobsLeftMutex s1 = None /\ queueMutex s1 = None /\
              _queue s1 = _queue s ++ [mkJob (tickets s) b] /\
              jobsLeft s1 = jobsLeft s + 1 /\ tickets s1 = S (tickets s) /\
              bailout s1 = bailout s /\ env s1 = env s /\ executed s1 = executed s)
      as (s1 & Hrun1 & Hpcs1 & Hj1 & Hq1 & Hqu1 & Hjl1 & Ht1 & Hb1 & He1 & Hex1).
    { eexists. split.
      - unfold enqueue_steps. cbn [app].
        exec_step Hpc idtac. exec_step Hpc ltac:(rewrite Hj).
        exec_step Hpc ltac:(rewrite Hne). exec_step Hpc ltac:(rewrite Hq).
        exec_step Hpc idtac.
        exec_step Hpc ltac:(rewrite !list_insert_insert_eq,
          (existsb_goto_false is_blocked_worker (pcs s) u Enq46 Hnone eq_refl)).
        reflexivity.
      - simpl_state. split_and!; try done. by rewrite !list_insert_insert_eq. }
    destruct (IH s1 None)
      as (s' & r' & Hrun & Hpc' & Hframe & Hj' & Hq' & Hqu & Hjl & Hb & He & Hex).
    { rewrite Hpcs1. by eapply lookup_goto_eq. }
    { done. }
    { done. }
    { rewrite Hpcs1. by apply existsb_goto_false. }
    { rewrite Hjl1. cbn [length] in Hmax. lia. }
    exists s', r'. split.
    { cbn [enqueue_all flat_map]. rewrite exec_app, Hrun1. exact Hrun. }
    split_and!; try done; try congruence.
    + intros t Ht. rewrite (Hframe t Ht), Hpcs1. by apply list_lookup_insert_ne.
    + rewrite Hqu, Hqu1, Ht1, stamped_cons, <- (assoc_L app). done.
    + rewrite Hjl, Hjl1. cbn [length]. lia.
Qed.

Lemma no_waiter_map (l : list (pc Env)) t :
  l !! t <> Some Wait72_blocked -> map wake_waiter l !! t = l !! t.
Proof.
  intros H. change (map wake_waiter l) with (wake_waiter <$> l).
  rewrite list_lookup_fmap. destruct (l !! t) as [p|]; [|done].
  cbn. f_equal. destruct p; try done.
Qed.

(** [finalizeJobs(1)] on a worker. *)
Lemma finalize_run s w :
  pcs s !! w = Some (Fin119 1 FromWorker) -> jobsLeftMutex s = None ->
  1 <= jobsLeft s ->
  (forall t, pcs s !! t <> Some Wait72_blocked) ->
  exists s', exec s (finalize_steps w) = Ok s' /\
    pcs s' !! w = Some Next94 /\
    (forall t, t <> w -> pcs s' !! t = pcs s !! t) /\
    jobsLeftMutex s' = None /\ queueMutex s' = queueMutex s /\
    bailout s' = bailout s /\ _queue s' = _queue s /\
    executed s' = executed s /\ env s' = env s /\
    jobsLeft s' = jobsLeft s - 1.
Proof.
  intros Hpc Hj Hge Hno.
  assert ((jobsLeft s >=? 1) = true) as Hge1 by (apply Z.geb_le; lia).
  assert ((jobsLeft s - 1 >=? 0) = true) as Hge0 by (apply Z.geb_le; lia).
  destruct (jobsLeft s - 1 =? 0) eqn:Hz.
  - eexists. split.
    + unfold finalize_steps.
      exec_step Hpc idtac. exec_step Hpc ltac:(rewrite Hj).
      exec_step Hpc ltac:(rewrite Hge1).
      exec_step Hpc ltac:(rewrite Hge0, Hz). reflexivity.
    + simpl_state. split_and!; try done.
      * apply list_lookup_insert_eq. rewrite length_map, !length_insert.
        by eapply lookup_lt_Some.
      * intros t Ht. rewrite list_lookup_insert_ne by done.
        rewrite no_waiter_map; rewrite !list_lookup_insert_ne by done; [done|apply Hno].
  - eexists. split.
    + unfold finalize_steps.
      exec_step Hpc idtac. exec_step Hpc ltac:(rewrite Hj).
      exec_step Hpc ltac:(rewrite Hge1).
      exec_step Hpc ltac:(rewrite Hge0, Hz). reflexivity.
    + simpl_state. split_and!; try done.
      * apply list_lookup_insert_eq. rewrite !length_insert.
        by eapply lookup_lt_Some.
      * intros t Ht. by rewrite !list_lookup_insert_ne by done.
Qed.

(** One turn of the worker loop. *)
Lemma work_run s w job rest e' :
  pcs s !! w = Some Next94 -> queueMutex s = None -> jobsLeftMutex s = None ->
  bailout s = false -> _queue s = job :: rest -> 1 <= jobsLeft s ->
  (forall t, pcs s !! t <> Some Wait72_blocked) ->
  body job (env s) = Some e' ->
  exists s', exec s (work_steps w) = Ok s' /\
    pcs s' !! w = Some Next94 /\
    (forall t, t <> w -> pcs s' !! t = pcs s !! t) /\
    queueMutex s' = None /\ jobsLeftMutex s' = None /\ bailout s' = false /\
    _queue s' = rest /\ executed s' = executed s ++ [job] /\ env s' = e' /\
    jobsLeft s' = jobsLeft s - 1.
Proof.
  intros Hpc Hq Hj Hb Hqueue Hge Hno He.
  assert (exists s1, exec s (fetch_steps w ++ [Run w]) = Ok s1 /\
            pcs s1 = <[w := Fin119 1 FromWorker]> (pcs s) /\
            queueMutex s1 = None /\ jobsLeftMutex s1 = None /\
            bailout s1 = false /\ _queue s1 = rest /\
            executed s1 = executed s ++ [job] /\ env s1 = e' /\
            jobsLeft s1 = jobsLeft s)
    as (s1 & Hrun1 & Hpcs1 & Hq1 & Hj1 & Hb1 & Hqu1 & Hex1 & He1 & Hjl1).
  { eexists. split.
    - unfold fetch_steps. cbn [app].
      exec_step Hpc ltac:(rewrite Hq). exec_step Hpc ltac:(rewrite Hb).
      exec_step Hpc ltac:(rewrite Hqueue; cbn).
      exec_step Hpc ltac:(rewrite Hb). exec_step Hpc ltac:(rewrite Hqueue).
      exec_step Hpc ltac:(rewrite He). reflexivity.
    - simpl_state. split_and!; try done. by rewrite !list_insert_insert_eq. }
  destruct (finalize_run s1 w)
    as (s' & Hrun & Hpc' & Hframe & Hj' & Hq' & Hb' & Hqu' & Hex' & He'' & Hjl').
  { rewrite Hpcs1. by eapply lookup_goto_eq. }
  { done. }
  { lia. }
  { intros t Ht. rewrite Hpcs1 in Ht. apply lookup_goto in Ht as [[_ ?]|[_ Ht]];
      [done|by apply (Hno t)]. }
  exists s'. split.
  { unfold work_steps. rewrite (assoc_L app), exec_app, Hrun1. exact Hrun. }
  split_and!; try congruence.
  intros t Ht. rewrite (Hframe t Ht), Hpcs1. by apply list_lookup_insert_ne.
Qed.

(** The worker works off the queue. *)
Lemma queue_run w (js : list (Job Env)) : forall s e,
  pcs s !! w = Some Next94 -> queueMutex s = None -> jobsLeftMutex s = None ->
  bailout s = false -> _queue s = js -> Z.of_nat (length js) <= jobsLeft s ->
  (forall t, pcs s !! t <> Some Wait72_blocked) ->
  replay js (env s) = Some e ->
  exists s', exec s (concat (replicate (length js) (work_steps w))) = Ok s' /\
    pcs s' !! w = Some Next94 /\
    (forall t, t <> w -> pcs s' !! t = pcs s !! t) /\
    queueMutex s' = None /\ jobsLeftMutex s' = None /\ bailout s' = false /\
    _queue s' = [] /\ executed s' = executed s ++ js /\ env s' = e /\
    jobsLeft s' = jobsLeft s - Z.of_nat (length js).
Proof.
  induction js as [|job js IH]; intros s e Hpc Hq Hj Hb Hqueue Hge Hno He.
  - exists s. cbn in He. injection He as <-. rewrite (right_id_L [] app).
    split_and!; try done. cbn. lia.
  - cbn [replay] in He. destruct (body job (env s)) as [e1|] eqn:He1; [|done].
    cbn [length] in Hge.
    destruct (work_run s w job js e1)
      as (s1 & Hrun1 & Hpc1 & Hframe1 & Hq1 & Hj1 & Hb1 & Hqu1 & Hex1 & Henv1 & Hjl1);
      try done; [lia|].
    destruct (IH s1 e)
      as (s' & Hrun & Hpc' & Hframe & Hq' & Hj' & Hb' & Hqu' & Hex' & Henv' & Hjl');
      try done.
    { lia. }
    { intros t. destruct (decide (t = w)) as [->|Hne]; [congruence|].
      rewrite (Hframe1 t Hne). apply Hno. }
    { by rewrite Henv1. }
    exists s'. split.
    { cbn [length replicate concat]. rewrite exec_app, Hrun1. exact Hrun. }
    split_and!; try done.
    + intros t Ht. by rewrite (Hframe t Ht), (Hframe1 t Ht).
    + by rewrite Hex', Hex1, <- (assoc_L app).
    + rewrite Hjl', Hjl1. cbn [length]. lia.
Qed.

Lemma init_not_blocked n m (e0 : Env) :
  existsb is_blocked_worker (pcs (init n m e0)) = false.
Proof.
  cbn. rewrite existsb_app. apply orb_false_iff.
  split; [induction n|induction m]; cbn; done.
Qed.


End SerialRun.

Section Cycle.

Context {Env : Type}.

Implicit Types (s : State Env) (a : Action Env) (t w u : nat) (job : Job Env).

Lemma state_eta s (l : list (pc Env)) :
  l = pcs s -> set_pcs l s = s.
Proof. intros ->. by destruct s. Qed.

(** X16: spurious wake-ups change nothing.  A worker that wakes at line
    100 without a notification, with the queue empty and [bailout] not
    set, re-acquires [queueMutex], finds the predicate false and waits
    again; a thread that wakes in [waitAll] (line 72) while [jobsLeft]
    is not 0 does the same with [jobsLeftMutex].  In both cases the
    state after the three steps is the state before. *)
Theorem spurious_wakeups_change_nothing s t :
  (pcs s !! t = Some Next100_blocked -> queueMutex s = None ->
   _queue s = [] -> bailout s = false ->
   exec s (spurious_steps t) = Ok s) /\
  (pcs s !! t = Some Wait72_blocked -> jobsLeftMutex s = None ->
   jobsLeft s <> 0 ->
   exec s (spurious_steps t) = Ok s).
Proof.
  split.
  - intros Hpc Hq Hqueue Hb. unfold spurious_steps.
    erewrite exec_cons; [|cbn [step]; unfold spurious; rewrite Hpc; reflexivity].
    exec_step Hpc ltac:(rewrite Hq).
    exec_step Hpc ltac:(rewrite Hqueue, Hb; cbn).
    cbn [exec]. f_equal.
    unfold goto, unlock_queueMutex, set_queueMutex; simpl_state.
    rewrite !list_insert_insert_eq, (list_insert_id _ _ _ Hpc), <- Hq.
    by destruct s.
  - intros Hpc Hj Hz. apply Z.eqb_neq in Hz. unfold spurious_steps.
    erewrite exec_cons; [|cbn [step]; unfold spurious; rewrite Hpc; reflexivity].
    exec_step Hpc ltac:(rewrite Hj).
    exec_step Hpc ltac:(rewrite Hz).
    cbn [exec]. f_equal.
    unfold goto, unlock_jobsLeftMutex, set_jobsLeftMutex; simpl_state.
    rewrite !list_insert_insert_eq, (list_insert_id _ _ _ Hpc), <- Hj.
    by destruct s.
Qed.

(** The woken worker takes the job and calls it. *)
Lemma woken_run s w job e' :
  pcs s !! w = Some Next100_woken -> queueMutex s = None -> bailout s = false ->
  _queue s = [job] -> body job (env s) = Some e' ->
  exists s', exec s [Run w; Run w; Run w; Run w; Run w] = Ok s' /\
    pcs s' = <[w := Fin119 1 FromWorker]> (pcs s) /\
    queueMutex s' = None /\ jobsLeftMutex s' = jobsLeftMutex s /\
    bailout s' = false /\ _queue s' = [] /\
    executed s' = executed s ++ [job] /\ env s' = e' /\
    jobsLeft s' = jobsLeft s.
Proof.
  intros Hpc Hq Hb Hqueue He. eexists. split.
  - exec_step Hpc ltac:(rewrite Hq).
    exec_step Hpc ltac:(rewrite Hqueue; cbn).
    exec_step Hpc ltac:(rewrite Hb). exec_step Hpc ltac:(rewrite Hqueue).
    exec_step Hpc ltac:(rewrite He). reflexivity.
  - simpl_state. split_and!; try done. by rewrite !list_insert_insert_eq.
Qed.

(** A worker that finds the queue empty waits. *)
Lemma wait_run s w :
  pcs s !! w = Some Next94 -> queueMutex s = None -> bailout s = false ->
  _queue s = [] ->
  exists s', exec s [Run w; Run w; Run w] = Ok s' /\
    pcs s' = <[w := Next100_blocked]> (pcs s) /\
    queueMutex s' = None /\ jobsLeftMutex s' = jobsLeftMutex s /\
    bailout s' = false /\ _queue s' = [] /\
    executed s' = executed s /\ env s' = env s /\ jobsLeft s' = jobsLeft s.
Proof.
  intros Hpc Hq Hb Hqueue. eexists. split.
  - exec_step Hpc ltac:(rewrite Hq). exec_step Hpc ltac:(rewrite Hb).
    exec_step Hpc ltac:(rewrite Hqueue, Hb; cbn). reflexivity.
  - simpl_state. split_and!; try done. by rewrite !list_insert_insert_eq.
Qed.

(** X15: an [enqueue] wakes a waiting worker.  On a reachable state of
    an idle pool (empty queue, both mutexes free, no [bailout], nobody
    blocked in [waitAll], [jobsLeft] below [INT_MAX]) with worker [w]
    waiting at line 100, the call [enqueue(b)] on thread [u], whose
    [notify_one] wakes [w], makes [w] take the job, call it, finalize it
    and wait again: the job is executed, the queue is empty again,
    [jobsLeft] is what it was and no other thread has moved. *)
Theorem enqueue_wakes_a_waiting_worker n m e0 s u w r b e' :
  reachable n m e0 s ->
  pcs s !! u = Some (Idle r) -> pcs s !! w = Some Next100_blocked ->
  queueMutex s = None -> jobsLeftMutex s = None -> bailout s = false ->
  _queue s = [] -> jobsLeft s < INT_MAX ->
  (forall t, pcs s !! t <> Some Wait72_blocked) ->
  b (env s) = Some e' ->
  exists s', exec s (cycle_steps w u b) = Ok s' /\
    pcs s' !! u = Some (Idle None) /\ pcs s' !! w = Some Next100_blocked /\
    (forall t, t <> u -> t <> w -> pcs s' !! t = pcs s !! t) /\
    queueMutex s' = None /\ jobsLeftMutex s' = None /\ bailout s' = false /\
    _queue s' = [] /\ jobsLeft s' = jobsLeft s /\
    executed s' = executed s ++ [mkJob (tickets s) b] /\ env s' = e'.
Proof.
  intros Hr Hu Hw Hq Hj Hb Hqueue Hmax Hno He.
  destruct (reachable_Inv _ _ _ _ Hr) as [_ _ (Hsum & _ & Hwf) _ _ _ _ _].
  pose proof (owed_total_nonneg _ Hwf) as Hge.
  assert (u <> w) as Huw by (intros ->; congruence).
  assert ((jobsLeft s =? INT_MAX) = false) as Hne by (apply Z.eqb_neq; lia).
  assert (exists s1, exec s (enqueue_steps u b ++ [Signal u w]) = Ok s1 /\
            pcs s1 = <[u := Idle None]> (<[w := Next100_woken]> (pcs s)) /\
            jobsLeftMutex s1 = None /\ queueMutex s1 = None /\
            _queue s1 = [mkJob (tickets s) b] /\
            jobsLeft s1 = jobsLeft s + 1 /\
            bailout s1 = false /\ env s1 = env s /\ executed s1 = executed s)
    as (s1 & Hrun1 & Hpcs1 & Hj1 & Hq1 & Hqu1 & Hjl1 & Hb1 & He1 & Hex1).
  { eexists. split.
    - unfold enqueue_steps. cbn [app].
      exec_step Hu idtac. exec_step Hu ltac:(rewrite Hj).
      exec_step Hu ltac:(rewrite Hne). exec_step Hu ltac:(rewrite Hq).
      exec_step Hu idtac.
      erewrite exec_cons; [reflexivity|].
      cbn [step]; unfold signal; simpl_state.
      rewrite list_lookup_insert_eq
        by (rewrite ?length_insert; eapply lookup_lt_Some, Hu).
      rewrite !list_lookup_insert_ne, Hw by done. reflexivity.
    - simpl_state. rewrite Hqueue. split_and!; try done.
      rewrite !list_insert_insert_eq.
      rewrite (list_insert_insert_ne _ w u) by done.
      by rewrite list_insert_insert_eq. }
  assert (pcs s1 !! w = Some Next100_woken) as Hw1.
  { rewrite Hpcs1, list_lookup_insert_ne by done. by eapply lookup_goto_eq. }
  destruct (woken_run s1 w (mkJob (tickets s) b) e')
    as (s2 & Hrun2 & Hpcs2 & Hq2 & Hj2 & Hb2 & Hqu2 & Hex2 & He2 & Hjl2); try done.
  { by rewrite He1. }
  destruct (finalize_run s2 w)
    as (s3 & Hrun3 & Hw3 & Hframe3 & Hj3 & Hq3 & Hb3 & Hqu3 & Hex3 & He3 & Hjl3).
  { rewrite Hpcs2. by eapply lookup_goto_eq. }
  { congruence. }
  { lia. }
  { intros t Ht. rewrite Hpcs2, Hpcs1 in Ht.
    apply lookup_goto in Ht as [[_ ?]|[_ Ht]]; [done|].
    apply lookup_goto in Ht as [[_ ?]|[_ Ht]]; [done|].
    apply lookup_goto in Ht as [[_ ?]|[_ Ht]]; [done|].
    by apply (Hno t). }
  destruct (wait_run s3 w)
    as (s4 & Hrun4 & Hpcs4 & Hq4 & Hj4 & Hb4 & Hqu4 & Hex4 & He4 & Hjl4);
    try congruence.
  exists s4. split.
  { unfold cycle_steps. rewrite (assoc_L app), exec_app, Hrun1.
    change ([Run w; Run w; Run w; Run w] ++ [Run w] ++ finalize_steps w ++
            [Run w; Run w; Run w])
      with ([Run w; Run w; Run w; Run w; Run w] ++ finalize_steps w ++
            [Run w; Run w; Run w] : list (Action Env)).
    rewrite exec_app, Hrun2, exec_app, Hrun3. exact Hrun4. }
  split_and!; try congruence.
  - rewrite Hpcs4, list_lookup_insert_ne, Hframe3, Hpcs2 by done.
    rewrite list_lookup_insert_ne, Hpcs1 by done.
    eapply lookup_goto_eq. rewrite list_lookup_insert_ne by done. exact Hu.
  - rewrite Hpcs4. by eapply lookup_goto_eq.
  - intros t Htu Htw.
    rewrite Hpcs4, list_lookup_insert_ne, Hframe3, Hpcs2 by done.
    by rewrite list_lookup_insert_ne, Hpcs1, !list_lookup_insert_ne by done.
  - lia.
Qed.

End Cycle.

(** ** The end of waitAll *)

Section Release.

Context {Env : Type}.

Implicit Types (s : State Env) (a : Action Env) (t w u f : nat) (job : Job Env).

(** Woken waiters return one after the other while the counter is 0. *)
Lemma waiters_run (ts : list nat) : forall s,
  jobsLeftMutex s = None -> jobsLeft s = 0 -> NoDup ts ->
  (forall t, t ∈ ts -> pcs s !! t = Some Wait72_woken) ->
  exists s', exec s (flat_map (fun t => [Run t; Run t]) ts) = Ok s' /\
    (forall t, t ∈ ts -> pcs s' !! t = Some (Idle None)) /\
    (forall t, t ∉ ts -> pcs s' !! t = pcs s !! t) /\
    jobsLeftMutex s' = None /\ jobsLeft s' = 0 /\
    queueMutex s' = queueMutex s /\ bailout s' = bailout s /\
    _queue s' = _queue s /\ executed s' = executed s /\ env s' = env s.
Proof.
  induction ts as [|t ts IH]; intros s Hj Hz Hnd Hall.
  - exists s. split_and!; try done. intros t Ht. by apply elem_of_nil in Ht.
  - apply NoDup_cons in Hnd as [Hnin Hnd].
    assert (pcs s !! t = Some Wait72_woken) as Hpc by (apply Hall; left).
    assert ((jobsLeft s =? 0) = true) as Hz' by (by apply Z.eqb_eq).
    destruct (IH (goto t (Idle None) s))
      as (s' & Hrun & Hret & Hframe & Hj' & Hz'' & Hq' & Hb' & Hqu' & Hex' & Henv');
      try done.
    { intros t' Ht'. simpl_state.
      rewrite list_lookup_insert_ne by (intros ->; done).
      apply Hall. by right. }
    exists s'. split.
    { cbn [flat_map app].
      exec_step Hpc ltac:(rewrite Hj). exec_step Hpc ltac:(rewrite Hz').
      match goal with |- exec ?x _ = _ =>
        replace x with (goto t (Idle None) s); [exact Hrun|] end.
      unfold goto, unlock_jobsLeftMutex, set_pcs, set_jobsLeftMutex; simpl_state.
      rewrite !list_insert_insert_eq, <- Hj. by destruct s. }
    split_and!; try done.
    + intros t' Ht'. apply elem_of_cons in Ht' as [->|Ht']; [|by apply Hret].
      rewrite (Hframe t Hnin). simpl_state. by eapply lookup_goto_eq.
    + intros t' Ht'. apply not_elem_of_cons in Ht' as [Hne Ht'].
      rewrite (Hframe t' Ht'). simpl_state. by apply list_lookup_insert_ne.
Qed.

(** X17: the test [waitAllFromMultipleThreads].  When [finalizeJobs]
    has brought the counter to 0 and is about to call [notify_all] (line
    130), with [jobsLeft] still 0 and [jobsLeftMutex] free, then after
    the [notify_all] every thread that was blocked in [waitAll] returns,
    whatever their number: one call wakes them all, nobody stays
    blocked, and the queue, the executed jobs and the environment are
    untouched. *)
Theorem notify_all_releases_every_waiter s f k (ts : list nat) :
  pcs s !! f = Some (Fin129 0 k) -> jobsLeftMutex s = None -> jobsLeft s = 0 ->
  NoDup ts -> (forall t, t ∈ ts -> pcs s !! t = Some Wait72_blocked) ->
  exists s', exec s (release_steps f ts) = Ok s' /\
    (forall t, t ∈ ts -> pcs s' !! t = Some (Idle None)) /\
    pcs s' !! f = Some (finalizeJobs_return k) /\
    (forall t, pcs s' !! t <> Some Wait72_blocked) /\
    jobsLeftMutex s' = None /\ jobsLeft s' = 0 /\
    queueMutex s' = queueMutex s /\ bailout s' = bailout s /\
    _queue s' = _queue s /\ executed s' = executed s /\ env s' = env s.
Proof.
  intros Hf Hj Hz Hnd Hall.
  assert (f ∉ ts) as Hfts by (intros Hin; pose proof (Hall _ Hin); congruence).
  destruct (waiters_run ts (goto f (finalizeJobs_return k) (waitVar_notify_all s)))
    as (s' & Hrun & Hret & Hframe & Hj' & Hz' & Hq' & Hb' & Hqu' & Hex' & Henv');
    try done.
  { intros t Ht. simpl_state.
    rewrite list_lookup_insert_ne by (intros ->; done).
    apply (lookup_map_goto wake_waiter _ _ Wait72_blocked). by apply Hall. }
  exists s'. split.
  { unfold release_steps. exec_step Hf idtac. exact Hrun. }
  split_and!; try done.
  - rewrite (Hframe f Hfts). simpl_state. eapply lookup_goto_eq.
    apply (lookup_map_goto wake_waiter). exact Hf.
  - intros t Ht. destruct (decide (t ∈ ts)) as [Hin|Hnin].
    + rewrite (Hret t Hin) in Ht. done.
    + rewrite (Hframe t Hnin) in Ht. simpl_state.
      apply lookup_goto in Ht as [[_ Ht]|[_ Ht]]; [by destruct k|].
      apply lookup_map_Some in Ht as (p & _ & Hp). by destruct p.
Qed.

End Release.

(** ** Progress: the job does not stay pending *)

Section StepFacts.

Context {Env : Type}.

Implicit Types (s : State Env) (a : Action Env) (t w h : nat) (job : Job Env)
  (p : pc Env).

(** The ghost lists only grow. *)
Lemma grows_step s a s' :
  step s a = Ok s' ->
  appended s `prefix_of` appended s' /\ taken s `prefix_of` taken s' /\
  executed s `prefix_of` executed s' /\ drained s `prefix_of` drained s'.
Proof.
  intros H. step_cases H; simpl_state;
    split_and!; first [done | by apply prefix_app_r].
Qed.

Lemma active_wake (g : pc Env -> pc Env) p :
  g = wake_worker \/ g = wake_waiter -> active p = true -> g p = p.
Proof. intros [-> | ->] Hp; by destruct p. Qed.

(** The steps of the other threads leave a thread that is inside an
    operation, and not waiting, where it is. *)
Lemma step_other s a s' t p :
  step s a = Ok s' -> pcs s !! t = Some p -> active p = true ->
  moves t (Some a) = false -> pcs s' !! t = Some p.
Proof.
  intros H Hpc Hact Hmv. step_cases H; simpl_state; cbn [moves] in Hmv;
    bool_hyps.
  all: try (rewrite list_lookup_insert_ne by (intros ->; simplify_eq/=; done)).
  all: try (erewrite lookup_map_goto by eassumption;
            rewrite active_wake by auto).
  all: try done.
  all: try (rewrite !list_lookup_insert_ne by (intros ->; simplify_eq/=; done);
            done).
Qed.

End StepFacts.

Section Enabled.

Context {Env : Type}.

Implicit Types (s : State Env) (a : Action Env) (t w h : nat) (job : Job Env)
  (p : pc Env).

Lemma somebody_blocked (l : list (pc Env)) :
  existsb is_blocked_worker l = true -> exists w, l !! w = Some Next100_blocked.
Proof.
  intros H. apply existsb_exists in H as (p & Hin & Hp).
  apply list_elem_of_In, list_elem_of_lookup in Hin as [w Hw].
  exists w. by destruct p.
Qed.

(** A thread inside an operation that is not waiting has a step to
    take, unless the step is the acquisition of a mutex that is taken. *)
Lemma can_run n e0 s t p :
  Inv n e0 s -> bailout s = false -> jobsLeft s < INT_MAX -> jobs_return s ->
  pcs s !! t = Some p -> active p = true ->
  (acquires_queueMutex p = true -> queueMutex s = None) ->
  (acquires_jobsLeftMutex p = true -> jobsLeftMutex s = None) ->
  enabled t s.
Proof.
  intros Hinv Hb Hmax Hret Hpc Hact Hq Hj.
  destruct (inv_counter _ _ _ Hinv) as (Hsum & _ & Hwf).
  pose proof (owed_total_nonneg _ Hwf) as Hge.
  pose proof (owed_total_lookup _ _ _ Hwf Hpc) as Hle.
  pose proof (proj1 (Forall_lookup _ _) Hwf _ _ Hpc) as Hp.
  destruct (inv_worker _ _ _ Hinv) as (_ & H108).
  destruct (inv_join _ _ _ Hinv) as (H146 & H148 & _).
  unfold enabled.
  destruct p; try discriminate Hact; cbn [pc_wf owed] in *.
  all: try (pose proof (H146 _ Hpc); congruence).
  all: try (pose proof (H148 _ _ Hpc); congruence).
  all: try (left; cbn [step]; unfold run; rewrite Hpc;
            cbn [enqueue cancelPending waitAll nextJob finalizeJobs joinAll];
            unfold lock_jobsLeftMutex, lock_queueMutex;
            rewrite ?Hq, ?Hj, ?Hb by done; repeat case_match; eauto; fail).
  - (* Enq38 *)
    left. cbn [step]; unfold run; rewrite Hpc; cbn [enqueue].
    case_match; bool_hyps; [lia|eauto].
  - (* Enq46 *)
    destruct (existsb is_blocked_worker (pcs s)) eqn:Hany.
    + right. apply somebody_blocked in Hany as [w Hw].
      exists w. cbn [step]; unfold signal. rewrite Hpc, Hw. eauto.
    + left. cbn [step]; unfold run; rewrite Hpc; cbn [enqueue].
      rewrite Hany. eauto.
  - (* Can61 *)
    left. cbn [step]; unfold run; rewrite Hpc; cbn [cancelPending].
    case_match; bool_hyps; [lia|]. case_match; eauto.
  - (* Next108 *)
    left. cbn [step]; unfold run; rewrite Hpc; cbn [nextJob].
    destruct (H108 _ Hpc) as [_ Hne]. destruct (_queue s); [done|eauto].
  - (* Next112 *)
    left. cbn [step]; unfold run; rewrite Hpc; cbn [nextJob].
    pose proof (Hret _ _ Hpc). destruct (body job (env s)); [eauto|done].
  - (* Fin119 *)
    left. cbn [step]; unfold run; rewrite Hpc; cbn [finalizeJobs].
    destruct (count >? 0) eqn:Hc; [eauto|].
    bool_hyps. destruct k; cbn in Hp; lia.
  - (* Fin124 *)
    left. cbn [step]; unfold run; rewrite Hpc; cbn [finalizeJobs].
    destruct (jobsLeft s >=? count) eqn:Hc; [eauto|].
    rewrite Z.geb_leb in Hc. apply Z.leb_gt in Hc. lia.
  - (* Fin129 *)
    left. cbn [step]; unfold run; rewrite Hpc; cbn [finalizeJobs].
    destruct (remainingJobs >=? 0) eqn:Hc; [case_match; eauto|].
    rewrite Z.geb_leb in Hc. apply Z.leb_gt in Hc. lia.
Qed.

End Enabled.

Section Ranks.

Context {Env : Type}.

Implicit Types (s : State Env) (a : Action Env) (t w h : nat) (job : Job Env)
  (p : pc Env).

(** A step that a thread takes itself is [Run], except the
    [notify_one] of line 46. *)
Lemma moves_Run s t p a s' :
  step s a = Ok s' -> moves t (Some a) = true -> pcs s !! t = Some p ->
  p <> Enq46 -> a = Run t.
Proof.
  intros H Hmv Hpc Hne. destruct a as [t' o|t'|t' w|t']; cbn in Hmv; try done.
  - apply Nat.eqb_eq in Hmv as <-. done.
  - apply Nat.eqb_eq in Hmv as <-. cbn [step] in H. unfold signal in H.
    rewrite Hpc in H. by destruct p.
Qed.

Lemma queueMutex_step s t p s' :
  step s (Run t) = Ok s' -> pcs s !! t = Some p -> holds_queueMutex p = true ->
  bailout s' = false ->
  queueMutex s' = None \/
  exists p', pcs s' !! t = Some p' /\ holds_queueMutex p' = true /\
             (queueMutex_rank p' < queueMutex_rank p)%nat.
Proof.
  intros H Hpc Hh Hb. destruct p; try discriminate Hh.
  all: thread_cases H Hpc; try (by left); try congruence.
  all: right; eexists; (split; [by eapply lookup_goto_eq|]); cbn; split; [done|lia].
Qed.

Lemma jobsLeftMutex_step s t p s' :
  step s (Run t) = Ok s' -> pcs s !! t = Some p -> holds_jobsLeftMutex p = true ->
  jobsLeftMutex s' = None \/
  exists p', pcs s' !! t = Some p' /\ holds_jobsLeftMutex p' = true /\
             (jobsLeftMutex_rank p' < jobsLeftMutex_rank p)%nat.
Proof.
  intros H Hpc Hh. destruct p; try discriminate Hh.
  all: thread_cases H Hpc; try (by left).
  all: right; eexists; (split; [by eapply lookup_goto_eq|]); cbn; split; [done|lia].
Qed.

Lemma app_neq_self {A} (l : list A) x : l ++ [x] <> l.
Proof.
  intros H. apply (f_equal length) in H. rewrite length_app in H. cbn in H. lia.
Qed.

(** An awake worker comes closer to the pop of line 108 with every step
    it takes, while there is work and no bailout. *)
Lemma fetch_step s w p s' :
  step s (Run w) = Ok s' -> pcs s !! w = Some p -> awake_worker p = true ->
  bailout s = false -> _queue s <> [] ->
  taken s' <> taken s \/
  exists p', pcs s' !! w = Some p' /\ awake_worker p' = true /\
             (fetch_rank p' < fetch_rank p)%nat.
Proof.
  intros H Hpc Ha Hb Hq. destruct p; try discriminate Ha.
  all: try match goal with k : caller |- _ => destruct k; try discriminate Ha end.
  all: thread_cases H Hpc; try congruence.
  all: try (left; apply app_neq_self).
  all: try (right; eexists; (split; [by eapply lookup_goto_eq|]); cbn;
            split; [done|lia]).
  all: try (right; eexists;
            (split; [apply list_lookup_insert_eq; rewrite length_map;
                     by eapply lookup_lt_Some|]); cbn; split; [done|lia]).
  all: bool_hyps; destruct (_queue s); cbn in *; try done; lia.
Qed.

End Ranks.

Section Liveness.

Context {Env : Type}.

Variables (n m : nat) (e0 : Env).
Variables (trace : nat -> State Env) (acts : nat -> option (Action Env)).

Hypothesis Hstart : reachable n m e0 (trace 0%nat).
Hypothesis Hrun : is_run trace acts.

Implicit Types (s : State Env) (a : Action Env) (t w h k : nat) (job : Job Env)
  (p : pc Env).

Lemma run_step k a : acts k = Some a -> step (trace k) a = Ok (trace (S k)).
Proof. intros H. pose proof (Hrun k) as Hk. by rewrite H in Hk. Qed.

Lemma run_reachable k : reachable n m e0 (trace k).
Proof.
  induction k as [|k IH]; [done|]. pose proof (Hrun k) as Hk.
  destruct (acts k) as [a|]; [by eapply reachable_step|by rewrite Hk].
Qed.

Lemma run_grows k k' :
  (k <= k')%nat ->
  appended (trace k) `prefix_of` appended (trace k') /\
  taken (trace k) `prefix_of` taken (trace k') /\
  executed (trace k) `prefix_of` executed (trace k') /\
  drained (trace k) `prefix_of` drained (trace k').
Proof.
  induction 1 as [|k' _ IH]; [done|]. pose proof (Hrun k') as Hk.
  destruct (acts k') as [a|]; [|by rewrite Hk].
  destruct (grows_step _ _ _ Hk) as (? & ? & ? & ?).
  destruct IH as (? & ? & ? & ?). split_and!; by etrans.
Qed.

(** A thread that is inside an operation stays where it is until it
    moves. *)
Lemma stays t p k k1 :
  pcs (trace k) !! t = Some p -> active p = true -> (k <= k1)%nat ->
  (forall j, (k <= j < k1)%nat -> moves t (acts j) = false) ->
  pcs (trace k1) !! t = Some p.
Proof.
  intros Hpc Hact Hle. induction Hle as [|k1 Hle IH]; intros Hno; [done|].
  pose proof (Hrun k1) as Hk. specialize (IH ltac:(intros; apply Hno; lia)).
  pose proof (Hno k1 ltac:(lia)) as Hk1.
  destruct (acts k1) as [a|]; [|by rewrite Hk].
  by eapply step_other.
Qed.

Lemma first_move t k' : forall k,
  (k <= k')%nat -> moves t (acts k') = true ->
  exists k1, (k <= k1 <= k')%nat /\ moves t (acts k1) = true /\
             forall j, (k <= j < k1)%nat -> moves t (acts j) = false.
Proof.
  intros k Hle Hm. remember (k' - k)%nat as d eqn:Hd.
  revert k Hle Hd. induction d as [|d IH]; intros k Hle Hd.
  - assert (k = k') as -> by lia. exists k'.
    split; [lia|]. split; [done|intros; lia].
  - destruct (moves t (acts k)) eqn:Hk.
    + exists k. split; [lia|]. split; [done|intros; lia].
    + destruct (IH (S k)) as (k1 & ? & ? & Hno); [lia..|].
      exists k1. split; [lia|]. split; [done|].
      intros j Hj. destruct (decide (j = k)) as [->|]; [done|apply Hno; lia].
Qed.

(** *** Fairness *)

Hypothesis Hfair : fair trace acts.
Hypothesis Hcalm : undisturbed trace.

Lemma moves_Some t k : moves t (acts k) = true -> exists a, acts k = Some a.
Proof. destruct (acts k); [eauto|done]. Qed.

(** A thread that would have a step to take again and again, if it
    stayed where it is, moves. *)
Lemma moves_eventually t p k :
  pcs (trace k) !! t = Some p -> active p = true ->
  (forall j, (k <= j)%nat -> pcs (trace j) !! t = Some p ->
     exists j', (j <= j')%nat /\
                (pcs (trace j') !! t = Some p -> enabled t (trace j'))) ->
  exists k1, (k <= k1)%nat /\ pcs (trace k1) !! t = Some p /\
             moves t (acts k1) = true.
Proof.
  intros Hpc Hact Hen.
  destruct (classic (exists k', (k <= k')%nat /\ moves t (acts k') = true))
    as [(k' & Hle & Hm)|Hnever].
  - destruct (first_move t k' k Hle Hm) as (k1 & ? & ? & Hno).
    exists k1. split; [lia|]. split; [|done]. by apply (stays t p k k1); [..|lia|].
  - assert (forall j, (k <= j)%nat -> moves t (acts j) = false) as Hno.
    { intros j Hj. destruct (moves t (acts j)) eqn:Hmj; [|done].
      exfalso. apply Hnever. eauto. }
    assert (forall j, (k <= j)%nat -> pcs (trace j) !! t = Some p) as Hstay.
    { intros j Hj. apply (stays t p k j); [done..|]. intros i Hi. apply Hno. lia. }
    destruct (Hfair t k) as (k' & Hle & Hm).
    { intros j Hj. destruct (Hen j Hj (Hstay j Hj)) as (j' & Hj' & Hena).
      exists j'. split; [done|]. apply Hena, Hstay. lia. }
    rewrite Hno in Hm by done. done.
Qed.

Lemma holds_queueMutex_active p :
  holds_queueMutex p = true ->
  active p = true /\ acquires_queueMutex p = false /\
  acquires_jobsLeftMutex p = false /\ p <> Enq46 /\ (1 <= queueMutex_rank p)%nat.
Proof. destruct p; try done; cbn; intros _; split_and!; (done || lia). Qed.

Lemma holds_jobsLeftMutex_active p :
  holds_jobsLeftMutex p = true ->
  active p = true /\ acquires_queueMutex p = false /\
  acquires_jobsLeftMutex p = false /\ p <> Enq46 /\
  (1 <= jobsLeftMutex_rank p)%nat.
Proof. destruct p; try done; cbn; intros _; split_and!; (done || lia). Qed.

(** The owner of a mutex releases it: no critical section waits for
    anything. *)
Lemma queueMutex_released r : forall k h p,
  pcs (trace k) !! h = Some p -> holds_queueMutex p = true ->
  (queueMutex_rank p <= r)%nat ->
  exists k', (k <= k')%nat /\ queueMutex (trace k') = None.
Proof.
  induction r as [|r IH]; intros k h p Hpc Hh Hr;
    destruct (holds_queueMutex_active p Hh) as (Hact & Hq & Hj & Hne & Hpos);
    [lia|].
  destruct (moves_eventually h p k Hpc Hact) as (k1 & Hle & Hpc1 & Hm).
  { intros j Hj' Hpcj. exists j. split; [done|]. intros _.
    destruct (Hcalm j) as (Hb & Hmax & Hret).
    eapply can_run; [apply (reachable_Inv n m), run_reachable|done..| |];
      congruence. }
  destruct (moves_Some _ _ Hm) as [a Ha]. pose proof (run_step _ _ Ha) as Hstep.
  rewrite Ha in Hm. pose proof (moves_Run _ _ _ _ _ Hstep Hm Hpc1 Hne) as ->.
  destruct (Hcalm (S k1)) as (Hb & _).
  destruct (queueMutex_step _ _ _ _ Hstep Hpc1 Hh Hb) as [Hfree|(p' & Hp' & Hh' & Hlt)].
  - exists (S k1). split; [lia|done].
  - destruct (IH (S k1) h p' Hp' Hh') as (k' & ? & ?); [lia|].
    exists k'. split; [lia|done].
Qed.

Lemma jobsLeftMutex_released r : forall k h p,
  pcs (trace k) !! h = Some p -> holds_jobsLeftMutex p = true ->
  (jobsLeftMutex_rank p <= r)%nat ->
  exists k', (k <= k')%nat /\ jobsLeftMutex (trace k') = None.
Proof.
  induction r as [|r IH]; intros k h p Hpc Hh Hr;
    destruct (holds_jobsLeftMutex_active p Hh) as (Hact & Hq & Hj & Hne & Hpos);
    [lia|].
  destruct (moves_eventually h p k Hpc Hact) as (k1 & Hle & Hpc1 & Hm).
  { intros j Hj' Hpcj. exists j. split; [done|]. intros _.
    destruct (Hcalm j) as (Hb & Hmax & Hret).
    eapply can_run; [apply (reachable_Inv n m), run_reachable|done..| |];
      congruence. }
  destruct (moves_Some _ _ Hm) as [a Ha]. pose proof (run_step _ _ Ha) as Hstep.
  rewrite Ha in Hm. pose proof (moves_Run _ _ _ _ _ Hstep Hm Hpc1 Hne) as ->.
  destruct (jobsLeftMutex_step _ _ _ _ Hstep Hpc1 Hh) as [Hfree|(p' & Hp' & Hh' & Hlt)].
  - exists (S k1). split; [lia|done].
  - destruct (IH (S k1) h p' Hp' Hh') as (k' & ? & ?); [lia|].
    exists k'. split; [lia|done].
Qed.

Lemma queueMutex_free_again k :
  exists k', (k <= k')%nat /\ queueMutex (trace k') = None.
Proof.
  destruct (queueMutex (trace k)) as [h|] eqn:Hm; [|by exists k].
  destruct (reachable_Inv _ _ _ _ (run_reachable k)) as [(_ & _ & HQ & _) _ _ _ _ _ _ _].
  destruct (HQ _ Hm) as (p & Hpc & Hh). by eapply queueMutex_released.
Qed.

Lemma jobsLeftMutex_free_again k :
  exists k', (k <= k')%nat /\ jobsLeftMutex (trace k') = None.
Proof.
  destruct (jobsLeftMutex (trace k)) as [h|] eqn:Hm; [|by exists k].
  destruct (reachable_Inv _ _ _ _ (run_reachable k)) as [(_ & _ & _ & HJ) _ _ _ _ _ _ _].
  destruct (HJ _ Hm) as (p & Hpc & Hh). by eapply jobsLeftMutex_released.
Qed.

(** Every thread that is inside an operation and not waiting moves. *)
Lemma eventually_moves t p k :
  pcs (trace k) !! t = Some p -> active p = true ->
  exists k1, (k <= k1)%nat /\ pcs (trace k1) !! t = Some p /\
             moves t (acts k1) = true.
Proof.
  intros Hpc Hact. apply moves_eventually; [done..|]. intros j Hj Hpcj.
  assert (forall j', pcs (trace j') !! t = Some p ->
            (acquires_queueMutex p = true -> queueMutex (trace j') = None) ->
            (acquires_jobsLeftMutex p = true -> jobsLeftMutex (trace j') = None) ->
            enabled t (trace j')) as Hcan.
  { intros j' Hpc' Hq' Hj'. destruct (Hcalm j') as (Hb & Hmax & Hret).
    eapply can_run; [apply (reachable_Inv n m), run_reachable|done..]. }
  destruct (acquires_queueMutex p) eqn:Hq.
  - destruct (queueMutex_free_again j) as (j' & ? & Hfree).
    exists j'. split; [done|]. intros Hpc'. apply Hcan; [done..|].
    intros Hj'. by destruct p.
  - destruct (acquires_jobsLeftMutex p) eqn:Hjl.
    + destruct (jobsLeftMutex_free_again j) as (j' & ? & Hfree).
      exists j'. split; [done|]. intros Hpc'. by apply Hcan.
    + exists j. split; [done|]. intros Hpc'. by apply Hcan.
Qed.

(** A job in the hands of a worker is executed. *)
Lemma job_called w job k :
  pcs (trace k) !! w = Some (Next112 job) ->
  exists k', (k <= k')%nat /\ job ∈ executed (trace k').
Proof.
  intros Hpc. destruct (eventually_moves w _ k Hpc eq_refl) as (k1 & Hle & Hpc1 & Hm).
  destruct (moves_Some _ _ Hm) as [a Ha]. pose proof (run_step _ _ Ha) as Hstep.
  rewrite Ha in Hm.
  pose proof (moves_Run _ _ _ _ _ Hstep Hm Hpc1 ltac:(done)) as ->.
  exists (S k1). split; [lia|].
  pose proof Hstep as H. thread_cases H Hpc1. rewrite elem_of_app, list_elem_of_singleton.
  by right.
Qed.

Lemma awake_worker_active p :
  awake_worker p = true -> active p = true /\ p <> Enq46 /\ (1 <= fetch_rank p)%nat.
Proof. destruct p; try done; cbn; intros _; split_and!; (done || lia). Qed.

Lemma worker_awake_if_nobody_blocked s :
  Inv n e0 s -> bailout s = false -> (1 <= n)%nat ->
  existsb is_blocked_worker (pcs s) = false ->
  exists p, pcs s !! 0%nat = Some p /\ awake_worker p = true.
Proof.
  intros Hinv Hb Hn Hany.
  destruct (inv_role _ _ _ Hinv) as (_ & Hlen & Hrole).
  destruct (inv_join _ _ _ Hinv) as (_ & _ & Hex & _).
  destruct (lookup_lt_is_Some_2 (pcs s) 0%nat) as [p0 Hp0]; [lia|].
  exists p0. split; [done|].
  assert (worker_pc p0 = true) as Hw
    by (rewrite (Hrole _ _ Hp0); apply Nat.ltb_lt; lia).
  destruct p0; try discriminate Hw; try done; try (by destruct k).
  - exfalso. by eapply nobody_blocked.
  - pose proof (Hex _ Hp0). congruence.
Qed.

(** While there is work, some worker is awake before long. *)
Lemma awake_exists k :
  (1 <= n)%nat -> _queue (trace k) <> [] ->
  exists k1 w p, (k <= k1)%nat /\ pcs (trace k1) !! w = Some p /\
                 awake_worker p = true.
Proof.
  intros Hn Hq. pose proof (run_reachable k) as Hr.
  pose proof (reachable_Inv _ _ _ _ Hr) as Hinv.
  destruct (reachable_notice _ _ _ _ Hr) as [Hwork _].
  destruct (Hcalm k) as (Hb & _).
  destruct (existsb is_blocked_worker (pcs (trace k))) eqn:Hany.
  - apply somebody_blocked in Hany as [w0 Hw0].
    destruct (Hwork (ex_intro _ w0 Hw0) Hq Hb) as (t & p & Hp & Hnot).
    destruct (awake_worker p) eqn:Hawake; [by exists k, t, p|].
    assert (p = Enq46) as -> by (destruct p; cbn in Hnot, Hawake; congruence).
    destruct (eventually_moves t _ k Hp eq_refl) as (k1 & Hle & Hpc1 & Hm).
    destruct (moves_Some _ _ Hm) as [a Ha]. pose proof (run_step _ _ Ha) as Hstep.
    rewrite Ha in Hm. destruct a as [t' o|t'|t' w|t']; cbn in Hm; try done;
      apply Nat.eqb_eq in Hm as <-.
    + (* nobody is waiting *)
      pose proof Hstep as H. cbn [step] in H. unfold run in H.
      rewrite Hpc1 in H. cbn [enqueue] in H.
      destruct (existsb is_blocked_worker (pcs (trace k1))) eqn:Hany1; [done|].
      destruct (Hcalm k1) as (Hb1 & _).
      destruct (worker_awake_if_nobody_blocked (trace k1)) as (p0 & ? & ?);
        [apply (reachable_Inv n m), run_reachable|done..|].
      exists k1, 0%nat, p0. done.
    + (* the notify_one wakes a worker *)
      pose proof Hstep as H. cbn [step] in H. unfold signal in H.
      rewrite Hpc1 in H.
      destruct (pcs (trace k1) !! w) as [[]|] eqn:Hw; try done.
      injection H as H. exists (S k1), w, Next100_woken.
      split; [lia|]. split; [|done]. rewrite <- H. simpl_state.
      rewrite list_lookup_insert_ne by (intros ->; congruence).
      by eapply lookup_goto_eq.
  - destruct (worker_awake_if_nobody_blocked (trace k)) as (p0 & ? & ?); [done..|].
    exists k, 0%nat, p0. done.
Qed.

(** If no job left the queue any more, an awake worker would reach line
    108 and take one. *)
Lemma worker_fetches k r : forall k1 w p,
  (forall k', (k <= k')%nat -> taken (trace k') = taken (trace k)) ->
  (forall k', (k <= k')%nat -> _queue (trace k') <> []) ->
  (k <= k1)%nat -> pcs (trace k1) !! w = Some p -> awake_worker p = true ->
  (fetch_rank p <= r)%nat -> False.
Proof.
  induction r as [|r IH]; intros k1 w p Hst Hq Hle Hpc Ha Hr;
    destruct (awake_worker_active p Ha) as (Hact & Hne & Hpos); [lia|].
  destruct (eventually_moves w p k1 Hpc Hact) as (k2 & Hle2 & Hpc2 & Hm).
  destruct (moves_Some _ _ Hm) as [a Hact2]. pose proof (run_step _ _ Hact2) as Hstep.
  rewrite Hact2 in Hm. pose proof (moves_Run _ _ _ _ _ Hstep Hm Hpc2 Hne) as ->.
  destruct (Hcalm k2) as (Hb & _).
  destruct (fetch_step _ _ _ _ Hstep Hpc2 Ha Hb (Hq k2 ltac:(lia)))
    as [Htaken|(p' & Hp' & Ha' & Hlt)].
  - apply Htaken. rewrite (Hst (S k2)), (Hst k2) by lia. done.
  - apply (IH (S k2) w p'); [done..|lia|done|done|lia].
Qed.

(** While there is work, a job leaves the queue before long. *)
Lemma pop_progress k :
  (1 <= n)%nat -> _queue (trace k) <> [] ->
  exists k', (k <= k')%nat /\
             (length (taken (trace k)) < length (taken (trace k')))%nat.
Proof.
  intros Hn Hq. apply NNPP. intros Hnone.
  assert (forall k', (k <= k')%nat -> taken (trace k') = taken (trace k)) as Hst.
  { intros k' Hle. destruct (run_grows k k' Hle) as (_ & Hpre & _).
    symmetry. apply prefix_length_eq; [done|].
    destruct (decide (length (taken (trace k')) <= length (taken (trace k)))%nat);
      [done|]. exfalso. apply Hnone. exists k'. split; [done|lia]. }
  assert (forall k', (k <= k')%nat -> _queue (trace k') <> []) as Hqs.
  { intros k' Hle Hnil. destruct (run_grows k k' Hle) as (Hpre & _).
    apply prefix_length in Hpre.
    destruct (inv_ledger _ _ _ (reachable_Inv _ _ _ _ (run_reachable k)))
      as (Hfifo & _).
    destruct (inv_ledger _ _ _ (reachable_Inv _ _ _ _ (run_reachable k')))
      as (Hfifo' & _).
    rewrite Hfifo, Hfifo', Hnil, (Hst k' Hle), !length_app in Hpre.
    destruct (_queue (trace k)); [done|]. cbn in Hpre. lia. }
  destruct (awake_exists k Hn Hq) as (k1 & w & p & Hle & Hpc & Ha).
  by apply (worker_fetches k (fetch_rank p) k1 w p).
Qed.

(** Every job emplaced so far leaves the queue. *)
Lemma taken_covers d : forall k,
  (1 <= n)%nat ->
  (length (appended (trace 0%nat)) - length (taken (trace k)) <= d)%nat ->
  exists k', (length (appended (trace 0%nat)) <= length (taken (trace k')))%nat.
Proof.
  induction d as [|d IH]; intros k Hn Hd; [exists k; lia|].
  destruct (decide (length (appended (trace 0%nat)) <= length (taken (trace k)))%nat);
    [by exists k|].
  assert (_queue (trace k) <> []) as Hq.
  { intros Hnil. destruct (run_grows 0 k ltac:(lia)) as (Hpre & _).
    apply prefix_length in Hpre.
    destruct (inv_ledger _ _ _ (reachable_Inv _ _ _ _ (run_reachable k)))
      as (Hfifo & _).
    rewrite Hfifo, Hnil, length_app in Hpre. cbn in Hpre. lia. }
  destruct (pop_progress k Hn Hq) as (k' & Hle & Hlt).
  apply (IH k'); [done|lia].
Qed.

Lemma prefix_of_app_length {A} (l t q : list A) :
  l `prefix_of` t ++ q -> (length l <= length t)%nat -> l `prefix_of` t.
Proof.
  intros [x Hx] Hlen. exists (take (length t - length l) x).
  apply (f_equal (take (length t))) in Hx.
  rewrite take_app_length in Hx. rewrite Hx at 1.
  by rewrite take_app_ge by lia.
Qed.

(** In a fair and undisturbed run of a pool with a worker, a job that
    has been emplaced is executed or drained. *)
Lemma job_settled job :
  (1 <= n)%nat -> job ∈ appended (trace 0%nat) -> exists k, settled (trace k) job.
Proof.
  intros Hn Hjob. destruct (taken_covers _ 0%nat Hn (Nat.le_refl _)) as (k & Hk).
  destruct (run_grows 0 k ltac:(lia)) as (Hpre & _).
  destruct (inv_ledger _ _ _ (reachable_Inv _ _ _ _ (run_reachable k)))
    as (Hfifo & Hperm & _).
  rewrite Hfifo in Hpre. apply prefix_of_app_length in Hpre; [|done].
  destruct Hpre as [x Hx].
  assert (job ∈ taken (trace k)) as Hin by (rewrite Hx, elem_of_app; by left).
  rewrite Hperm, !elem_of_app, elem_of_running in Hin.
  destruct Hin as [[w Hw]|[He|Hd]].
  - destruct (job_called w job k Hw) as (k' & _ & He). exists k'. by left.
  - exists k. by left.
  - exists k. by right.
Qed.

End Liveness.

Section Settled.

Context {Env : Type}.

Implicit Types (s : State Env) (a : Action Env) (t w h k : nat) (job : Job Env)
  (p : pc Env).

(** A job that [enqueue] has emplaced is in exactly one place. *)
Lemma job_ledger n m e0 s job :
  reachable n m e0 s -> job ∈ appended s ->
  (job ∈ _queue s \/ (exists w, pcs s !! w = Some (Next112 job)) \/
   job ∈ executed s \/ job ∈ drained s) /\
  NoDup (_queue s ++ flat_map running (pcs s) ++ executed s ++ drained s).
Proof.
  intros Hr Hjob.
  destruct (reachable_Inv _ _ _ _ Hr) as [_ _ _ Hledger _ _ _ _].
  destruct (ledger_partition s Hledger) as [Hperm Hnd]. split; [|done].
  rewrite Hperm in Hjob. rewrite !elem_of_app, elem_of_running in Hjob. tauto.
Qed.

(** A job in the hands of a worker stays there until it is executed. *)
Lemma running_step s a s' job :
  step s a = Ok s' -> (exists w, pcs s !! w = Some (Next112 job)) ->
  (exists w, pcs s' !! w = Some (Next112 job)) \/ job ∈ executed s'.
Proof.
  intros H [w Hw]. destruct (moves w (Some a)) eqn:Hm.
  - pose proof (moves_Run _ _ _ _ _ H Hm Hw ltac:(done)) as ->.
    right. thread_cases H Hw. rewrite elem_of_app, list_elem_of_singleton. by right.
  - left. exists w. by eapply step_other.
Qed.

Lemma running_kept n m e0 trace acts job k k' :
  reachable n m e0 (trace 0%nat) -> is_run trace acts -> (k <= k')%nat ->
  (exists w, pcs (trace k) !! w = Some (Next112 job)) ->
  (exists w, pcs (trace k') !! w = Some (Next112 job)) \/ job ∈ executed (trace k').
Proof.
  intros Hstart Hrun Hle Hw. induction Hle as [|k' Hle IH]; [by left|].
  pose proof (Hrun k') as Hk. destruct (acts k') as [a|]; [|by rewrite Hk].
  destruct IH as [IH|IH]; [by eapply running_step|].
  right. destruct (grows_step _ _ _ Hk) as (_ & _ & Hex & _).
  destruct Hex as [x ->]. rewrite elem_of_app. by left.
Qed.

Lemma not_both (l1 l2 l3 l4 : list (Job Env)) job :
  NoDup (l1 ++ l2 ++ l3 ++ l4) ->
  (job ∈ l2 \/ job ∈ l3) -> job ∈ l4 -> False.
Proof.
  intros Hnd Hin H4. apply NoDup_app in Hnd as (_ & _ & Hnd).
  apply NoDup_app in Hnd as (_ & H2 & Hnd).
  apply NoDup_app in Hnd as (_ & H3 & _).
  destruct Hin as [Hin|Hin].
  - apply (H2 _ Hin). rewrite elem_of_app. by right.
  - by apply (H3 _ Hin).
Qed.

(** Without workers no job is taken by a worker. *)
Lemma no_worker_no_run m (e0 : Env) s :
  reachable 0 m e0 s -> executed s = [] /\ flat_map running (pcs s) = [].
Proof.
  intros Hr. pose proof (reachable_Inv _ _ _ _ Hr) as Hinv. split.
  - destruct Hr as [l Hl].
    eapply (executed_empty_exec l (init 0 m e0)); [apply Inv_init|done..].
  - apply flat_map_nil_all. intros t p Hp.
    destruct (inv_role _ _ _ Hinv) as (_ & _ & Hrole).
    pose proof (Hrole _ _ Hp) as Hw. by destruct p.
Qed.

(** A thread that is not inside an operation, or waits, has no step to
    take. *)
Lemma at_rest_not_enabled s t : at_rest s = true -> ~ enabled t s.
Proof.
  unfold at_rest. rewrite forallb_forall. intros Hrest.
  assert (forall p, pcs s !! t = Some p -> active p = false) as Hp.
  { intros p Hp. apply negb_true_iff, Hrest, list_elem_of_In.
    by eapply list_elem_of_lookup_2. }
  intros [[s' H]|(w & s' & H)]; cbn [step] in H.
  - unfold run in H. destruct (pcs s !! t) as [p|]; [|done].
    pose proof (Hp p eq_refl). by destruct p.
  - unfold signal in H. destruct (pcs s !! t) as [p|]; [|done].
    pose proof (Hp p eq_refl). by destruct p.
Qed.

Lemma calm_spec s :
  calm s = true ->
  bailout s = false /\ jobsLeft s < INT_MAX /\ jobs_return s.
Proof.
  unfold calm. rewrite !andb_true_iff, negb_true_iff, Z.ltb_lt, forallb_forall.
  intros [[Hb Hmax] Hall]. split_and!; [done..|].
  intros w job Hw. apply list_elem_of_lookup_2, list_elem_of_In, Hall in Hw.
  by destruct (body job (env s)).
Qed.

(** *** The run that follows a schedule and then rests *)

Lemma exec_final s l : is_Ok (exec s l) = true -> exec s l = Ok (final (exec s l) s).
Proof. by destruct (exec s l). Qed.

Lemma exec_take s l k : is_Ok (exec s l) = true -> is_Ok (exec s (take k l)) = true.
Proof.
  intros H. rewrite <- (take_drop k l), exec_app in H.
  by destruct (exec s (take k l)).
Qed.

Lemma run_of_is_run s l :
  is_Ok (exec s l) = true -> is_run (run_of s l) (acts_of l).
Proof.
  intros Hok k. unfold run_of, acts_of.
  destruct (l !! k) as [a|] eqn:Ha.
  - rewrite (take_S_r _ _ _ Ha).
    pose proof (exec_take s l (S k) Hok) as Hk.
    rewrite (take_S_r _ _ _ Ha), exec_app in Hk. rewrite exec_app.
    destruct (exec s (take k l)) as [s1| | | |]; try done. cbn in *.
    by destruct (step s1 a).
  - apply lookup_ge_None in Ha. by rewrite !take_ge by lia.
Qed.

Lemma run_of_end s l k :
  (length l <= k)%nat -> run_of s l k = run_of s l (length l).
Proof. intros Hk. unfold run_of. by rewrite !take_ge by lia. Qed.

Lemma run_of_fair s l :
  at_rest (run_of s l (length l)) = true -> fair (run_of s l) (acts_of l).
Proof.
  intros Hrest t k Hen. destruct (Hen (k + length l)%nat) as (j' & Hj' & Hena); [lia|].
  rewrite run_of_end in Hena by lia. by apply at_rest_not_enabled in Hena.
Qed.

Lemma run_of_undisturbed s l :
  forallb (fun k => calm (run_of s l k)) (seq 0 (S (length l))) = true ->
  undisturbed (run_of s l).
Proof.
  rewrite forallb_forall. intros Hall k.
  destruct (decide (k <= length l)%nat).
  - apply calm_spec, Hall, in_seq. lia.
  - rewrite run_of_end by lia. apply calm_spec, Hall, in_seq. lia.
Qed.

End Settled.


(** ** The theorems at the scenarios of the test suite *)

(** Evaluation of a scenario.  The callables of the jobs stay as they
    are written: the conversion [to_int] inside them is not unfolded
    under their binder. *)
Ltac compute_scenario :=
  cbv delta [cancel_state cancel_schedule swapped_state finished_state
             after_cancel_schedule no_worker_state no_worker_schedule
             teardown_state teardown_schedule failing_job_state
             failing_job_schedule single_user_state single_user_schedule
             waiting_state waiting_schedule two_waiters_state
             two_waiters_schedule at_line_119 at_line_124 at_line_129
             at_line_38 at_line_38_schedule at_line_108 at_line_108_schedule
             emplaced_state emplaced_schedule
             Enqueuer dataSet_C Job_call adder];
  generalize to_int; intro; vm_compute.



Lemma jobsLeft_counts_pending_and_running_witness :
  reachable 1 1 0 cancel_state /\
  0 <= jobsLeft cancel_state /\
  Z.of_nat (length (_queue cancel_state)) <= jobsLeft cancel_state.
Proof.
  assert (reachable 1 1 0 cancel_state) as Hr
    by (exists cancel_schedule; compute_scenario; reflexivity).
  split; [exact Hr|].
  exact (proj1 (jobsLeft_counts_pending_and_running 1 1 0 cancel_state Hr)).
Defined.

Lemma cancelPending_detaches_the_whole_queue_witness :
  reachable 0 1 0 no_worker_state /\
  exists s', exec no_worker_state (cancelPending_steps 0 2) = Ok s' /\
             pcs s' !! 0%nat = Some (Idle (Some 2%nat)) /\
             _queue s' = [] /\ jobsLeft s' = 0.
Proof.
  assert (reachable 0 1 0 no_worker_state) as Hr
    by (exists no_worker_schedule; compute_scenario; reflexivity).
  split; [exact Hr|].
  destruct (proj2 (proj2 (proj2 (proj2
              (cancelPending_detaches_the_whole_queue 0 1 0 no_worker_state Hr))))
              0%nat None)
    as (s' & Hrun & Hpc & Hq & _ & Hj & _);
    [compute_scenario; reflexivity..|].
  exists s'. split_and!; [exact Hrun|exact Hpc|exact Hq|].
  rewrite Hj. compute_scenario. reflexivity.
Defined.

Lemma waitAll_returns_only_at_zero_witness :
  reachable 1 1 0 (init 1 1 0) /\
  exec (init 1 1 0) [Call 1 WaitAll; Run 1; Run 1]
  = Ok (goto 1 (Idle None) (init 1 1 0)).
Proof.
  assert (reachable 1 1 0 (init 1 1 0)) as Hr by (exists []; reflexivity).
  split; [exact Hr|].
  apply (proj1 (proj2 (proj2
           (waitAll_returns_only_at_zero 1 1 0 (init 1 1 0) Hr))) 1%nat None);
    vm_compute; reflexivity.
Defined.

Lemma nextJob_checks_bailout_around_wait_witness :
  reachable 1 1 0 cancel_state /\
  pcs cancel_state !! 0%nat = Some (Next112 (mkJob 0 (Job_call (mkJobData 1 3)))) /\
  queueMutex cancel_state <> Some 0%nat /\
  jobsLeftMutex cancel_state <> Some 0%nat.
Proof.
  assert (reachable 1 1 0 cancel_state) as Hr
    by (exists cancel_schedule; compute_scenario; reflexivity).
  assert (pcs cancel_state !! 0%nat
          = Some (Next112 (mkJob 0 (Job_call (mkJobData 1 3))))) as Hpc
    by (compute_scenario; reflexivity).
  split_and!; [exact Hr|exact Hpc|..];
    apply (proj1 (nextJob_checks_bailout_around_wait 1 1 0 cancel_state 0 _
                    Hr Hpc eq_refl) _ eq_refl).
Defined.


Lemma cancelPending_count_and_expected_total_witness :
  reachable 1 1 0 cancel_state /\
  JobDataSet_wf dataSet_C /\
  expectedTotal dataSet_C 2 = Returns 1 /\
  env finished_state = 1.
Proof.
  assert (reachable 1 1 0 cancel_state) as Hr
    by (exists cancel_schedule; compute_scenario; reflexivity).
  assert (JobDataSet_wf dataSet_C) as Hwf
    by (split; [compute_scenario; discriminate|repeat constructor]).
  assert (expectedTotal dataSet_C 2 = Returns 1) as Hret
    by (compute_scenario; reflexivity).
  split_and!; [exact Hr|exact Hwf|exact Hret|].
  refine (proj1 (proj2 (proj2 (proj2 (proj2 (proj2 (proj2
            (proj2 (cancelPending_count_and_expected_total 1 1 cancel_state Hr)
               1%nat swapped_state after_cancel_schedule finished_state dataSet_C
               _ _ _ _ _ Hwf _ _))))))) 1 Hret);
    compute_scenario; reflexivity.
Defined.

Lemma assertions_never_fail_witness :
  pcs swapped_state !! 1%nat = Some (Can61 (_queue cancel_state)) /\
  step swapped_state (Run 1) <> AssertFailed /\
  pcs at_line_119 !! 1%nat = Some (Fin119 2 (FromCancel 2)) /\
  step at_line_119 (Run 1) <> AssertFailed /\
  pcs at_line_124 !! 1%nat = Some (Fin124 2 (FromCancel 2)) /\
  step at_line_124 (Run 1) <> AssertFailed /\
  pcs at_line_129 !! 1%nat = Some (Fin129 1 (FromCancel 2)) /\
  step at_line_129 (Run 1) <> AssertFailed.
Proof.
  assert (reachable 1 1 0 swapped_state) as Hr62
    by (exists (cancel_schedule ++ [Run 1]); compute_scenario; reflexivity).
  assert (reachable 1 1 0 at_line_119) as Hr119
    by (exists (cancel_schedule ++ [Run 1; Run 1]); compute_scenario; reflexivity).
  assert (reachable 1 1 0 at_line_124) as Hr124
    by (exists (cancel_schedule ++ [Run 1; Run 1; Run 1; Run 1]);
        compute_scenario; reflexivity).
  assert (reachable 1 1 0 at_line_129) as Hr129
    by (exists (cancel_schedule ++ [Run 1; Run 1; Run 1; Run 1; Run 1]);
        compute_scenario; reflexivity).
  split_and!.
  - compute_scenario. reflexivity.
  - exact (proj1 (assertions_never_fail 1 1 0 swapped_state (Run 1) Hr62)).
  - compute_scenario. reflexivity.
  - exact (proj1 (assertions_never_fail 1 1 0 at_line_119 (Run 1) Hr119)).
  - compute_scenario. reflexivity.
  - exact (proj1 (assertions_never_fail 1 1 0 at_line_124 (Run 1) Hr124)).
  - compute_scenario. reflexivity.
  - exact (proj1 (assertions_never_fail 1 1 0 at_line_129 (Run 1) Hr129)).
Defined.


Lemma mutexes_are_exclusive_witness :
  reachable 1 1 0 cancel_state /\
  queueMutex cancel_state = Some 1%nat /\
  jobsLeftMutex cancel_state <> Some 1%nat.
Proof.
  assert (reachable 1 1 0 cancel_state) as Hr
    by (exists cancel_schedule; compute_scenario; reflexivity).
  assert (queueMutex cancel_state = Some 1%nat) as Hm by (compute_scenario; reflexivity).
  split_and!; [exact Hr|exact Hm|].
  exact (proj2 (proj2 (mutexes_are_exclusive 1 1 0 cancel_state Hr)) 1%nat Hm).
Defined.

Lemma critical_sections_are_short_witness :
  reachable 1 1 0 cancel_state /\
  exists k s', (1 <= k <= 4)%nat /\
    exec cancel_state (replicate k (Run 1)) = Ok s' /\ queueMutex s' = None.
Proof.
  assert (reachable 1 1 0 cancel_state) as Hr
    by (exists cancel_schedule; compute_scenario; reflexivity).
  assert (queueMutex cancel_state = Some 1%nat) as Hm by (compute_scenario; reflexivity).
  split; [exact Hr|].
  exact (proj1 (critical_sections_are_short 1 1 0 cancel_state 1 Hr) Hm).
Defined.

Lemma no_undefined_behaviour_below_INT_MAX_witness :
  pcs at_line_38 !! 1%nat = Some (Enq38 (mkJob 0 (adder 2))) /\
  jobsLeft at_line_38 < INT_MAX /\
  step at_line_38 (Run 1) <> Undefined /\
  pcs at_line_108 !! 0%nat = Some Next108 /\
  jobsLeft at_line_108 < INT_MAX /\
  step at_line_108 (Run 0) <> Undefined.
Proof.
  assert (reachable 1 1 0 at_line_38) as Hr38
    by (exists at_line_38_schedule; compute_scenario; reflexivity).
  assert (reachable 1 1 0 at_line_108) as Hr108
    by (exists at_line_108_schedule; compute_scenario; reflexivity).
  assert (jobsLeft at_line_38 < INT_MAX) as Hlt38 by (compute_scenario; reflexivity).
  assert (jobsLeft at_line_108 < INT_MAX) as Hlt108 by (compute_scenario; reflexivity).
  split_and!.
  - compute_scenario. reflexivity.
  - exact Hlt38.
  - exact (no_undefined_behaviour_below_INT_MAX 1 1 0 at_line_38 _ Hr38 Hlt38).
  - compute_scenario. reflexivity.
  - exact Hlt108.
  - exact (no_undefined_behaviour_below_INT_MAX 1 1 0 at_line_108 _ Hr108 Hlt108).
Defined.

Lemma queue_is_first_in_first_out_witness :
  reachable 1 1 0 cancel_state /\
  appended cancel_state = taken cancel_state ++ _queue cancel_state.
Proof.
  assert (reachable 1 1 0 cancel_state) as Hr
    by (exists cancel_schedule; compute_scenario; reflexivity).
  split; [exact Hr|].
  exact (proj1 (queue_is_first_in_first_out 1 1 0 cancel_state Hr)).
Defined.

Lemma jobsLeft_is_zero_iff_nothing_is_left_witness :
  reachable 1 1 0 single_user_state /\ jobsLeft single_user_state = 0 /\
  _queue single_user_state = [].
Proof.
  assert (reachable 1 1 0 single_user_state) as Hr
    by (exists single_user_schedule; compute_scenario; reflexivity).
  assert (jobsLeft single_user_state = 0) as Hz by (compute_scenario; reflexivity).
  split_and!; [exact Hr|exact Hz|].
  exact (proj1 (proj1 (proj2
           (jobsLeft_is_zero_iff_nothing_is_left 1 1 0 single_user_state Hr)) Hz)).
Defined.

Lemma total_without_cancellation_witness :
  reachable 1 1 0 single_user_state /\
  executed single_user_state ≡ₚ appended single_user_state /\
  expectedTotal_sets [dataSet_C] = Returns 9 /\
  env single_user_state = 9.
Proof.
  assert (reachable 1 1 0 single_user_state) as Hr
    by (exists single_user_schedule; compute_scenario; reflexivity).
  assert (expectedTotal_sets [dataSet_C] = Returns 9) as Hret
    by (compute_scenario; reflexivity).
  destruct (total_without_cancellation 1 1 single_user_state [dataSet_C] Hr)
    as (Hex & _ & Htotal & _).
  - repeat constructor. vm_compute. discriminate.
  - compute_scenario; reflexivity.
  - compute_scenario; reflexivity.
  - compute_scenario; reflexivity.
  - split_and!; [exact Hr|exact Hex|exact Hret|exact (Htotal 9 Hret)].
Defined.

Lemma pool_without_workers_runs_nothing_witness :
  reachable 0 1 0 no_worker_state /\
  executed no_worker_state = [] /\ env no_worker_state = 0.
Proof.
  assert (reachable 0 1 0 no_worker_state) as Hr
    by (exists no_worker_schedule; compute_scenario; reflexivity).
  split; [exact Hr|].
  destruct (pool_without_workers_runs_nothing 1 0 no_worker_state Hr)
    as (He & Henv & _).
  split; [exact He|exact Henv].
Defined.

Lemma workers_stay_until_bailout_witness :
  reachable 1 1 0 cancel_state /\
  exists p, pcs cancel_state !! 0%nat = Some p /\ worker_pc p = true /\ p <> Exited.
Proof.
  assert (reachable 1 1 0 cancel_state) as Hr
    by (exists cancel_schedule; compute_scenario; reflexivity).
  assert (bailout cancel_state = false) as Hb by (compute_scenario; reflexivity).
  split; [exact Hr|].
  apply (proj2 (proj2 (proj2 (workers_stay_until_bailout 1 1 0 cancel_state Hr))) Hb).
  lia.
Defined.

Lemma pending_work_is_noticed_witness :
  reachable 1 1 0 cancel_state /\ _queue cancel_state <> [] /\
  ((exists t, pcs cancel_state !! t = Some Enq46) \/
   (exists w p, (w < 1)%nat /\ pcs cancel_state !! w = Some p /\
                awake_worker p = true)).
Proof.
  assert (reachable 1 1 0 cancel_state) as Hr
    by (exists cancel_schedule; compute_scenario; reflexivity).
  assert (_queue cancel_state <> []) as Hq by (compute_scenario; discriminate).
  assert (bailout cancel_state = false) as Hb by (compute_scenario; reflexivity).
  split_and!; [exact Hr|exact Hq|].
  apply (proj1 (pending_work_is_noticed 1 1 0 cancel_state Hr) Hq Hb). lia.
Defined.

Lemma enqueue_loses_no_job_witness :
  reachable 1 1 0 cancel_state /\
  map ticket (appended cancel_state) ≡ₚ seq 0 (tickets cancel_state).
Proof.
  assert (reachable 1 1 0 cancel_state) as Hr
    by (exists cancel_schedule; compute_scenario; reflexivity).
  split; [exact Hr|].
  apply (proj2 (enqueue_loses_no_job 1 1 0 cancel_state Hr)).
  intros [|[|t]] p; compute_scenario; intros Hp;
    [injection Hp as <-; reflexivity..|discriminate Hp].
Defined.

Lemma expectedTotal_of_canceled_witness :
  JobDataSet_wf dataSet_C /\
  expectedTotal dataSet_C 4294967298 = expectedTotal dataSet_C 2 /\
  expectedTotal dataSet_C 2 = Returns 1 /\
  1 + sum_of_summands (drop (length dataSet_C - N.to_nat 2) dataSet_C)
  = sum_of_summands dataSet_C.
Proof.
  assert (JobDataSet_wf dataSet_C) as Hwf
    by (split; [vm_compute; discriminate|repeat constructor]).
  assert (expectedTotal dataSet_C 2 = Returns 1) as Hret
    by (vm_compute; reflexivity).
  split_and!; [exact Hwf| |exact Hret|].
  - exact (proj1 (proj2 (expectedTotal_of_canceled dataSet_C 2))).
  - refine (proj2 (proj2 (proj2 (proj2
              (proj2 (proj2 (expectedTotal_of_canceled dataSet_C 2)) Hwf _)))
               1 Hret)).
    vm_compute. discriminate.
Defined.

Lemma teardown_of_an_idle_pool_completes_witness :
  reachable 2 1 0 idle_state /\
  exists s', exec idle_state (teardown_steps 2 2) = Ok s' /\
    pcs s' !! 2%nat = Some (Idle None) /\ bailout s' = true /\
    (forall w, (w < 2)%nat ->
       pcs s' !! w = Some Exited /\ threads s' !! w = Some false).
Proof.
  assert (reachable 2 1 0 idle_state) as Hr
    by (exists idle_schedule; vm_compute; reflexivity).
  split; [exact Hr|].
  destruct (teardown_of_an_idle_pool_completes 2 1 0 idle_state 2 None Hr)
    as (s' & Hrun & Hpc & Hb & Hw & _).
  - vm_compute; reflexivity.
  - vm_compute; reflexivity.
  - intros [|[|w]] Hw; [vm_compute; reflexivity..|lia].
  - vm_compute; reflexivity.
  - exists s'. split_and!; [exact Hrun|exact Hpc|exact Hb|exact Hw].
Defined.


Lemma enqueue_wakes_a_waiting_worker_witness :
  reachable 2 1 0 idle_state /\
  exists s', exec idle_state (cycle_steps 0 2 (adder 4)) = Ok s' /\
    pcs s' !! 0%nat = Some Next100_blocked /\ env s' = 4 /\
    jobsLeft s' = jobsLeft idle_state.
Proof.
  assert (reachable 2 1 0 idle_state) as Hr
    by (exists idle_schedule; vm_compute; reflexivity).
  split; [exact Hr|].
  destruct (enqueue_wakes_a_waiting_worker 2 1 0 idle_state 2 0 None (adder 4) 4 Hr)
    as (s' & Hrun & _ & Hw & _ & _ & _ & _ & _ & Hjl & _ & Henv).
  - vm_compute; reflexivity.
  - vm_compute; reflexivity.
  - vm_compute; reflexivity.
  - vm_compute; reflexivity.
  - vm_compute; reflexivity.
  - vm_compute; reflexivity.
  - vm_compute; reflexivity.
  - intros [|[|[|t]]]; vm_compute; discriminate.
  - vm_compute; reflexivity.
  - exists s'. split_and!; [exact Hrun|exact Hw|exact Henv|exact Hjl].
Defined.

Lemma spurious_wakeups_change_nothing_witness :
  exec idle_state (spurious_steps 0) = Ok idle_state /\
  exec waiting_state (spurious_steps 1) = Ok waiting_state.
Proof.
  split.
  - apply (proj1 (spurious_wakeups_change_nothing idle_state 0));
      vm_compute; reflexivity.
  - apply (proj2 (spurious_wakeups_change_nothing waiting_state 1)).
    + vm_compute; reflexivity.
    + vm_compute; reflexivity.
    + vm_compute; discriminate.
Defined.

Lemma notify_all_releases_every_waiter_witness :
  exists s', exec two_waiters_state (release_steps 0 [1; 2]%nat) = Ok s' /\
    pcs s' !! 1%nat = Some (Idle None) /\ pcs s' !! 2%nat = Some (Idle None) /\
    env s' = 5.
Proof.
  destruct (notify_all_releases_every_waiter two_waiters_state 0 FromWorker
              [1; 2]%nat)
    as (s' & Hrun & Hret & _ & _ & _ & _ & _ & _ & _ & _ & Henv).
  - vm_compute; reflexivity.
  - vm_compute; reflexivity.
  - vm_compute; reflexivity.
  - apply NoDup_ListNoDup. repeat constructor; simpl; lia.
  - intros t Ht. apply list_elem_of_In in Ht.
    destruct Ht as [<-|[<-|[]]]; vm_compute; reflexivity.
  - exists s'. split_and!; [exact Hrun| | |].
    + apply Hret. apply list_elem_of_In. simpl. lia.
    + apply Hret. apply list_elem_of_In. simpl. lia.
    + rewrite Henv. vm_compute. reflexivity.
Defined.
